(** * BuzzDB slotted pages: a shallow embedding of [buzzdb_final.cpp]

    The development follows the source file top to bottom: the constants,
    [Tuple] with its textual (de)serialisation, [SlottedPage] as a raw byte
    buffer whose first bytes are read as the slot directory, and
    [BufferManager::moveTupleAcrossPages] over the page store.  *)

From Stdlib Require Import ZArith Lia Ascii.
From stdpp Require Import base numbers option list gmap.

Local Open Scope Z_scope.

(** ** Constants (source lines 9-11) *)

Definition PAGE_SIZE : Z := 4096.
Definition MAX_SLOTS : Z := 512.
Definition INVALID_VALUE : Z := 65535.

(** [int] is 32 bits wide. *)
Definition INT_MIN : Z := -2147483648.
Definition INT_MAX : Z := 2147483647.

Definition in_int (v : Z) : Prop := INT_MIN <= v <= INT_MAX.

(** ** Text streams

    [operator<<(int)] and [operator>>(int&)] of the classic locale, as far as
    [Tuple::serialize] and [Tuple::deserialize] use them. *)

Module Stream.

Definition isspace (c : ascii) : bool :=
  let n := N_of_ascii c in
  ((n =? 32) || ((9 <=? n) && (n <=? 13)))%N.

Definition isdigit (c : ascii) : bool :=
  let n := N_of_ascii c in ((48 <=? n) && (n <=? 57))%N.

Definition digit_char (d : Z) : ascii := ascii_of_N (Z.to_N (48 + d)).

Definition digit_val (c : ascii) : Z := Z.of_N (N_of_ascii c) - 48.

(** Decimal digits of [n], most significant first, pushed in front of
    [acc]; an [int] has at most ten of them. *)
Fixpoint put_digits (fuel : nat) (n : Z) (acc : list ascii) : list ascii :=
  match fuel with
  | O => acc
  | S fuel' =>
      let acc' := digit_char (n mod 10) :: acc in
      if n / 10 =? 0 then acc' else put_digits fuel' (n / 10) acc'
  end.

(** [buffer << value] *)
Definition put_int (v : Z) : list ascii :=
  if v <? 0 then "-"%char :: put_digits 10 (- v) []
  else put_digits 10 v [].

Fixpoint skipws (s : list ascii) : list ascii :=
  match s with
  | c :: r => if isspace c then skipws r else s
  | [] => []
  end.

Fixpoint get_digits (acc : Z) (s : list ascii) : Z * list ascii :=
  match s with
  | c :: r =>
      if isdigit c then get_digits (10 * acc + digit_val c) r else (acc, s)
  | [] => (acc, [])
  end.

(** [ss >> value]: leading white space is skipped, an optional sign and
    at least one digit are read; the extraction fails (the stream turns
    false) at the end of input, on any other character, and when the
    number does not fit an [int]. *)
Definition get_int (s : list ascii) : option (Z * list ascii) :=
  let s1 := skipws s in
  let '(neg, s2) :=
    match s1 with
    | c :: r =>
        if Ascii.eqb c "-" then (true, r)
        else if Ascii.eqb c "+" then (false, r)
        else (false, s1)
    | [] => (false, [])
    end in
  match s2 with
  | c :: _ =>
      if isdigit c then
        let '(n, rest) := get_digits 0 s2 in
        let v := if neg : bool then - n else n in
        if (INT_MIN <=? v) && (v <=? INT_MAX) then Some (v, rest) else None
      else None
  | [] => None
  end.

End Stream.

(** ** Tuple (source lines 19-62)

    A [Field] only wraps its [int]; a tuple is the vector of its values. *)

Record Tuple := mkTuple { fields : list Z }.

Definition sizeof_int : Z := 4.

Definition getSize (t : Tuple) : Z := sizeof_int * Z.of_nat (length (fields t)).

Fixpoint serialize_fields (fs : list Z) : list ascii :=
  match fs with
  | [] => []
  | v :: fs' => Stream.put_int v ++ " "%char :: serialize_fields fs'
  end.

Definition serialize (t : Tuple) : list ascii := serialize_fields (fields t).

(** [while (ss >> value) addField(value)].  Every successful extraction
    consumes at least one character, so [length data] rounds are enough
    ([deserialize_loop_fuel] below). *)
Fixpoint deserialize_loop (fuel : nat) (data : list ascii) : list Z :=
  match fuel with
  | O => []
  | S fuel' =>
      match Stream.get_int data with
      | Some (v, rest) => v :: deserialize_loop fuel' rest
      | None => []
      end
  end.

Definition deserialize (data : list ascii) : Tuple :=
  mkTuple (deserialize_loop (S (length data)) data).

(** ** Raw memory

    A buffer is the list of its bytes ([char]).  Accesses whose address is
    computed from stored slot values can leave the buffer; C++ gives them no
    meaning, and [read] and [write] answer [None] there. *)

Module Mem.

Definition NUL : ascii := "000"%char.

Definition byte_val (c : ascii) : Z := Z.of_N (N_of_ascii c).
Definition byte_of (v : Z) : ascii := ascii_of_N (Z.to_N (v mod 256)).

Definition load (m : list ascii) (a : Z) : ascii :=
  default NUL (m !! Z.to_nat a).
Definition store (m : list ascii) (a : Z) (c : ascii) : list ascii :=
  <[Z.to_nat a := c]> m.

(** [bool]: one byte, false iff zero. *)
Definition load_bool (m : list ascii) (a : Z) : bool :=
  negb (byte_val (load m a) =? 0).
Definition store_bool (m : list ascii) (a : Z) (b : bool) : list ascii :=
  store m a (byte_of (if b then 1 else 0)).

(** [uint16_t]: two bytes, low byte first; a stored value is reduced
    modulo 2^16. *)
Definition load_u16 (m : list ascii) (a : Z) : Z :=
  byte_val (load m a) + 256 * byte_val (load m (a + 1)).
Definition store_u16 (m : list ascii) (a : Z) (v : Z) : list ascii :=
  store (store m a (byte_of v)) (a + 1) (byte_of (v / 256)).

Definition read (m : list ascii) (off len : Z) : option (list ascii) :=
  if (0 <=? off) && (0 <=? len) && (off + len <=? Z.of_nat (length m))
  then Some (take (Z.to_nat len) (drop (Z.to_nat off) m))
  else None.

Definition write (m : list ascii) (off : Z) (bs : list ascii)
  : option (list ascii) :=
  if (0 <=? off) && (off + Z.of_nat (length bs) <=? Z.of_nat (length m))
  then Some (take (Z.to_nat off) m ++ bs
             ++ drop (Z.to_nat off + length bs) m)
  else None.

(** The buffer a [std::string] hands out with [c_str()]: its characters,
    the terminator, and then whatever the memory behind it holds, which
    [past] stands for. *)
Definition c_str (s : list ascii) (past : nat -> ascii) (k : nat) : ascii :=
  match s !! k with
  | Some c => c
  | None => if (k =? length s)%nat then NUL else past (k - length s - 1)%nat
  end.

Definition read_c_str (s : list ascii) (past : nat -> ascii) (n : Z)
  : list ascii :=
  map (c_str s past) (seq 0 (Z.to_nat n)).

End Mem.

(** ** Slot (source lines 13-17)

    [struct Slot { bool empty; uint16_t offset; uint16_t length; }] takes six
    bytes: the flag at 0, one byte of padding, [offset] at 2, [length] at 4.
    [slot_array] is the page buffer read as an array of such entries. *)

Module Slot.
Record t := mk { empty : bool; offset : Z; length : Z }.
End Slot.

Definition sizeof_Slot : Z := 6.

Definition slot_addr (i : Z) : Z := sizeof_Slot * i.

Definition slot_empty (d : list ascii) (i : Z) : bool :=
  Mem.load_bool d (slot_addr i).
Definition slot_offset (d : list ascii) (i : Z) : Z :=
  Mem.load_u16 d (slot_addr i + 2).
Definition slot_length (d : list ascii) (i : Z) : Z :=
  Mem.load_u16 d (slot_addr i + 4).

Definition get_slot (d : list ascii) (i : Z) : Slot.t :=
  Slot.mk (slot_empty d i) (slot_offset d i) (slot_length d i).

Definition set_slot_empty (d : list ascii) (i : Z) (b : bool) : list ascii :=
  Mem.store_bool d (slot_addr i) b.
Definition set_slot_offset (d : list ascii) (i : Z) (v : Z) : list ascii :=
  Mem.store_u16 d (slot_addr i + 2) v.
Definition set_slot_length (d : list ascii) (i : Z) (v : Z) : list ascii :=
  Mem.store_u16 d (slot_addr i + 4) v.

(** ** SlottedPage (source lines 64-135)

    [size_t] values are kept as unbounded integers: every one of them is a
    sum of a few 16-bit values and buffer or vector sizes. *)

Record SlottedPage := mkPage {
  page_data : list ascii;
  metadata_size : Z
}.

Definition slot_indices : list Z := seqZ 0 MAX_SLOTS.

Definition init_slot (d : list ascii) (i : Z) : list ascii :=
  let d1 := set_slot_empty d i true in
  let d2 := set_slot_offset d1 i INVALID_VALUE in
  set_slot_length d2 i INVALID_VALUE.

(** The constructor: a zeroed buffer whose directory entries are then all
    reset. *)
Definition SlottedPage_new : SlottedPage :=
  Eval vm_compute in
    mkPage
      (foldl init_slot (replicate (Z.to_nat PAGE_SIZE) Mem.NUL) slot_indices)
      (sizeof_Slot * MAX_SLOTS).

Definition insert_offset (p : SlottedPage) (i : Z) : Z :=
  if i =? 0 then metadata_size p
  else slot_offset (page_data p) (i - 1) + slot_length (page_data p) (i - 1).

(** The body run for the first empty slot [i]. *)
Definition addTuple_at (i : Z) (tuple_size : Z) (src : list ascii)
    (p : SlottedPage) : option (bool * SlottedPage) :=
  let offset := insert_offset p i in
  if PAGE_SIZE <=? offset + tuple_size then Some (false, p)
  else
    d1 ← Mem.write (page_data p) offset src;
    let d2 := set_slot_empty d1 i false in
    let d3 := set_slot_offset d2 i offset in
    let d4 := set_slot_length d3 i tuple_size in
    Some (true, mkPage d4 (metadata_size p)).

Fixpoint addTuple_loop (idx : list Z) (tuple_size : Z) (src : list ascii)
    (p : SlottedPage) : option (bool * SlottedPage) :=
  match idx with
  | [] => Some (false, p)
  | i :: idx' =>
      if slot_empty (page_data p) i then addTuple_at i tuple_size src p
      else addTuple_loop idx' tuple_size src p
  end.

(** [past] is the memory behind the serialised string, which [memcpy] reads
    when [tuple_size] exceeds the string's length. *)
Definition addTuple (past : nat -> ascii) (tuple : Tuple) (p : SlottedPage)
  : option (bool * SlottedPage) :=
  let tuple_size := getSize tuple in
  let serialized_tuple := serialize tuple in
  addTuple_loop slot_indices tuple_size
    (Mem.read_c_str serialized_tuple past tuple_size) p.

(** [index] is a [size_t]. *)
Definition deleteTuple (index : N) (p : SlottedPage) : SlottedPage :=
  let i := Z.of_N index in
  if (i <? MAX_SLOTS) && negb (slot_empty (page_data p) i)
  then mkPage (set_slot_empty (page_data p) i true) (metadata_size p)
  else p.

(** The body run for an occupied slot [i]: [memmove] copies through a
    temporary, so the two ranges may overlap. *)
Definition compact_slot (i new_offset : Z) (d : list ascii)
  : option (list ascii) :=
  let old_offset := slot_offset d i in
  let length := slot_length d i in
  if old_offset =? new_offset then Some d
  else
    bytes ← Mem.read d old_offset length;
    d1 ← Mem.write d new_offset bytes;
    Some (set_slot_offset d1 i new_offset).

Fixpoint compact_loop (idx : list Z) (new_offset : Z) (d : list ascii)
  : option (list ascii) :=
  match idx with
  | [] => Some d
  | i :: idx' =>
      if slot_empty d i then compact_loop idx' new_offset d
      else
        d' ← compact_slot i new_offset d;
        compact_loop idx' (new_offset + slot_length d i) d'
  end.

Definition compactPage (p : SlottedPage) : option SlottedPage :=
  d ← compact_loop slot_indices (metadata_size p) (page_data p);
  Some (mkPage d (metadata_size p)).

(** [print] writes one line per occupied slot, in index order; the model
    returns what the lines show: the slot index and the field values of the
    tuple read back from the slot's bytes. *)
Fixpoint print_loop (idx : list Z) (d : list ascii)
  : option (list (Z * list Z)) :=
  match idx with
  | [] => Some []
  | i :: idx' =>
      if slot_empty d i then print_loop idx' d
      else
        bytes ← Mem.read d (slot_offset d i) (slot_length d i);
        rest ← print_loop idx' d;
        Some ((i, fields (deserialize bytes)) :: rest)
  end.

Definition print (p : SlottedPage) : option (list (Z * list Z)) :=
  print_loop slot_indices (page_data p).

(** ** StorageManager (source lines 137-144)

    [pages[page_id]] creates the page on first use and hands out a reference
    to the stored page: two loads of one id denote one page. *)

Definition load (page_id : Z) (pages : gmap Z SlottedPage)
  : gmap Z SlottedPage :=
  match pages !! page_id with
  | Some _ => pages
  | None => <[page_id := SlottedPage_new]> pages
  end.

Definition page_at (pages : gmap Z SlottedPage) (page_id : Z) : SlottedPage :=
  default SlottedPage_new (pages !! page_id).

(** ** BufferManager (source lines 146-188) *)

(** A write through a reference to the page stored under [page_id]. *)
Definition update_page (page_id : Z) (f : SlottedPage -> SlottedPage)
    (pages : gmap Z SlottedPage) : gmap Z SlottedPage :=
  <[page_id := f (page_at pages page_id)]> pages.

Definition with_data (f : list ascii -> list ascii) (p : SlottedPage)
  : SlottedPage :=
  mkPage (f (page_data p)) (metadata_size p).

(** [for (; j < MAX_SLOTS; j++) if (to_slots[j].empty) break;] *)
Fixpoint find_free (idx : list Z) (d : list ascii) : Z :=
  match idx with
  | [] => MAX_SLOTS
  | j :: idx' => if slot_empty d j then j else find_free idx' d
  end.

(** The writes of one round once the record fits (source lines 169-181),
    on the pages behind the two references: first the bytes [d1] of the
    destination after [memmove] and the source flag, *)
Definition move_free (from_page_id to_page_id i : Z) (d1 : list ascii)
    (pages : gmap Z SlottedPage) : gmap Z SlottedPage :=
  let pages1 := update_page to_page_id (with_data (λ _, d1)) pages in
  update_page from_page_id (with_data (λ d, set_slot_empty d i true)) pages1.

Definition activate (j new_offset length : Z) (d : list ascii) : list ascii :=
  let d2 := set_slot_empty d j false in
  let d3 := set_slot_offset d2 j new_offset in
  set_slot_length d3 j length.

(** then the search for [j], the entry [to_slots[j]] - written also when
    the search ran to [MAX_SLOTS] - and the destination's [metadata_size]. *)
Definition move_commit (from_page_id to_page_id i : Z) (d1 : list ascii)
    (new_offset length : Z) (pages : gmap Z SlottedPage)
  : gmap Z SlottedPage :=
  let pages2 := move_free from_page_id to_page_id i d1 pages in
  let j := find_free slot_indices (page_data (page_at pages2 to_page_id)) in
  let pages3 :=
    update_page to_page_id (with_data (activate j new_offset length)) pages2 in
  update_page to_page_id
    (λ p, mkPage (page_data p) (metadata_size p + length)) pages3.

(** One round of the outer loop.  The flag tells whether the loop goes on
    ([false]: [return false]). *)
Definition move_slot (from_page_id to_page_id i : Z)
    (pages : gmap Z SlottedPage) : option (bool * gmap Z SlottedPage) :=
  let from_page := page_at pages from_page_id in
  let to_page := page_at pages to_page_id in
  if slot_empty (page_data from_page) i then Some (true, pages)
  else
    let length := slot_length (page_data from_page) i in
    let new_offset := metadata_size to_page in
    if PAGE_SIZE <=? new_offset + length then Some (false, pages)
    else
      bytes ← Mem.read (page_data from_page)
                (slot_offset (page_data from_page) i) length;
      d1 ← Mem.write (page_data to_page) new_offset bytes;
      Some (true, move_commit from_page_id to_page_id i d1 new_offset length
                    pages).

Fixpoint move_loop (from_page_id to_page_id : Z) (idx : list Z)
    (pages : gmap Z SlottedPage) : option (bool * gmap Z SlottedPage) :=
  match idx with
  | [] => Some (true, pages)
  | i :: idx' =>
      '(go_on, pages') ← move_slot from_page_id to_page_id i pages;
      if go_on : bool then move_loop from_page_id to_page_id idx' pages'
      else Some (false, pages')
  end.

Definition moveTupleAcrossPages (from_page_id to_page_id : Z)
    (pages : gmap Z SlottedPage) : option (bool * gmap Z SlottedPage) :=
  let pages0 := load to_page_id (load from_page_id pages) in
  '(done, pages1) ← move_loop from_page_id to_page_id slot_indices pages0;
  if done : bool then
    p ← compactPage (page_at pages1 from_page_id);
    Some (true, <[from_page_id := p]> pages1)
  else Some (false, pages1).

(** ** Call sequences *)

(** On one page. *)
Inductive call :=
| Insert (tuple : Tuple) (past : nat -> ascii)
| Delete (index : N)
| Compact.

Definition do_call (c : call) (p : SlottedPage) : option SlottedPage :=
  match c with
  | Insert tuple past => snd <$> addTuple past tuple p
  | Delete index => Some (deleteTuple index p)
  | Compact => compactPage p
  end.

Fixpoint do_calls (cs : list call) (p : SlottedPage) : option SlottedPage :=
  match cs with
  | [] => Some p
  | c :: cs' => p' ← do_call c p; do_calls cs' p'
  end.

(** On the store: a call on the page [load page_id] refers to, or a move. *)
Inductive store_call :=
| OnPage (page_id : Z) (c : call)
| Move (from_page_id to_page_id : Z).

Definition do_store_call (sc : store_call) (pages : gmap Z SlottedPage)
  : option (gmap Z SlottedPage) :=
  match sc with
  | OnPage page_id c =>
      p ← do_call c (page_at pages page_id); Some (<[page_id := p]> pages)
  | Move from_page_id to_page_id =>
      snd <$> moveTupleAcrossPages from_page_id to_page_id pages
  end.

Fixpoint do_store_calls (scs : list store_call) (pages : gmap Z SlottedPage)
  : option (gmap Z SlottedPage) :=
  match scs with
  | [] => Some pages
  | sc :: scs' => pages' ← do_store_call sc pages; do_store_calls scs' pages'
  end.

Definition zeros : nat -> ascii := λ _, Mem.NUL.

Definition text (s : String.string) : list ascii :=
  String.list_ascii_of_string s.


(** ** Predicates used in the statements *)

(** The directory: the first [MAX_SLOTS] entries of [slot_array]. *)
Definition directory_size : Z := sizeof_Slot * MAX_SLOTS.

(** Two buffers hold the same bytes at the addresses [lo <= a < hi]. *)
Definition agree (lo hi : Z) (m m' : list ascii) : Prop :=
  forall a, lo <= a < hi -> Mem.load m a = Mem.load m' a.

(** What every page built by the operations satisfies, as long as no access
    left the buffer: the buffer has [PAGE_SIZE] bytes, [metadata_size] is not
    below the end of the directory, and every occupied slot lies in the data
    region and inside the buffer. *)
Definition in_data_region (d : list ascii) (i : Z) : Prop :=
  slot_empty d i = false ->
  directory_size <= slot_offset d i /\
  slot_offset d i + slot_length d i <= PAGE_SIZE.

Definition page_inv (p : SlottedPage) : Prop :=
  Z.of_nat (length (page_data p)) = PAGE_SIZE /\
  directory_size <= metadata_size p /\
  (forall i, 0 <= i < MAX_SLOTS -> in_data_region (page_data p) i).

Definition store_inv (pages : gmap Z SlottedPage) : Prop :=
  forall page_id, page_inv (page_at pages page_id).

(** The layout [compactPage] is written for: going through the directory,
    every occupied slot starts at or after the end of the occupied slot
    before it, the first at or after [lo], and the last ends in the buffer. *)
Fixpoint ordered_from (idx : list Z) (lo : Z) (d : list ascii) : Prop :=
  match idx with
  | [] => lo <= PAGE_SIZE
  | i :: idx' =>
      if slot_empty d i then ordered_from idx' lo d
      else lo <= slot_offset d i /\
           ordered_from idx' (slot_offset d i + slot_length d i) d
  end.

Definition ordered_layout (p : SlottedPage) : Prop :=
  Z.of_nat (length (page_data p)) = PAGE_SIZE /\
  directory_size <= metadata_size p /\
  ordered_from slot_indices (metadata_size p) (page_data p).

(** The byte ranges of slots [i] and [j] share an address. *)
Definition overlap (d : list ascii) (i j : Z) : Prop :=
  exists a, slot_offset d i <= a < slot_offset d i + slot_length d i /\
            slot_offset d j <= a < slot_offset d j + slot_length d j.

(** The slot an insert takes: the first empty one, [MAX_SLOTS] when the
    directory is full. *)
Definition first_empty (p : SlottedPage) : Z :=
  find_free slot_indices (page_data p).

(** ** Pages used as examples *)

(** A page whose directory is full: 512 tuples without fields inserted into
    a fresh page.  [fill n] is the page after [n] of these inserts
    ([fill_reached] below): each writes no data and activates slot [n-1]
    at [directory_size] with length 0. *)
Definition full_page_calls : list call :=
  replicate 512 (Insert (mkTuple []) zeros).

Definition occupy_empty (d : list ascii) (i : Z) : list ascii :=
  let d2 := set_slot_empty d i false in
  let d3 := set_slot_offset d2 i directory_size in
  set_slot_length d3 i 0.

Fixpoint fill (n : nat) : SlottedPage :=
  match n with
  | O => SlottedPage_new
  | S n' => mkPage (occupy_empty (page_data (fill n')) (Z.of_nat n'))
                   directory_size
  end.

Definition full_page : SlottedPage := Eval vm_compute in fill 512.

(** ** The high-water mark of the specification

    The source keeps no such field.  This definition follows the words of
    the specification: the mark is "initialized to directory_size", an
    insert "advances the high-water mark by length", a delete leaves it, and
    a compaction resets it "to the final new_offset after the pass". *)

Fixpoint compact_end (idx : list Z) (new_offset : Z) (d : list ascii) : Z :=
  match idx with
  | [] => new_offset
  | i :: idx' =>
      if slot_empty d i then compact_end idx' new_offset d
      else compact_end idx' (new_offset + slot_length d i) d
  end.

Definition spec_mark_step (c : call) (p : SlottedPage) (mark : Z) : Z :=
  match c with
  | Insert tuple past =>
      match addTuple past tuple p with
      | Some (true, _) => mark + getSize tuple
      | _ => mark
      end
  | Delete _ => mark
  | Compact => compact_end slot_indices (metadata_size p) (page_data p)
  end.

Fixpoint spec_high_water_mark (cs : list call) (p : SlottedPage) (mark : Z)
  : option Z :=
  match cs with
  | [] => Some mark
  | c :: cs' =>
      p' ← do_call c p;
      spec_high_water_mark cs' p' (spec_mark_step c p mark)
  end.

(** Scenario D of the specification: the source page holds one record of
    20 bytes, the destination's append position is 10 bytes below the end
    of the page. *)
Definition scenario_D_pages : gmap Z SlottedPage :=
  <[1 := mkPage (page_data SlottedPage_new) (PAGE_SIZE - 10)]>
    (<[0 := default SlottedPage_new
              (do_calls [Insert (mkTuple [1; 2; 3; 4; 5]) zeros]
                 SlottedPage_new)]> ∅).

(** ** Further predicates and drivers *)

(** The layout a compaction leaves: every occupied slot starts where the
    occupied slot before it ends, the first at [lo]. *)
Fixpoint packed_from (idx : list Z) (lo : Z) (d : list ascii) : Prop :=
  match idx with
  | [] => True
  | i :: idx' =>
      if slot_empty d i then packed_from idx' lo d
      else slot_offset d i = lo /\ packed_from idx' (lo + slot_length d i) d
  end.

(** The occupied slots among [idx], in the order of [idx], and the sum of
    their lengths. *)
Definition occupied_in (idx : list Z) (d : list ascii) : list Z :=
  filter (λ i, slot_empty d i = false) idx.

Definition size_in (idx : list Z) (d : list ascii) : Z :=
  foldr (λ i acc, slot_length d i + acc) 0 (occupied_in idx d).

(** The occupied slots of a page, in directory order, and the bytes their
    entries count. *)
Definition occupied_slots (p : SlottedPage) : list Z :=
  occupied_in slot_indices (page_data p).

Definition occupied_size (p : SlottedPage) : Z :=
  size_in slot_indices (page_data p).

(** A run of inserts, each with the memory behind its serialised string. *)
Definition inserts (ts : list (Tuple * (nat -> ascii))) : list call :=
  map (λ tp, Insert tp.1 tp.2) ts.

Definition total_size (ts : list (Tuple * (nat -> ascii))) : Z :=
  foldr (λ tp acc, getSize tp.1 + acc) 0 ts.

(** Where the record number [k] of such a run starts when the records are
    laid out back to back behind the directory. *)
Definition start_of (ts : list (Tuple * (nat -> ascii))) (k : nat) : Z :=
  directory_size + total_size (take k ts).

(** The bytes an insert stores for a record. *)
Definition stored_bytes (tp : Tuple * (nat -> ascii)) : list ascii :=
  Mem.read_c_str (serialize tp.1) tp.2 (getSize tp.1).

(** The page a run of inserts into a fresh page builds: record [k] in slot
    [k] at [start_of ts k], the other slots empty. *)
Definition appended (ts : list (Tuple * (nat -> ascii))) (p : SlottedPage)
  : Prop :=
  page_inv p /\ metadata_size p = directory_size /\
  (forall k tp, ts !! k = Some tp ->
     get_slot (page_data p) (Z.of_nat k)
       = Slot.mk false (start_of ts k) (getSize tp.1) /\
     Mem.read (page_data p) (start_of ts k) (getSize tp.1)
       = Some (stored_bytes tp)) /\
  (forall k, Z.of_nat (length ts) <= k < MAX_SLOTS ->
     slot_empty (page_data p) k = true).

(** The store while the records of a run of inserts, held by page [p], are
    moved from [from_id] to [to_id], after the rounds on the slots below
    [k]: the destination holds the first [k] records back to back, the
    source has lost their slots and nothing else. *)
Definition moved (from_id to_id : Z) (ts : list (Tuple * (nat -> ascii)))
    (p : SlottedPage) (k : nat) (q : gmap Z SlottedPage) : Prop :=
  store_inv q /\
  metadata_size (page_at q to_id) = start_of ts k /\
  (forall j tp, (j < k)%nat -> ts !! j = Some tp ->
     get_slot (page_data (page_at q to_id)) (Z.of_nat j)
       = Slot.mk false (start_of ts j) (getSize tp.1) /\
     Mem.read (page_data (page_at q to_id)) (start_of ts j) (getSize tp.1)
       = Some (stored_bytes tp)) /\
  (forall j, Z.of_nat k <= j < MAX_SLOTS ->
     slot_empty (page_data (page_at q to_id)) j = true) /\
  (forall j, Z.of_nat k <= j < MAX_SLOTS ->
     get_slot (page_data (page_at q from_id)) j = get_slot (page_data p) j) /\
  (forall j, 0 <= j < Z.of_nat k ->
     slot_empty (page_data (page_at q from_id)) j = true) /\
  metadata_size (page_at q from_id) = metadata_size p /\
  agree directory_size PAGE_SIZE (page_data (page_at q from_id)) (page_data p).

(** The buffer of a page holding the records of [ts] in slots 0, 1, ...:
    the first [k] of them [s] bytes behind their places behind the
    directory, the others at those places. *)
Definition shifted (ts : list (Tuple * (nat -> ascii))) (s : Z) (k : nat)
    (d : list ascii) : Prop :=
  Z.of_nat (length d) = PAGE_SIZE /\
  (forall j tp, ts !! j = Some tp ->
     let o := start_of ts j + (if decide (j < k)%nat then s else 0) in
     get_slot d (Z.of_nat j) = Slot.mk false o (getSize tp.1) /\
     Mem.read d o (getSize tp.1) = Some (stored_bytes tp)) /\
  (forall j, Z.of_nat (length ts) <= j < MAX_SLOTS -> slot_empty d j = true).
(** * Properties *)

(** ** Streams: what is written is read back *)

Module StreamFacts.
Import Stream.

Lemma digit_char_facts d :
  0 <= d < 10 ->
  isdigit (digit_char d) = true /\ digit_val (digit_char d) = d /\
  isspace (digit_char d) = false /\
  Ascii.eqb (digit_char d) "-" = false /\
  Ascii.eqb (digit_char d) "+" = false.
Proof.
  intros Hd.
  assert (Hc : d = 0 \/ d = 1 \/ d = 2 \/ d = 3 \/ d = 4 \/ d = 5 \/
               d = 6 \/ d = 7 \/ d = 8 \/ d = 9) by lia.
  repeat (destruct Hc as [-> | Hc]); try subst d; vm_compute; auto.
Qed.

(** The digits of [n] are read back as [n], whatever was accumulated
    before them: [k] is the power of ten they shift it by. *)
Lemma put_digits_get fuel : forall n acc,
  0 <= n < 10 ^ Z.of_nat fuel -> (0 < fuel)%nat ->
  exists c ds k,
    put_digits fuel n acc = (c :: ds) ++ acc /\
    isdigit c = true /\
    forall a tl, get_digits a ((c :: ds) ++ tl) = get_digits (a * k + n) tl.
Proof.
  induction fuel as [| fuel IH]; intros n acc Hn Hf; [lia |].
  cbn [put_digits].
  assert (Hmod : 0 <= n mod 10 < 10) by (apply Z.mod_pos_bound; lia).
  destruct (digit_char_facts _ Hmod) as (Hdig & Hval & _).
  destruct (Z.eqb_spec (n / 10) 0) as [Hq | Hq].
  - exists (digit_char (n mod 10)), [], 10. split; [reflexivity |].
    split; [assumption |]. intros a tl. cbn [app get_digits].
    rewrite Hdig, Hval. f_equal.
    pose proof (Z.div_mod n 10). lia.
  - assert (Hq' : 0 < n / 10).
    { pose proof (Z.div_pos n 10). lia. }
    assert (Hf' : (0 < fuel)%nat).
    { destruct fuel; [| lia]. change (10 ^ Z.of_nat 1) with 10 in Hn.
      rewrite Z.div_small in Hq by lia. lia. }
    assert (Hb : 0 <= n / 10 < 10 ^ Z.of_nat fuel).
    { split; [lia |]. apply Z.div_lt_upper_bound; [lia |].
      rewrite Nat2Z.inj_succ, Z.pow_succ_r in Hn by lia. lia. }
    destruct (IH (n / 10) (digit_char (n mod 10) :: acc) Hb Hf')
      as (c & ds & k & Heq & Hc & Hget).
    exists c, (ds ++ [digit_char (n mod 10)]), (k * 10).
    split.
    { rewrite Heq. cbn [app]. rewrite <- app_assoc. reflexivity. }
    split; [assumption |]. intros a tl.
    replace ((c :: ds ++ [digit_char (n mod 10)]) ++ tl)
      with ((c :: ds) ++ digit_char (n mod 10) :: tl)
      by (cbn [app]; rewrite <- app_assoc; reflexivity).
    rewrite Hget. cbn [get_digits]. rewrite Hdig, Hval. f_equal.
    pose proof (Z.div_mod n 10). lia.
Qed.

Lemma get_int_space s : get_int (" "%char :: s) = get_int s.
Proof. reflexivity. Qed.

Lemma get_int_put_int v rest :
  in_int v ->
  get_int (put_int v ++ " "%char :: rest) = Some (v, " "%char :: rest).
Proof.
  intros [Hlo Hhi]. unfold INT_MIN, INT_MAX in *. unfold put_int.
  destruct (Z.ltb_spec v 0) as [Hneg | Hpos].
  - destruct (put_digits_get 10 (- v) []) as (c & ds & k & Heq & Hc & Hget);
      [change (10 ^ Z.of_nat 10) with 10000000000; lia | lia |].
    rewrite Heq, app_nil_r. unfold get_int.
    cbn [app skipws]. change (isspace "-") with false. cbv iota.
    change (Ascii.eqb "-" "-") with true. cbv iota beta.
    cbn [app] in Hget. rewrite Hc, (Hget 0 (" "%char :: rest)).
    cbn [get_digits]. change (isdigit " ") with false. cbv iota beta.
    replace (0 * k + - v) with (- v) by lia.
    replace (- - v) with v by lia.
    destruct (Z.leb_spec INT_MIN v), (Z.leb_spec v INT_MAX);
      unfold INT_MIN, INT_MAX in *; try lia. reflexivity.
  - destruct (put_digits_get 10 v []) as (c & ds & k & Heq & Hc & Hget);
      [change (10 ^ Z.of_nat 10) with 10000000000; lia | lia |].
    rewrite Heq, app_nil_r. unfold get_int.
    assert (Hns : isspace c = false /\ Ascii.eqb c "-" = false /\
                  Ascii.eqb c "+" = false).
    { revert Hc. unfold isdigit, isspace.
      destruct (Ascii.eqb_spec c "-") as [-> |]; [vm_compute; discriminate |].
      destruct (Ascii.eqb_spec c "+") as [-> |]; [vm_compute; discriminate |].
      intros Hc. apply andb_prop in Hc as [H1 H2].
      apply N.leb_le in H1, H2. repeat split.
      destruct (N.eqb_spec (N_of_ascii c) 32) as [E | E]; [lia |].
      destruct (N.leb_spec (N_of_ascii c) 13); [lia |].
      rewrite andb_false_r. reflexivity. }
    destruct Hns as (Hsp & Hm & Hp).
    cbn [app skipws]. rewrite Hsp, Hm, Hp, Hc.
    cbn [app] in Hget. rewrite (Hget 0 (" "%char :: rest)).
    cbn [get_digits]. change (isdigit " ") with false. cbv iota beta.
    replace (0 * k + v) with v by lia.
    destruct (Z.leb_spec INT_MIN v), (Z.leb_spec v INT_MAX);
      unfold INT_MIN, INT_MAX in *; try lia. reflexivity.
Qed.

Lemma put_int_length v : in_int v -> (0 < length (put_int v))%nat.
Proof.
  intros [Hlo Hhi]. unfold INT_MIN, INT_MAX in *. unfold put_int.
  destruct (Z.ltb_spec v 0); [cbn [length]; lia |].
  destruct (put_digits_get 10 v []) as (c & ds & k & Heq & _);
    [change (10 ^ Z.of_nat 10) with 10000000000; lia | lia |].
  rewrite Heq. cbn [app length]. lia.
Qed.

Lemma skipws_length s : (length (skipws s) <= length s)%nat.
Proof.
  induction s as [| c s IH]; cbn [skipws length]; [lia |].
  destruct (isspace c); cbn [length]; lia.
Qed.

Lemma get_digits_length s : forall a,
  (length (get_digits a s).2 <= length s)%nat.
Proof.
  induction s as [| c s IH]; intros a; cbn [get_digits]; [cbn; lia |].
  destruct (isdigit c); [| cbn; lia]. specialize (IH (10 * a + digit_val c)).
  cbn [length]. lia.
Qed.

(** A successful extraction consumes input. *)
Lemma get_int_consumes s v rest :
  get_int s = Some (v, rest) -> (length rest < length s)%nat.
Proof.
  unfold get_int. pose proof (skipws_length s) as Hs.
  destruct (skipws s) as [| c r] eqn:E; [discriminate |].
  assert (Hd : forall s2 : list ascii, (length s2 <= length (c :: r))%nat ->
    match s2 with
    | [] => None
    | c0 :: _ =>
        if isdigit c0 then
          let '(n, rest0) := get_digits 0 s2 in
          (fun neg : bool =>
            let v0 := if neg then - n else n in
            if (INT_MIN <=? v0) && (v0 <=? INT_MAX)
            then Some (v0, rest0) else None) false
        else None
    end = Some (v, rest) \/
    match s2 with
    | [] => None
    | c0 :: _ =>
        if isdigit c0 then
          let '(n, rest0) := get_digits 0 s2 in
          (fun neg : bool =>
            let v0 := if neg then - n else n in
            if (INT_MIN <=? v0) && (v0 <=? INT_MAX)
            then Some (v0, rest0) else None) true
        else None
    end = Some (v, rest) ->
    (length rest < length s)%nat).
  { intros [| c0 s2] Hlen H; [destruct H; discriminate |].
    destruct (isdigit c0) eqn:Hc0; [| destruct H; discriminate].
    cbn [get_digits] in H. rewrite Hc0 in H.
    pose proof (get_digits_length s2 (10 * 0 + digit_val c0)) as Hg.
    destruct (get_digits (10 * 0 + digit_val c0) s2) as [n rest0].
    cbn [snd] in Hg. cbn [length] in Hlen, Hs. cbv beta in H.
    destruct H as [H | H];
      match type of H with
      | (if ?b then _ else _) = _ => destruct b; [| discriminate]
      end; injection H as _ <-; lia. }
  destruct (Ascii.eqb c "-"); [intros H; apply (Hd r); [cbn; lia | auto] |].
  destruct (Ascii.eqb c "+"); intros H;
    [apply (Hd r) | apply (Hd (c :: r))]; cbn [length]; auto; lia.
Qed.

(** The loop of [deserialize] never runs out of rounds. *)
Lemma deserialize_loop_fuel data : forall f1 f2,
  (length data < f1)%nat -> (length data < f2)%nat ->
  deserialize_loop f1 data = deserialize_loop f2 data.
Proof.
  induction data as [data IH] using (induction_ltof1 _ (@length ascii)).
  unfold ltof in IH. intros [| f1] [| f2] H1 H2; try lia.
  cbn [deserialize_loop].
  destruct (get_int data) as [[v rest] |] eqn:E; [| reflexivity].
  apply get_int_consumes in E. f_equal. apply IH; lia.
Qed.

(** Reading stops at [tail] when no number can be extracted from it: at
    the end of the data, at a terminator. *)
Lemma deserialize_serialize_tail tail fs : forall fuel,
  Forall in_int fs -> get_int tail = None ->
  (length (serialize_fields fs ++ tail) < fuel)%nat ->
  deserialize_loop fuel (serialize_fields fs ++ tail) = fs.
Proof.
  induction fs as [| v fs IH]; intros [| fuel] Hfs Htail Hlen; try lia.
  - cbn [serialize_fields app deserialize_loop]. now rewrite Htail.
  - apply Forall_cons in Hfs as [Hv Hfs].
    cbn [serialize_fields deserialize_loop] in *.
    rewrite <- app_assoc. cbn [app].
    rewrite get_int_put_int by assumption.
    rewrite <- app_assoc, length_app in Hlen. cbn [app length] in Hlen.
    pose proof (put_int_length v Hv).
    destruct fuel as [| fuel]; [lia |].
    cbn [deserialize_loop]. rewrite get_int_space.
    f_equal. specialize (IH (S fuel) Hfs Htail). cbn [deserialize_loop] in IH.
    apply IH. lia.
Qed.

Lemma deserialize_serialize_fields fs : forall fuel,
  Forall in_int fs ->
  (length (serialize_fields fs) < fuel)%nat ->
  deserialize_loop fuel (serialize_fields fs) = fs.
Proof.
  intros fuel Hfs Hlen.
  rewrite <- (app_nil_r (serialize_fields fs)) in Hlen |- *.
  now apply deserialize_serialize_tail.
Qed.

End StreamFacts.

(** C6. Round trip: for every record [r] (its fields being [int]s),
    [deserialize (serialize r)] has the same number of fields as [r] and the
    same field values, in the same order. *)
Theorem C6_deserialize_serialize (r : Tuple) :
  Forall in_int (fields r) ->
  fields (deserialize (serialize r)) = fields r /\
  length (fields (deserialize (serialize r))) = length (fields r).
Proof.
  intros Hr.
  assert (H : fields (deserialize (serialize r)) = fields r).
  { unfold deserialize, serialize. cbn [fields].
    apply StreamFacts.deserialize_serialize_fields; [assumption | lia]. }
  split; [exact H | now rewrite H].
Qed.

Lemma C6_witness :
  Forall in_int (fields (mkTuple [10; -5; 0; INT_MIN; INT_MAX])) /\
  fields (deserialize (serialize (mkTuple [10; -5; 0; INT_MIN; INT_MAX])))
    = [10; -5; 0; INT_MIN; INT_MAX].
Proof.
  assert (H : Forall in_int (fields (mkTuple [10; -5; 0; INT_MIN; INT_MAX]))).
  { cbn [fields]. repeat constructor; unfold in_int, INT_MIN, INT_MAX; lia. }
  split; [exact H |].
  exact (proj1 (C6_deserialize_serialize _ H)).
Defined.

(** ** Raw memory: reads after writes *)

Module MemFacts.
Import Mem.

Lemma byte_val_range c : 0 <= byte_val c < 256.
Proof.
  unfold byte_val. pose proof (N_ascii_bounded c). lia.
Qed.

Lemma byte_val_of v : byte_val (byte_of v) = v mod 256.
Proof.
  unfold byte_val, byte_of.
  pose proof (Z.mod_pos_bound v 256 ltac:(lia)).
  rewrite N_ascii_embedding by lia. lia.
Qed.

Lemma load_lookup m a :
  0 <= a < Z.of_nat (length m) -> m !! Z.to_nat a = Some (load m a).
Proof.
  intros Ha. unfold load.
  destruct (lookup_lt_is_Some_2 m (Z.to_nat a)) as [c Hc]; [lia |].
  now rewrite Hc.
Qed.

Lemma length_store m a c : length (store m a c) = length m.
Proof. apply length_insert. Qed.

Lemma load_store_eq m a c :
  0 <= a < Z.of_nat (length m) -> load (store m a c) a = c.
Proof.
  intros Ha. unfold load, store.
  rewrite list_lookup_insert_eq by lia. reflexivity.
Qed.

Lemma load_store_ne m a b c :
  0 <= a -> 0 <= b -> a <> b -> load (store m a c) b = load m b.
Proof.
  intros Ha Hb Hne. unfold load, store.
  rewrite list_lookup_insert_ne by lia. reflexivity.
Qed.

Lemma load_u16_range m a : 0 <= load_u16 m a < 65536.
Proof.
  unfold load_u16.
  pose proof (byte_val_range (load m a)).
  pose proof (byte_val_range (load m (a + 1))). lia.
Qed.

Lemma length_store_u16 m a v : length (store_u16 m a v) = length m.
Proof. unfold store_u16. now rewrite !length_store. Qed.

Lemma length_store_bool m a b : length (store_bool m a b) = length m.
Proof. apply length_store. Qed.

Lemma load_u16_store_u16 m a v :
  0 <= a -> a + 1 < Z.of_nat (length m) ->
  load_u16 (store_u16 m a v) a = v mod 65536.
Proof.
  intros Ha Hlen. unfold load_u16, store_u16.
  rewrite load_store_eq by (rewrite length_store; lia).
  rewrite load_store_ne by lia.
  rewrite load_store_eq by lia.
  rewrite !byte_val_of.
  change 65536 with (256 * 256).
  rewrite Z.rem_mul_r by lia. reflexivity.
Qed.

Lemma load_bool_store_bool m a b :
  0 <= a < Z.of_nat (length m) -> load_bool (store_bool m a b) a = b.
Proof.
  intros Ha. unfold load_bool, store_bool.
  rewrite load_store_eq by lia. rewrite byte_val_of. now destruct b.
Qed.

(** Frame: a store changes one address only. *)
Lemma agree_refl lo hi m : agree lo hi m m.
Proof. intros a _. reflexivity. Qed.

Lemma agree_sym lo hi m m' : agree lo hi m m' -> agree lo hi m' m.
Proof. intros H a Ha. symmetry. now apply H. Qed.

Lemma agree_trans lo hi m1 m2 m3 :
  agree lo hi m1 m2 -> agree lo hi m2 m3 -> agree lo hi m1 m3.
Proof. intros H1 H2 a Ha. rewrite H1 by assumption. now apply H2. Qed.

Lemma agree_sub lo hi lo' hi' m m' :
  agree lo hi m m' -> lo <= lo' -> hi' <= hi -> agree lo' hi' m m'.
Proof. intros H ? ? a Ha. apply H. lia. Qed.

Lemma agree_store lo hi m a c :
  0 <= lo -> 0 <= a -> a < lo \/ hi <= a -> agree lo hi (store m a c) m.
Proof. intros Hlo Ha Hout b Hb. apply load_store_ne; lia. Qed.

Lemma agree_store_u16 lo hi m a v :
  0 <= lo -> 0 <= a -> a + 2 <= lo \/ hi <= a ->
  agree lo hi (store_u16 m a v) m.
Proof.
  intros Hlo Ha Hout. unfold store_u16.
  eapply agree_trans; apply agree_store; lia.
Qed.

Lemma agree_store_bool lo hi m a b :
  0 <= lo -> 0 <= a -> a < lo \/ hi <= a ->
  agree lo hi (store_bool m a b) m.
Proof. intros. now apply agree_store. Qed.

Lemma load_bool_agree lo hi m m' a :
  agree lo hi m m' -> lo <= a < hi -> load_bool m a = load_bool m' a.
Proof. intros H Ha. unfold load_bool. now rewrite (H a Ha). Qed.

Lemma load_u16_agree lo hi m m' a :
  agree lo hi m m' -> lo <= a -> a + 2 <= hi ->
  load_u16 m a = load_u16 m' a.
Proof.
  intros H Ha Hb. unfold load_u16.
  rewrite (H a), (H (a + 1)) by lia. reflexivity.
Qed.

(** [read] and [write] *)
Lemma read_Some m off len :
  0 <= off -> 0 <= len -> off + len <= Z.of_nat (length m) ->
  read m off len = Some (take (Z.to_nat len) (drop (Z.to_nat off) m)).
Proof.
  intros H1 H2 H3. unfold read.
  destruct (Z.leb_spec 0 off), (Z.leb_spec 0 len),
    (Z.leb_spec (off + len) (Z.of_nat (length m))); try lia. reflexivity.
Qed.

Lemma read_inv m off len bs :
  read m off len = Some bs ->
  0 <= off /\ 0 <= len /\ off + len <= Z.of_nat (length m) /\
  bs = take (Z.to_nat len) (drop (Z.to_nat off) m).
Proof.
  unfold read.
  destruct (Z.leb_spec 0 off), (Z.leb_spec 0 len),
    (Z.leb_spec (off + len) (Z.of_nat (length m)));
    cbn [andb]; intros Heq; inversion Heq; auto.
Qed.

Lemma read_length m off len bs :
  read m off len = Some bs -> Z.of_nat (length bs) = len.
Proof.
  intros H. apply read_inv in H as (H1 & H2 & H3 & ->).
  rewrite length_take, length_drop. lia.
Qed.

Lemma write_Some m off bs :
  0 <= off -> off + Z.of_nat (length bs) <= Z.of_nat (length m) ->
  write m off bs
  = Some (take (Z.to_nat off) m ++ bs ++ drop (Z.to_nat off + length bs) m).
Proof.
  intros H1 H2. unfold write.
  destruct (Z.leb_spec 0 off),
    (Z.leb_spec (off + Z.of_nat (length bs)) (Z.of_nat (length m)));
    try lia. reflexivity.
Qed.

Lemma write_inv m off bs m' :
  write m off bs = Some m' ->
  0 <= off /\ off + Z.of_nat (length bs) <= Z.of_nat (length m) /\
  m' = take (Z.to_nat off) m ++ bs ++ drop (Z.to_nat off + length bs) m.
Proof.
  unfold write.
  destruct (Z.leb_spec 0 off),
    (Z.leb_spec (off + Z.of_nat (length bs)) (Z.of_nat (length m)));
    cbn [andb]; intros Heq; inversion Heq; auto.
Qed.

Lemma write_length m off bs m' :
  write m off bs = Some m' -> length m' = length m.
Proof.
  intros H. apply write_inv in H as (H1 & H2 & ->).
  rewrite !length_app, length_take, length_drop. lia.
Qed.

(** The bytes of a written buffer. *)
Lemma write_lookup m off bs m' n :
  write m off bs = Some m' ->
  m' !! n =
  if decide (Z.to_nat off <= n < Z.to_nat off + length bs)%nat
  then bs !! (n - Z.to_nat off)%nat else m !! n.
Proof.
  intros H. apply write_inv in H as (H1 & H2 & ->).
  case_decide as Hn.
  - rewrite lookup_app_r by (rewrite length_take; lia).
    rewrite length_take, lookup_app_l by lia. f_equal. lia.
  - destruct (decide (n < Z.to_nat off)%nat).
    + rewrite lookup_app_l by (rewrite length_take; lia).
      now rewrite lookup_take_lt by lia.
    + rewrite lookup_app_r by (rewrite length_take; lia).
      rewrite length_take, lookup_app_r by lia.
      rewrite lookup_drop. f_equal. lia.
Qed.

Lemma agree_write lo hi m off bs m' :
  write m off bs = Some m' -> 0 <= lo ->
  hi <= off \/ off + Z.of_nat (length bs) <= lo ->
  agree lo hi m' m.
Proof.
  intros H Hlo Hout a Ha. unfold load.
  rewrite (write_lookup _ _ _ _ (Z.to_nat a) H).
  pose proof (write_inv _ _ _ _ H) as (H1 & _).
  case_decide; [lia | reflexivity].
Qed.

Lemma read_agree m m' off len :
  length m = length m' -> agree off (off + len) m m' ->
  read m off len = read m' off len.
Proof.
  intros Hlen Hag. unfold read. rewrite <- Hlen.
  destruct (Z.leb_spec 0 off), (Z.leb_spec 0 len),
    (Z.leb_spec (off + len) (Z.of_nat (length m)));
    cbn [andb]; try reflexivity.
  f_equal. apply list_eq. intros k. rewrite !lookup_take.
  case_decide; [| reflexivity]. rewrite !lookup_drop.
  specialize (Hag (off + Z.of_nat k) ltac:(lia)).
  replace (Z.to_nat off + k)%nat with (Z.to_nat (off + Z.of_nat k)) by lia.
  rewrite !load_lookup by lia. now f_equal.
Qed.

Lemma read_write m off bs m' :
  write m off bs = Some m' -> read m' off (Z.of_nat (length bs)) = Some bs.
Proof.
  intros H. pose proof (write_length _ _ _ _ H) as Hlen.
  pose proof (write_inv _ _ _ _ H) as (H1 & H2 & _).
  rewrite read_Some by lia. f_equal. apply list_eq. intros k.
  rewrite lookup_take, lookup_drop. case_decide.
  - rewrite (write_lookup _ _ _ _ _ H). case_decide; [| lia]. f_equal. lia.
  - symmetry. apply lookup_ge_None. lia.
Qed.

End MemFacts.

(** ** The slot directory: entries are six bytes apart *)

Module SlotFacts.
Import Mem MemFacts.

Ltac unfold_slot :=
  unfold get_slot, slot_empty, slot_offset, slot_length, set_slot_empty,
    set_slot_offset, set_slot_length, slot_addr, sizeof_Slot in *.

Lemma slot_offset_range d i : 0 <= slot_offset d i < 65536.
Proof. apply load_u16_range. Qed.

Lemma slot_length_range d i : 0 <= slot_length d i < 65536.
Proof. apply load_u16_range. Qed.

Lemma length_set_slot_empty d i b : length (set_slot_empty d i b) = length d.
Proof. apply length_store_bool. Qed.

Lemma length_set_slot_offset d i v : length (set_slot_offset d i v) = length d.
Proof. apply length_store_u16. Qed.

Lemma length_set_slot_length d i v : length (set_slot_length d i v) = length d.
Proof. apply length_store_u16. Qed.

(** An entry is read from its own six bytes. *)
Lemma get_slot_agree lo hi d d' i :
  agree lo hi d d' -> lo <= slot_addr i -> slot_addr i + sizeof_Slot <= hi ->
  get_slot d i = get_slot d' i.
Proof.
  intros H Hlo Hhi. unfold_slot. f_equal.
  - apply (load_bool_agree lo hi); [assumption | lia].
  - apply (load_u16_agree lo hi); [assumption | lia | lia].
  - apply (load_u16_agree lo hi); [assumption | lia | lia].
Qed.

(** The setters leave every byte outside the entry alone. *)
Lemma agree_set_slot_empty lo hi d i b :
  0 <= i -> 0 <= lo ->
  slot_addr i + sizeof_Slot <= lo \/ hi <= slot_addr i ->
  agree lo hi (set_slot_empty d i b) d.
Proof. intros ? ? ?. unfold_slot. apply agree_store_bool; lia. Qed.

Lemma agree_set_slot_offset lo hi d i v :
  0 <= i -> 0 <= lo ->
  slot_addr i + sizeof_Slot <= lo \/ hi <= slot_addr i ->
  agree lo hi (set_slot_offset d i v) d.
Proof. intros ? ? ?. unfold_slot. apply agree_store_u16; lia. Qed.

Lemma agree_set_slot_length lo hi d i v :
  0 <= i -> 0 <= lo ->
  slot_addr i + sizeof_Slot <= lo \/ hi <= slot_addr i ->
  agree lo hi (set_slot_length d i v) d.
Proof. intros ? ? ?. unfold_slot. apply agree_store_u16; lia. Qed.

(** What they do to the entry itself. *)
Lemma get_slot_set_empty d i b :
  0 <= i -> slot_addr i + sizeof_Slot <= Z.of_nat (length d) ->
  get_slot (set_slot_empty d i b) i =
  Slot.mk b (slot_offset d i) (slot_length d i).
Proof.
  intros Hi Hlen. unfold_slot. f_equal.
  - apply load_bool_store_bool. lia.
  - apply (load_u16_agree (6 * i + 2) (6 * i + 4)); [| lia | lia].
    apply agree_store_bool; lia.
  - apply (load_u16_agree (6 * i + 4) (6 * i + 6)); [| lia | lia].
    apply agree_store_bool; lia.
Qed.

Lemma get_slot_set_offset d i v :
  0 <= i -> slot_addr i + sizeof_Slot <= Z.of_nat (length d) ->
  get_slot (set_slot_offset d i v) i =
  Slot.mk (slot_empty d i) (v mod 65536) (slot_length d i).
Proof.
  intros Hi Hlen. unfold_slot. f_equal.
  - apply (load_bool_agree (6 * i) (6 * i + 1)); [| lia].
    apply agree_store_u16; lia.
  - apply load_u16_store_u16; lia.
  - apply (load_u16_agree (6 * i + 4) (6 * i + 6)); [| lia | lia].
    apply agree_store_u16; lia.
Qed.

Lemma get_slot_set_length d i v :
  0 <= i -> slot_addr i + sizeof_Slot <= Z.of_nat (length d) ->
  get_slot (set_slot_length d i v) i =
  Slot.mk (slot_empty d i) (slot_offset d i) (v mod 65536).
Proof.
  intros Hi Hlen. unfold_slot. f_equal.
  - apply (load_bool_agree (6 * i) (6 * i + 1)); [| lia].
    apply agree_store_u16; lia.
  - apply (load_u16_agree (6 * i + 2) (6 * i + 4)); [| lia | lia].
    apply agree_store_u16; lia.
  - apply load_u16_store_u16; lia.
Qed.

(** And to the other entries. *)
Lemma get_slot_set_empty_other d i j b :
  0 <= i -> 0 <= j -> i <> j ->
  get_slot (set_slot_empty d i b) j = get_slot d j.
Proof.
  intros Hi Hj Hne.
  apply (get_slot_agree (slot_addr j) (slot_addr j + sizeof_Slot));
    [| lia | lia].
  apply agree_set_slot_empty; unfold slot_addr, sizeof_Slot; lia.
Qed.

Lemma get_slot_set_offset_other d i j v :
  0 <= i -> 0 <= j -> i <> j ->
  get_slot (set_slot_offset d i v) j = get_slot d j.
Proof.
  intros Hi Hj Hne.
  apply (get_slot_agree (slot_addr j) (slot_addr j + sizeof_Slot));
    [| lia | lia].
  apply agree_set_slot_offset; unfold slot_addr, sizeof_Slot; lia.
Qed.

Lemma get_slot_set_length_other d i j v :
  0 <= i -> 0 <= j -> i <> j ->
  get_slot (set_slot_length d i v) j = get_slot d j.
Proof.
  intros Hi Hj Hne.
  apply (get_slot_agree (slot_addr j) (slot_addr j + sizeof_Slot));
    [| lia | lia].
  apply agree_set_slot_length; unfold slot_addr, sizeof_Slot; lia.
Qed.

(** Field-wise readings of an equation between entries. *)
Lemma get_slot_eq d d' i j :
  get_slot d i = get_slot d' j ->
  slot_empty d i = slot_empty d' j /\
  slot_offset d i = slot_offset d' j /\
  slot_length d i = slot_length d' j.
Proof. unfold get_slot. intros H. now inversion H. Qed.

Lemma get_slot_mk d i b o l :
  get_slot d i = Slot.mk b o l ->
  slot_empty d i = b /\ slot_offset d i = o /\ slot_length d i = l.
Proof. unfold get_slot. intros H. now inversion H. Qed.

(** A write into the data region leaves the directory alone. *)
Lemma get_slot_write d off bs d' i :
  Mem.write d off bs = Some d' ->
  0 <= i -> slot_addr i + sizeof_Slot <= off ->
  get_slot d' i = get_slot d i.
Proof.
  intros Hw Hi Hoff.
  apply (get_slot_agree (slot_addr i) (slot_addr i + sizeof_Slot));
    [| lia | lia].
  eapply agree_write; [eassumption | unfold slot_addr, sizeof_Slot; lia |].
  left. lia.
Qed.

(** Setting fields of an entry of the directory leaves the data region
    alone. *)
Lemma read_set_slot_empty d i b off len :
  0 <= i -> slot_addr i + sizeof_Slot <= off ->
  Mem.read (set_slot_empty d i b) off len = Mem.read d off len.
Proof.
  intros Hi Hoff. apply read_agree; [apply length_set_slot_empty |].
  apply agree_set_slot_empty; unfold slot_addr, sizeof_Slot in *; lia.
Qed.

Lemma read_set_slot_offset d i v off len :
  0 <= i -> slot_addr i + sizeof_Slot <= off ->
  Mem.read (set_slot_offset d i v) off len = Mem.read d off len.
Proof.
  intros Hi Hoff. apply read_agree; [apply length_set_slot_offset |].
  apply agree_set_slot_offset; unfold slot_addr, sizeof_Slot in *; lia.
Qed.

Lemma read_set_slot_length d i v off len :
  0 <= i -> slot_addr i + sizeof_Slot <= off ->
  Mem.read (set_slot_length d i v) off len = Mem.read d off len.
Proof.
  intros Hi Hoff. apply read_agree; [apply length_set_slot_length |].
  apply agree_set_slot_length; unfold slot_addr, sizeof_Slot in *; lia.
Qed.

End SlotFacts.

(** ** addTuple *)

Module AddFacts.
Import Mem MemFacts SlotFacts.

Ltac unfold_consts :=
  unfold directory_size, slot_addr in *;
  unfold sizeof_Slot, MAX_SLOTS, PAGE_SIZE, INVALID_VALUE, sizeof_int in *.

(** The search loops stop at the first empty entry. *)
Lemma find_free_seqZ d n : forall a,
  0 <= a -> a + Z.of_nat n <= MAX_SLOTS ->
  let j := find_free (seqZ a (Z.of_nat n)) d in
  (forall k, a <= k < j -> k < a + Z.of_nat n -> slot_empty d k = false) /\
  ((a <= j < a + Z.of_nat n /\ slot_empty d j = true) \/
   (j = MAX_SLOTS /\
    forall k, a <= k < a + Z.of_nat n -> slot_empty d k = false)).
Proof.
  induction n as [| n IH]; intros a Ha Hn.
  - cbn. split; [intros; lia |]. right. split; [reflexivity | intros; lia].
  - rewrite seqZ_cons by lia. cbn [find_free].
    replace (Z.pred (Z.of_nat (S n))) with (Z.of_nat n) by lia.
    destruct (slot_empty d a) eqn:Ea.
    + cbn zeta. split; [intros; lia |]. left. split; [lia | assumption].
    + specialize (IH (Z.succ a) ltac:(lia) ltac:(lia)). cbn zeta in IH |- *.
      destruct IH as [Hbefore Hj]. split.
      * intros k Hk Hk'. destruct (decide (k = a)) as [-> |]; [assumption |].
        apply Hbefore; lia.
      * destruct Hj as [[Hj He] | [Hj Hall]]; [left; split; [lia | assumption] |].
        right. split; [assumption |]. intros k Hk.
        destruct (decide (k = a)) as [-> |]; [assumption |].
        apply Hall. lia.
Qed.

Lemma first_empty_spec p :
  let j := first_empty p in
  (forall k, 0 <= k < j -> k < MAX_SLOTS ->
             slot_empty (page_data p) k = false) /\
  ((0 <= j < MAX_SLOTS /\ slot_empty (page_data p) j = true) \/
   (j = MAX_SLOTS /\
    forall k, 0 <= k < MAX_SLOTS -> slot_empty (page_data p) k = false)).
Proof.
  pose proof (find_free_seqZ (page_data p) (Z.to_nat MAX_SLOTS) 0) as H.
  replace (Z.of_nat (Z.to_nat MAX_SLOTS)) with MAX_SLOTS in H
    by (unfold MAX_SLOTS; lia).
  specialize (H ltac:(lia) ltac:(lia)). exact H.
Qed.

Lemma first_empty_full p :
  (forall k, 0 <= k < MAX_SLOTS -> slot_empty (page_data p) k = false) ->
  first_empty p = MAX_SLOTS.
Proof.
  intros Hall. destruct (first_empty_spec p) as [_ [[Hj He] | [Hj _]]];
    [| assumption].
  rewrite Hall in He by assumption. discriminate.
Qed.

Lemma addTuple_loop_find sz src p : forall idx,
  Forall (fun i => i < MAX_SLOTS) idx ->
  addTuple_loop idx sz src p =
  if find_free idx (page_data p) <? MAX_SLOTS
  then addTuple_at (find_free idx (page_data p)) sz src p
  else Some (false, p).
Proof.
  induction idx as [| i idx IH]; intros Hidx; cbn [addTuple_loop find_free].
  - rewrite Z.ltb_irrefl. reflexivity.
  - apply Forall_cons in Hidx as [Hi Hidx].
    destruct (slot_empty (page_data p) i); [| now apply IH].
    destruct (Z.ltb_spec i MAX_SLOTS); [reflexivity | lia].
Qed.

Lemma slot_indices_bound : Forall (fun i => i < MAX_SLOTS) slot_indices.
Proof.
  unfold slot_indices. apply Forall_seqZ. intros; lia.
Qed.

Lemma addTuple_find past tuple p :
  addTuple past tuple p =
  if first_empty p <? MAX_SLOTS
  then addTuple_at (first_empty p) (getSize tuple)
         (read_c_str (serialize tuple) past (getSize tuple)) p
  else Some (false, p).
Proof. unfold addTuple. apply addTuple_loop_find, slot_indices_bound. Qed.

Lemma getSize_nonneg tuple : 0 <= getSize tuple.
Proof. unfold getSize, sizeof_int. lia. Qed.

Lemma length_read_c_str s past n :
  0 <= n -> Z.of_nat (length (read_c_str s past n)) = n.
Proof.
  intros Hn. unfold read_c_str. rewrite length_map, length_seq. lia.
Qed.

Lemma insert_offset_nonneg p i : 0 <= metadata_size p -> 0 <= insert_offset p i.
Proof.
  intros Hm. unfold insert_offset. destruct (i =? 0); [assumption |].
  pose proof (slot_offset_range (page_data p) (i - 1)).
  pose proof (slot_length_range (page_data p) (i - 1)). lia.
Qed.

(** A failing insert hands the page back as it was. *)
Lemma addTuple_at_false i sz src p p' :
  addTuple_at i sz src p = Some (false, p') -> p' = p.
Proof.
  unfold addTuple_at.
  destruct (PAGE_SIZE <=? insert_offset p i + sz); [congruence |].
  destruct (write (page_data p) (insert_offset p i) src); cbn; congruence.
Qed.

(** The effect of a successful insert on the buffer. *)
Lemma addTuple_at_ok p i sz src :
  Z.of_nat (length (page_data p)) = PAGE_SIZE ->
  0 <= i < MAX_SLOTS -> directory_size <= insert_offset p i ->
  Z.of_nat (length src) = sz -> insert_offset p i + sz < PAGE_SIZE ->
  exists d',
    addTuple_at i sz src p = Some (true, mkPage d' (metadata_size p)) /\
    length d' = length (page_data p) /\
    get_slot d' i = Slot.mk false (insert_offset p i) sz /\
    (forall j, 0 <= j < MAX_SLOTS -> j <> i ->
               get_slot d' j = get_slot (page_data p) j) /\
    read d' (insert_offset p i) sz = Some src.
Proof.
  intros Hlen Hi Hdir Hsrc Hfit. unfold addTuple_at.
  destruct (Z.leb_spec PAGE_SIZE (insert_offset p i + sz)); [lia |].
  set (o := insert_offset p i) in *.
  assert (Ho : 0 <= o) by (unfold_consts; lia).
  rewrite write_Some by lia. cbn [mbind option_bind].
  set (d1 := take (Z.to_nat o) (page_data p) ++ src
             ++ drop (Z.to_nat o + length src) (page_data p)).
  assert (Hw : write (page_data p) o src = Some d1)
    by (apply write_Some; lia).
  assert (Hl1 : length d1 = length (page_data p))
    by (eapply write_length; eassumption).
  eexists. split; [reflexivity |].
  assert (Hsz : sz mod 65536 = sz) by (apply Z.mod_small; unfold_consts; lia).
  assert (Hom : o mod 65536 = o) by (apply Z.mod_small; unfold_consts; lia).
  split; [| split; [| split]].
  - now rewrite length_set_slot_length, length_set_slot_offset,
      length_set_slot_empty.
  - rewrite get_slot_set_length
      by (rewrite ?length_set_slot_offset, ?length_set_slot_empty;
          unfold_consts; lia).
    pose proof (get_slot_set_offset (set_slot_empty d1 i false) i o
      ltac:(lia)
      ltac:(rewrite length_set_slot_empty; unfold_consts; lia)) as H2.
    apply get_slot_mk in H2 as (-> & -> & _).
    pose proof (get_slot_set_empty d1 i false ltac:(lia)
      ltac:(unfold_consts; lia)) as H3.
    apply get_slot_mk in H3 as (-> & _ & _).
    now rewrite Hsz, Hom.
  - intros j Hj Hne.
    rewrite get_slot_set_length_other, get_slot_set_offset_other,
      get_slot_set_empty_other by lia.
    eapply get_slot_write; [eassumption | lia | unfold_consts; lia].
  - rewrite read_set_slot_length, read_set_slot_offset, read_set_slot_empty
      by (unfold_consts; lia).
    rewrite <- Hsrc. eapply read_write. eassumption.
Qed.

(** The insertion offset lies in the data region. *)
Lemma insert_offset_region p :
  page_inv p -> first_empty p < MAX_SLOTS ->
  directory_size <= insert_offset p (first_empty p).
Proof.
  intros (Hlen & Hmeta & Hslots) Hfree.
  destruct (first_empty_spec p) as [Hbefore [[Hj He] | [Hj _]]]; [| lia].
  unfold insert_offset. destruct (Z.eqb_spec (first_empty p) 0); [assumption |].
  specialize (Hbefore (first_empty p - 1) ltac:(lia) ltac:(lia)).
  destruct (Hslots (first_empty p - 1) ltac:(lia) Hbefore) as [Ho _].
  pose proof (slot_length_range (page_data p) (first_empty p - 1)). lia.
Qed.

(** An insert either fails and changes nothing, or takes the first empty
    slot and leaves every other entry alone. *)
Lemma addTuple_effect past tuple p b p' :
  page_inv p -> addTuple past tuple p = Some (b, p') ->
  (b = false /\ p' = p) \/
  (b = true /\ 0 <= first_empty p < MAX_SLOTS /\
   length (page_data p') = length (page_data p) /\
   metadata_size p' = metadata_size p /\
   get_slot (page_data p') (first_empty p) =
     Slot.mk false (insert_offset p (first_empty p)) (getSize tuple) /\
   insert_offset p (first_empty p) + getSize tuple < PAGE_SIZE /\
   (forall j, 0 <= j < MAX_SLOTS -> j <> first_empty p ->
              get_slot (page_data p') j = get_slot (page_data p) j)).
Proof.
  intros Hinv. rewrite addTuple_find.
  destruct (Z.ltb_spec (first_empty p) MAX_SLOTS) as [Hfree |];
    [| intros [= <- <-]; now left].
  pose proof (insert_offset_region p Hinv Hfree) as Hdir.
  destruct (first_empty_spec p) as [_ [[Hj He] | [Hj _]]]; [| lia].
  destruct Hinv as (Hlen & Hmeta & Hslots).
  unfold addTuple_at at 1.
  destruct (Z.leb_spec PAGE_SIZE
              (insert_offset p (first_empty p) + getSize tuple)) as [| Hfit];
    [intros [= <- <-]; now left |].
  pose proof (getSize_nonneg tuple) as Hsz.
  destruct (addTuple_at_ok p (first_empty p) (getSize tuple)
              (read_c_str (serialize tuple) past (getSize tuple))
              Hlen Hj Hdir (length_read_c_str _ _ _ Hsz) Hfit)
    as (d' & Heq & Hl & Hslot & Hother & _).
  unfold addTuple_at in Heq.
  destruct (Z.leb_spec PAGE_SIZE
              (insert_offset p (first_empty p) + getSize tuple)); [lia |].
  rewrite Heq. intros [= <- <-]. right. cbn [page_data metadata_size].
  repeat split; auto; lia.
Qed.

Lemma addTuple_inv past tuple p b p' :
  page_inv p -> addTuple past tuple p = Some (b, p') -> page_inv p'.
Proof.
  intros Hinv Hadd.
  destruct (addTuple_effect _ _ _ _ _ Hinv Hadd)
    as [[_ ->] | (_ & Hi & Hl & Hm & Hslot & Hfit & Hother)];
    [assumption |].
  pose proof (insert_offset_region p Hinv ltac:(lia)) as Hdir.
  destruct Hinv as (Hlen & Hmeta & Hslots).
  pose proof (getSize_nonneg tuple) as Hsz.
  split; [lia |]. split; [lia |].
  intros j Hjr Hocc.
  destruct (decide (j = first_empty p)) as [-> | Hne].
  - apply get_slot_mk in Hslot as (_ & -> & ->). lia.
  - specialize (Hother j Hjr Hne).
    apply get_slot_eq in Hother as (E1 & -> & ->).
    apply Hslots; [assumption | congruence].
Qed.

End AddFacts.

(** ** print *)

Module PrintFacts.
Import Mem MemFacts SlotFacts AddFacts.

Lemma elem_of_slot_indices i : i ∈ slot_indices <-> 0 <= i < MAX_SLOTS.
Proof. unfold slot_indices. rewrite elem_of_seqZ. lia. Qed.

Lemma print_loop_defined d : forall idx,
  Z.of_nat (length d) = PAGE_SIZE ->
  (forall i, i ∈ idx -> in_data_region d i) ->
  exists out, print_loop idx d = Some out.
Proof.
  intros idx Hlen. induction idx as [| i idx IH]; intros Hreg.
  - now exists [].
  - cbn [print_loop].
    destruct IH as [out Hout].
    { intros j Hj. apply Hreg. now right. }
    destruct (slot_empty d i) eqn:Ei; [now exists out |].
    destruct (Hreg i ltac:(left) Ei) as [Hlo Hhi].
    pose proof (slot_length_range d i).
    rewrite read_Some by (unfold_consts; lia).
    rewrite Hout. cbn. eauto.
Qed.

Lemma print_loop_elem d i bytes : forall idx out,
  print_loop idx d = Some out -> i ∈ idx ->
  slot_empty d i = false ->
  read d (slot_offset d i) (slot_length d i) = Some bytes ->
  (i, fields (deserialize bytes)) ∈ out.
Proof.
  induction idx as [| j idx IH]; intros out Hout Hi He Hr.
  - inversion Hi.
  - cbn [print_loop] in Hout.
    destruct (decide (i = j)) as [<- | Hne].
    + rewrite He, Hr in Hout. cbn in Hout.
      destruct (print_loop idx d); [| discriminate].
      injection Hout as <-. left.
    + assert (Hin : i ∈ idx) by (inversion Hi; congruence).
      destruct (slot_empty d j); [now apply IH |].
      destruct (read d (slot_offset d j) (slot_length d j));
        [| discriminate].
      cbn in Hout. destruct (print_loop idx d) as [rest |] eqn:Er;
        [| discriminate].
      injection Hout as <-. right. now apply IH.
Qed.

(** The lines depend on the listed entries and on their bytes only. *)
Lemma print_loop_ext d d' : forall idx,
  (forall i, i ∈ idx -> get_slot d i = get_slot d' i) ->
  (forall i, i ∈ idx -> slot_empty d i = false ->
     read d (slot_offset d i) (slot_length d i) =
     read d' (slot_offset d i) (slot_length d i)) ->
  print_loop idx d = print_loop idx d'.
Proof.
  induction idx as [| i idx IH]; intros Hs Hr; [reflexivity |].
  cbn [print_loop].
  destruct (get_slot_eq _ _ _ _ (Hs i ltac:(left))) as (E1 & E2 & E3).
  rewrite <- E1, <- E2, <- E3.
  rewrite (IH (fun j Hj => Hs j ltac:(now right))
              (fun j Hj => Hr j ltac:(now right))).
  destruct (slot_empty d i) eqn:Ei; [reflexivity |].
  now rewrite (Hr i ltac:(left) Ei).
Qed.

Lemma print_unfold p : print p = print_loop slot_indices (page_data p).
Proof. reflexivity. Qed.

Lemma print_defined p : page_inv p -> exists out, print p = Some out.
Proof.
  intros (Hlen & _ & Hslots). rewrite print_unfold.
  apply print_loop_defined; [assumption |].
  intros i Hi. apply Hslots. now apply elem_of_slot_indices.
Qed.

(** Reading the buffer of a string: the string first. *)
Lemma map_c_str_prefix s past :
  map (c_str s past) (seq 0 (length s)) = s.
Proof.
  apply list_eq. intros k. rewrite list_lookup_fmap.
  destruct (decide (k < length s)%nat) as [Hk | Hk].
  - rewrite lookup_seq_lt by lia. cbn. unfold c_str.
    destruct (lookup_lt_is_Some_2 s k Hk) as [c Hc]. now rewrite Hc.
  - rewrite lookup_seq_ge by lia. cbn. symmetry. apply lookup_ge_None. lia.
Qed.

Lemma read_c_str_short s past n :
  Z.of_nat (length s) <= n ->
  exists tail, read_c_str s past n = s ++ tail /\
               Stream.get_int tail = None.
Proof.
  intros Hn. unfold read_c_str.
  replace (Z.to_nat n) with (length s + (Z.to_nat n - length s))%nat by lia.
  rewrite seq_app, map_app, map_c_str_prefix. eexists. split; [reflexivity |].
  destruct (Z.to_nat n - length s)%nat as [| m]; [reflexivity |].
  cbn [seq map Nat.add]. unfold c_str at 1.
  rewrite (proj2 (lookup_ge_None s (length s))) by lia.
  rewrite Nat.eqb_refl. reflexivity.
Qed.

Lemma read_c_str_long s past n :
  0 <= n <= Z.of_nat (length s) ->
  read_c_str s past n = take (Z.to_nat n) s.
Proof.
  intros Hn. unfold read_c_str. apply list_eq. intros k.
  rewrite list_lookup_fmap, lookup_take.
  destruct (decide (k < Z.to_nat n)%nat) as [Hk | Hk].
  - rewrite lookup_seq_lt by lia. cbn. unfold c_str.
    destruct (lookup_lt_is_Some_2 s k ltac:(lia)) as [c Hc]. now rewrite Hc.
  - rewrite lookup_seq_ge by lia. reflexivity.
Qed.

Lemma deserialize_read_c_str tuple past :
  Forall in_int (fields tuple) ->
  Z.of_nat (length (serialize tuple)) <= getSize tuple ->
  fields (deserialize (read_c_str (serialize tuple) past (getSize tuple)))
  = fields tuple.
Proof.
  intros Hf Hlen.
  destruct (read_c_str_short (serialize tuple) past (getSize tuple) Hlen)
    as (tail & -> & Htail).
  unfold deserialize, serialize. cbn [fields].
  apply StreamFacts.deserialize_serialize_tail; [assumption .. | lia].
Qed.

End PrintFacts.

(** ** The fresh page *)

Module FreshFacts.
Import Mem MemFacts SlotFacts AddFacts PrintFacts.

Lemma forall_slots (b : Z -> bool) :
  forallb b slot_indices = true ->
  forall i, 0 <= i < MAX_SLOTS -> b i = true.
Proof.
  intros H i Hi. rewrite forallb_forall in H. apply H.
  apply list_elem_of_In. now apply elem_of_slot_indices.
Qed.

Lemma fresh_slot i :
  0 <= i < MAX_SLOTS ->
  get_slot (page_data SlottedPage_new) i =
  Slot.mk true INVALID_VALUE INVALID_VALUE.
Proof.
  intros Hi.
  pose proof (forall_slots
    (fun i => slot_empty (page_data SlottedPage_new) i
              && (slot_offset (page_data SlottedPage_new) i =? INVALID_VALUE)
              && (slot_length (page_data SlottedPage_new) i =? INVALID_VALUE))
    ltac:(vm_compute; reflexivity) i Hi) as H.
  cbv beta in H. apply andb_prop in H as [H H3]. apply andb_prop in H as [H1 H2].
  apply Z.eqb_eq in H2, H3. unfold get_slot. now rewrite H1, H2, H3.
Qed.

Lemma fresh_length : Z.of_nat (length (page_data SlottedPage_new)) = PAGE_SIZE.
Proof. vm_compute. reflexivity. Qed.

Lemma SlottedPage_new_inv : page_inv SlottedPage_new.
Proof.
  split; [apply fresh_length |]. split; [vm_compute; discriminate |].
  intros i Hi He. apply fresh_slot in Hi. apply get_slot_mk in Hi as (E & _).
  congruence.
Qed.

End FreshFacts.

(** C5. Insert fails (answers false) when the insertion offset plus the
    record's size exceeds [PAGE_SIZE - 1], and when all [MAX_SLOTS] entries
    are occupied; a failing insert leaves the page exactly as it was; and
    with a free entry, an insert whose record ends at or before
    [PAGE_SIZE - 1] - in particular one that fills the space up to
    [PAGE_SIZE - 1] exactly - succeeds. *)
Theorem C5_insert_failure (past : nat -> ascii) (tuple : Tuple)
    (p : SlottedPage) :
  Z.of_nat (length (page_data p)) = PAGE_SIZE -> 0 <= metadata_size p ->
  (first_empty p < MAX_SLOTS ->
   PAGE_SIZE - 1 < insert_offset p (first_empty p) + getSize tuple ->
   addTuple past tuple p = Some (false, p)) /\
  ((forall k, 0 <= k < MAX_SLOTS -> slot_empty (page_data p) k = false) ->
   addTuple past tuple p = Some (false, p)) /\
  (forall p', addTuple past tuple p = Some (false, p') -> p' = p) /\
  (first_empty p < MAX_SLOTS ->
   insert_offset p (first_empty p) + getSize tuple <= PAGE_SIZE - 1 ->
   exists p', addTuple past tuple p = Some (true, p')).
Proof.
  intros Hlen Hmeta. rewrite AddFacts.addTuple_find.
  split; [| split; [| split]].
  - intros Hfree Hbig.
    destruct (Z.ltb_spec (first_empty p) MAX_SLOTS); [| lia].
    unfold addTuple_at.
    destruct (Z.leb_spec PAGE_SIZE
                (insert_offset p (first_empty p) + getSize tuple)); [| lia].
    reflexivity.
  - intros Hfull. rewrite (AddFacts.first_empty_full p Hfull).
    rewrite Z.ltb_irrefl. reflexivity.
  - intros p'. destruct (first_empty p <? MAX_SLOTS).
    + apply AddFacts.addTuple_at_false.
    + congruence.
  - intros Hfree Hfit.
    destruct (Z.ltb_spec (first_empty p) MAX_SLOTS); [| lia].
    unfold addTuple_at.
    destruct (Z.leb_spec PAGE_SIZE
                (insert_offset p (first_empty p) + getSize tuple)); [lia |].
    pose proof (AddFacts.insert_offset_nonneg p (first_empty p) Hmeta).
    pose proof (AddFacts.getSize_nonneg tuple) as Hsz.
    rewrite MemFacts.write_Some
      by (rewrite ?AddFacts.length_read_c_str; lia).
    cbn. eauto.
Qed.

(** ** The full page *)

Module FillFacts.
Import Mem MemFacts SlotFacts AddFacts FreshFacts.

Lemma fill_facts n :
  (n <= 512)%nat ->
  Z.of_nat (length (page_data (fill n))) = PAGE_SIZE /\
  metadata_size (fill n) = directory_size /\
  (forall k, 0 <= k < Z.of_nat n ->
     get_slot (page_data (fill n)) k = Slot.mk false directory_size 0) /\
  (forall k, Z.of_nat n <= k < MAX_SLOTS ->
     get_slot (page_data (fill n)) k = Slot.mk true INVALID_VALUE INVALID_VALUE).
Proof.
  induction n as [| n IH]; intros Hn.
  - split; [apply fresh_length |]. split; [reflexivity |].
    split; [intros; lia |]. intros k Hk. now apply fresh_slot.
  - destruct (IH ltac:(lia)) as (Hlen & Hmeta & Hocc & Hfree).
    cbn [fill page_data metadata_size]. unfold occupy_empty.
    set (d := page_data (fill n)) in *. set (i := Z.of_nat n) in *.
    assert (Hi : 0 <= i < MAX_SLOTS) by (unfold MAX_SLOTS; lia).
    assert (Hself : get_slot
      (set_slot_length
         (set_slot_offset (set_slot_empty d i false) i directory_size) i 0) i
      = Slot.mk false directory_size 0).
    { rewrite get_slot_set_length
        by (rewrite ?length_set_slot_offset, ?length_set_slot_empty;
            unfold_consts; lia).
      pose proof (get_slot_set_offset (set_slot_empty d i false) i
        directory_size ltac:(lia)
        ltac:(rewrite length_set_slot_empty; unfold_consts; lia)) as H2.
      apply get_slot_mk in H2 as (-> & -> & _).
      pose proof (get_slot_set_empty d i false ltac:(lia)
        ltac:(unfold_consts; lia)) as H3.
      apply get_slot_mk in H3 as (-> & _ & _). reflexivity. }
    assert (Hother : forall k, 0 <= k -> k <> i ->
      get_slot
        (set_slot_length
           (set_slot_offset (set_slot_empty d i false) i directory_size) i 0) k
      = get_slot d k).
    { intros k Hk Hne.
      now rewrite get_slot_set_length_other, get_slot_set_offset_other,
        get_slot_set_empty_other by lia. }
    split.
    { now rewrite length_set_slot_length, length_set_slot_offset,
        length_set_slot_empty. }
    split; [reflexivity |]. split.
    + intros k Hk. destruct (decide (k = i)) as [-> | Hne]; [exact Hself |].
      rewrite Hother by lia. apply Hocc. lia.
    + intros k Hk. rewrite Hother by lia. apply Hfree. lia.
Qed.

Lemma fill_first_empty n :
  (n < 512)%nat -> first_empty (fill n) = Z.of_nat n.
Proof.
  intros Hn. destruct (fill_facts n ltac:(lia)) as (_ & _ & Hocc & Hfree).
  assert (Hn' : Z.of_nat n < MAX_SLOTS) by (unfold MAX_SLOTS; lia).
  pose proof (Hfree (Z.of_nat n) ltac:(lia)) as Hslot.
  apply get_slot_mk in Hslot as (He & _).
  destruct (first_empty_spec (fill n)) as [Hbefore [[Hj Hje] | [Hj Hall]]].
  - destruct (Z.lt_trichotomy (first_empty (fill n)) (Z.of_nat n))
      as [Hlt | [Heq | Hgt]]; [| exact Heq |].
    + pose proof (Hocc (first_empty (fill n)) ltac:(lia)) as H.
      apply get_slot_mk in H as (H & _). congruence.
    + specialize (Hbefore (Z.of_nat n) ltac:(lia) Hn'). congruence.
  - specialize (Hall (Z.of_nat n) ltac:(lia)). congruence.
Qed.

Lemma fill_insert n :
  (n < 512)%nat ->
  addTuple zeros (mkTuple []) (fill n) = Some (true, fill (S n)).
Proof.
  intros Hn. destruct (fill_facts n ltac:(lia)) as (Hlen & Hmeta & Hocc & _).
  rewrite addTuple_find, (fill_first_empty n Hn).
  destruct (Z.ltb_spec (Z.of_nat n) MAX_SLOTS) as [_ |];
    [| unfold MAX_SLOTS in *; lia].
  assert (Hoff : insert_offset (fill n) (Z.of_nat n) = directory_size).
  { unfold insert_offset. destruct (Z.eqb_spec (Z.of_nat n) 0); [exact Hmeta |].
    pose proof (Hocc (Z.of_nat n - 1) ltac:(lia)) as H.
    apply get_slot_mk in H as (_ & -> & ->). lia. }
  unfold addTuple_at. rewrite Hoff.
  change (getSize (mkTuple [])) with 0.
  change (read_c_str (serialize (mkTuple [])) zeros 0) with (@nil ascii).
  change (PAGE_SIZE <=? directory_size + 0) with false. cbv iota.
  rewrite write_Some by (cbn [length]; unfold_consts; lia).
  cbn [mbind option_bind length app]. rewrite Nat.add_0_r, take_drop, Hmeta.
  reflexivity.
Qed.

Lemma fill_reached n : forall k,
  (k + n <= 512)%nat ->
  do_calls (replicate n (Insert (mkTuple []) zeros)) (fill k)
  = Some (fill (k + n)).
Proof.
  induction n as [| n IH]; intros k Hk.
  - cbn [replicate do_calls]. now rewrite Nat.add_0_r.
  - cbn [replicate do_calls do_call].
    rewrite fill_insert by lia. cbn [fmap option_fmap option_map snd mbind option_bind].
    rewrite IH by lia. f_equal. f_equal. lia.
Qed.

End FillFacts.

Lemma full_page_fill : full_page = fill 512.
Proof. vm_compute. reflexivity. Qed.

Lemma full_page_reached : do_calls full_page_calls SlottedPage_new = Some full_page.
Proof.
  rewrite full_page_fill. exact (FillFacts.fill_reached 512 0 ltac:(lia)).
Qed.

Lemma full_page_full k :
  0 <= k < MAX_SLOTS -> slot_empty (page_data full_page) k = false.
Proof.
  intros Hk.
  pose proof (FreshFacts.forall_slots
    (fun i => negb (slot_empty (page_data full_page) i))
    ltac:(vm_compute; reflexivity) k Hk) as H.
  cbv beta in H. now apply negb_true_iff in H.
Qed.

Lemma C5_witness :
  addTuple zeros (mkTuple (replicate 256 7)) SlottedPage_new
    = Some (false, SlottedPage_new) /\
  addTuple zeros (mkTuple [7]) full_page = Some (false, full_page) /\
  exists p', addTuple zeros (mkTuple (replicate 255 7))
               (mkPage (page_data SlottedPage_new) 3075) = Some (true, p').
Proof.
  split; [| split].
  - destruct (C5_insert_failure zeros (mkTuple (replicate 256 7))
                SlottedPage_new) as (Ha & _);
      [vm_compute; reflexivity | vm_compute; discriminate |].
    apply Ha; vm_compute; reflexivity.
  - destruct (C5_insert_failure zeros (mkTuple [7]) full_page)
      as (_ & Hb & _);
      [vm_compute; reflexivity | vm_compute; discriminate |].
    apply Hb, full_page_full.
  - destruct (C5_insert_failure zeros (mkTuple (replicate 255 7))
                (mkPage (page_data SlottedPage_new) 3075))
      as (_ & _ & _ & Hd);
      [vm_compute; reflexivity | vm_compute; discriminate |].
    apply Hd; vm_compute; [reflexivity | discriminate].
Defined.

(** C10. Insert stores exactly field_count x 4 bytes, taken from the start
    of the buffer of the record's textual serialisation, whatever the
    length of the text: all of it followed by the terminator and the bytes
    behind it when the text is shorter, its first field_count x 4 bytes when
    it is longer.  Hence for every record whose text has at most
    field_count x 4 bytes, the page printed after the insert shows, for the
    slot taken, the field values of the record. *)
Theorem C10_insert_then_print (past : nat -> ascii) (tuple : Tuple)
    (p p' : SlottedPage) :
  page_inv p -> addTuple past tuple p = Some (true, p') ->
  let i := first_empty p in
  let stored := Mem.read_c_str (serialize tuple) past (getSize tuple) in
  get_slot (page_data p') i = Slot.mk false (insert_offset p i) (getSize tuple) /\
  Mem.read (page_data p') (insert_offset p i) (getSize tuple) = Some stored /\
  Z.of_nat (length stored) = 4 * Z.of_nat (length (fields tuple)) /\
  (getSize tuple <= Z.of_nat (length (serialize tuple)) ->
   stored = take (Z.to_nat (getSize tuple)) (serialize tuple)) /\
  (Forall in_int (fields tuple) ->
   Z.of_nat (length (serialize tuple)) <= getSize tuple ->
   exists out, print p' = Some out /\ (i, fields tuple) ∈ out).
Proof.
  intros Hinv Hadd. cbv zeta.
  pose proof (AddFacts.addTuple_inv _ _ _ _ _ Hinv Hadd) as Hinv'.
  pose proof (AddFacts.getSize_nonneg tuple) as Hsz.
  rewrite AddFacts.addTuple_find in Hadd.
  pose proof (AddFacts.insert_offset_region p Hinv) as Hdir.
  pose proof (AddFacts.first_empty_spec p) as Hspec. cbv zeta in Hspec.
  pose proof (AddFacts.length_read_c_str (serialize tuple) past _ Hsz) as Hlsrc.
  pose proof (PrintFacts.read_c_str_long (serialize tuple) past (getSize tuple))
    as Hlong.
  pose proof (PrintFacts.deserialize_read_c_str tuple past) as Hdes.
  revert Hadd Hdir Hspec Hlsrc Hlong Hdes.
  generalize (Mem.read_c_str (serialize tuple) past (getSize tuple)).
  generalize (first_empty p).
  intros i stored Hadd Hdir Hspec Hlsrc Hlong Hdes.
  destruct (Z.ltb_spec i MAX_SLOTS) as [Hfree |]; [| discriminate].
  specialize (Hdir Hfree).
  destruct Hspec as [_ [[Hi He] | [Hi _]]]; [| lia].
  assert (Hfit : insert_offset p i + getSize tuple < PAGE_SIZE).
  { unfold addTuple_at in Hadd.
    destruct (Z.leb_spec PAGE_SIZE (insert_offset p i + getSize tuple));
      [discriminate | assumption]. }
  destruct Hinv as (Hlen & Hmeta & Hslots).
  destruct (AddFacts.addTuple_at_ok p i (getSize tuple) stored Hlen Hi Hdir
              Hlsrc Hfit)
    as (d' & Heq & Hl & Hslot & _ & Hread).
  rewrite Heq in Hadd. injection Hadd as <-.
  cbn [page_data].
  split; [exact Hslot |]. split; [exact Hread |].
  split; [exact Hlsrc |].
  split; [intros Hge; apply Hlong; lia |].
  intros Hf Hshort.
  destruct (PrintFacts.print_defined _ Hinv') as [out Hout].
  exists out. split; [exact Hout |].
  rewrite <- (Hdes Hf Hshort).
  apply SlotFacts.get_slot_mk in Hslot as (E1 & E2 & E3).
  rewrite PrintFacts.print_unfold in Hout.
  apply (PrintFacts.print_loop_elem _ i stored slot_indices out Hout).
  - now apply PrintFacts.elem_of_slot_indices.
  - exact E1.
  - cbn [page_data]. rewrite E2, E3. exact Hread.
Qed.

Lemma C10_witness :
  let past := fun _ : nat => "7"%char in
  let tuple := mkTuple [5] in
  exists p', addTuple past tuple SlottedPage_new = Some (true, p') /\
    Mem.read (page_data p')
      (insert_offset SlottedPage_new (first_empty SlottedPage_new))
      (getSize tuple)
    = Some (Mem.read_c_str (serialize tuple) past (getSize tuple)) /\
    exists out, print p' = Some out /\
                (first_empty SlottedPage_new, fields tuple) ∈ out.
Proof.
  intros past tuple.
  assert (Hok : fst <$> addTuple past tuple SlottedPage_new = Some true)
    by (vm_compute; reflexivity).
  destruct (addTuple past tuple SlottedPage_new) as [[b p'] |] eqn:Hadd;
    [| discriminate].
  injection Hok as ->.
  exists p'. split; [reflexivity |].
  destruct (C10_insert_then_print _ _ _ _ FreshFacts.SlottedPage_new_inv Hadd)
    as (_ & Hread & _ & _ & Hprint).
  split; [exact Hread |].
  apply Hprint.
  - repeat constructor; unfold in_int, INT_MIN, INT_MAX; lia.
  - vm_compute. discriminate.
Defined.

(** ** compactPage *)

Module CompactFacts.
Import Mem MemFacts SlotFacts AddFacts PrintFacts.

Lemma compactPage_unfold p :
  compactPage p =
  d ← compact_loop slot_indices (metadata_size p) (page_data p);
  Some (mkPage d (metadata_size p)).
Proof. reflexivity. Qed.

Lemma slot_indices_range : Forall (fun i => 0 <= i < MAX_SLOTS) slot_indices.
Proof. unfold slot_indices. apply Forall_seqZ. intros; lia. Qed.

(** One slot moved to [new_offset]. *)
Lemma compact_slot_spec d i new_offset d1 :
  Z.of_nat (length d) = PAGE_SIZE -> 0 <= i < MAX_SLOTS ->
  directory_size <= new_offset -> in_data_region d i ->
  slot_empty d i = false ->
  compact_slot i new_offset d = Some d1 ->
  length d1 = length d /\
  (forall j, 0 <= j < MAX_SLOTS -> j <> i -> get_slot d1 j = get_slot d j) /\
  get_slot d1 i = Slot.mk false new_offset (slot_length d i) /\
  new_offset + slot_length d i <= PAGE_SIZE /\
  read d1 new_offset (slot_length d i)
    = read d (slot_offset d i) (slot_length d i) /\
  agree directory_size new_offset d1 d /\
  agree (new_offset + slot_length d i) PAGE_SIZE d1 d.
Proof.
  intros Hlen Hi Hdir Hreg He. unfold compact_slot.
  destruct (Hreg He) as [Hlo Hhi].
  destruct (Z.eqb_spec (slot_offset d i) new_offset) as [Heq | Hne].
  - intros [= <-]. subst new_offset.
    repeat split; auto using agree_refl. unfold get_slot. now rewrite He.
  - destruct (read d (slot_offset d i) (slot_length d i)) as [bs |] eqn:Hr;
      [| discriminate].
    cbn [mbind option_bind].
    destruct (write d new_offset bs) as [dw |] eqn:Hw; [| discriminate].
    cbn [mbind option_bind]. intros [= <-].
    pose proof (read_length _ _ _ _ Hr) as Hbl.
    pose proof (write_length _ _ _ _ Hw) as Hwl.
    pose proof (write_inv _ _ _ _ Hw) as (Hn0 & Hfit & _).
    assert (Hdw : forall j, 0 <= j < MAX_SLOTS -> get_slot dw j = get_slot d j).
    { intros j Hj. eapply get_slot_write; [eassumption | lia |].
      unfold_consts; lia. }
    split; [now rewrite length_set_slot_offset |].
    split.
    { intros j Hj Hji. rewrite get_slot_set_offset_other by lia.
      now apply Hdw. }
    split.
    { rewrite get_slot_set_offset by (unfold_consts; lia).
      destruct (get_slot_eq _ _ _ _ (Hdw i Hi)) as (-> & _ & ->).
      rewrite He, Z.mod_small by (unfold_consts; lia). reflexivity. }
    split; [lia |].
    split.
    { rewrite read_set_slot_offset by (unfold_consts; lia).
      rewrite <- Hbl. eapply read_write. eassumption. }
    split.
    + eapply agree_trans.
      * apply agree_set_slot_offset; unfold_consts; lia.
      * eapply agree_write; [eassumption | unfold_consts; lia | lia].
    + eapply agree_trans.
      * apply agree_set_slot_offset; unfold_consts; lia.
      * eapply agree_write; [eassumption | unfold_consts; lia | lia].
Qed.

Lemma compact_slot_defined d i new_offset :
  Z.of_nat (length d) = PAGE_SIZE ->
  0 <= new_offset <= slot_offset d i ->
  slot_offset d i + slot_length d i <= PAGE_SIZE ->
  exists d1, compact_slot i new_offset d = Some d1.
Proof.
  intros Hlen Hnew Hhi. unfold compact_slot.
  destruct (slot_offset d i =? new_offset); [eauto |].
  pose proof (slot_length_range d i).
  rewrite read_Some by lia. cbn [mbind option_bind].
  rewrite write_Some by (rewrite ?length_take, ?length_drop; lia).
  cbn. eauto.
Qed.

(** What one pass keeps: sizes, flags, lengths, the entries of empty
    slots, and every occupied slot inside the data region. *)
Lemma compact_loop_inv : forall idx new_offset d d',
  Z.of_nat (length d) = PAGE_SIZE ->
  Forall (fun i => 0 <= i < MAX_SLOTS) idx ->
  directory_size <= new_offset ->
  (forall j, 0 <= j < MAX_SLOTS -> in_data_region d j) ->
  compact_loop idx new_offset d = Some d' ->
  length d' = length d /\
  (forall j, 0 <= j < MAX_SLOTS -> in_data_region d' j) /\
  (forall j, 0 <= j < MAX_SLOTS ->
     slot_empty d' j = slot_empty d j /\
     slot_length d' j = slot_length d j /\
     (slot_empty d j = true -> slot_offset d' j = slot_offset d j)).
Proof.
  induction idx as [| i idx IH]; intros new_offset d d' Hlen Hidx Hdir Hreg.
  - intros [= <-]. auto.
  - apply Forall_cons in Hidx as [Hi Hidx]. cbn [compact_loop].
    destruct (slot_empty d i) eqn:He; [now apply IH |].
    destruct (compact_slot i new_offset d) as [d1 |] eqn:Hs; [| discriminate].
    cbn [mbind option_bind]. intros Hloop.
    destruct (compact_slot_spec d i new_offset d1 Hlen Hi Hdir (Hreg i Hi)
                He Hs) as (Hl1 & Hother & Hself & Hfit & _).
    pose proof (slot_length_range d i) as Hlr.
    assert (Hreg1 : forall j, 0 <= j < MAX_SLOTS -> in_data_region d1 j).
    { intros j Hj. destruct (decide (j = i)) as [-> | Hne].
      - apply get_slot_mk in Hself as (_ & E2 & E3). intros _.
        rewrite E2, E3. lia.
      - destruct (get_slot_eq _ _ _ _ (Hother j Hj Hne)) as (E1 & E2 & E3).
        unfold in_data_region. rewrite E1, E2, E3. now apply Hreg. }
    destruct (IH (new_offset + slot_length d i) d1 d' ltac:(lia) Hidx
                ltac:(lia) Hreg1 Hloop)
      as (Hl' & Hreg' & Hkeep).
    split; [lia |]. split; [assumption |].
    intros j Hj. destruct (Hkeep j Hj) as (K1 & K2 & K3).
    destruct (decide (j = i)) as [-> | Hne].
    + apply get_slot_mk in Hself as (E1 & E2 & E3).
      rewrite K1, K2, E1, E3, He. repeat split; congruence.
    + destruct (get_slot_eq _ _ _ _ (Hother j Hj Hne)) as (E1 & E2 & E3).
      rewrite K1, K2, E1, E3. repeat split. intros Hej.
      rewrite K3 by congruence. exact E2.
Qed.

(** The ordered layout. *)
Lemma ordered_from_bound d : forall idx lo,
  ordered_from idx lo d -> lo <= PAGE_SIZE.
Proof.
  induction idx as [| i idx IH]; intros lo; cbn [ordered_from]; [auto |].
  destruct (slot_empty d i); [apply IH |]. intros [Hlo Hrest].
  apply IH in Hrest. pose proof (slot_length_range d i). lia.
Qed.

Lemma ordered_from_mono d : forall idx lo lo',
  lo' <= lo -> ordered_from idx lo d -> ordered_from idx lo' d.
Proof.
  induction idx as [| i idx IH]; intros lo lo' Hle; cbn [ordered_from];
    [lia |].
  destruct (slot_empty d i); [now apply IH |]. intros [Hlo Hrest].
  split; [lia | assumption].
Qed.

Lemma ordered_from_slot d j : forall idx lo,
  ordered_from idx lo d -> j ∈ idx -> slot_empty d j = false ->
  lo <= slot_offset d j /\ slot_offset d j + slot_length d j <= PAGE_SIZE.
Proof.
  induction idx as [| i idx IH]; intros lo Hord Hj He; [inversion Hj |].
  cbn [ordered_from] in Hord.
  destruct (decide (j = i)) as [-> | Hne].
  - rewrite He in Hord. destruct Hord as [Hlo Hrest].
    apply ordered_from_bound in Hrest. auto.
  - assert (Hin : j ∈ idx) by (inversion Hj; congruence).
    destruct (slot_empty d i); [now apply IH |].
    destruct Hord as [Hlo Hrest].
    destruct (IH _ Hrest Hin He) as [H1 H2].
    pose proof (slot_length_range d i). lia.
Qed.

Lemma ordered_from_ext d d' : forall idx lo,
  (forall j, j ∈ idx -> get_slot d' j = get_slot d j) ->
  ordered_from idx lo d -> ordered_from idx lo d'.
Proof.
  induction idx as [| i idx IH]; intros lo Hs; cbn [ordered_from]; [auto |].
  destruct (get_slot_eq _ _ _ _ (Hs i ltac:(left))) as (-> & -> & ->).
  assert (Hs' : forall j, j ∈ idx -> get_slot d' j = get_slot d j)
    by (intros j Hj; apply Hs; now right).
  destruct (slot_empty d i); [now apply IH |].
  intros [Hlo Hrest]. split; [assumption | now apply IH].
Qed.

Lemma ordered_layout_inv p : ordered_layout p -> page_inv p.
Proof.
  intros (Hlen & Hmeta & Hord). split; [assumption |].
  split; [assumption |]. intros j Hj He.
  destruct (ordered_from_slot _ j _ _ Hord
              (proj2 (elem_of_slot_indices j) Hj) He). lia.
Qed.

End CompactFacts.

Module OrderedFacts.
Import Mem MemFacts SlotFacts AddFacts PrintFacts CompactFacts.

(** On an ordered layout the pass is defined and every slot shows the
    bytes it showed before. *)
Lemma compact_loop_ordered : forall idx new_offset d,
  Z.of_nat (length d) = PAGE_SIZE ->
  Forall (fun i => 0 <= i < MAX_SLOTS) idx -> NoDup idx ->
  directory_size <= new_offset ->
  ordered_from idx new_offset d ->
  exists d',
    compact_loop idx new_offset d = Some d' /\
    length d' = length d /\
    print_loop idx d' = print_loop idx d /\
    (forall j, 0 <= j < MAX_SLOTS -> j ∉ idx -> get_slot d' j = get_slot d j) /\
    agree directory_size new_offset d' d.
Proof.
  induction idx as [| i idx IH]; intros new_offset d Hlen Hidx Hnd Hdir Hord.
  - exists d. repeat split; auto using agree_refl.
  - apply Forall_cons in Hidx as [Hi Hidx].
    apply NoDup_cons in Hnd as [Hni Hnd].
    cbn [compact_loop ordered_from] in *.
    destruct (slot_empty d i) eqn:He.
    + destruct (IH new_offset d Hlen Hidx Hnd Hdir Hord)
        as (d' & Hloop & Hl' & Hprint & Hout & Hag).
      exists d'. split; [assumption |]. split; [assumption |].
      split.
      { cbn [print_loop].
        destruct (get_slot_eq _ _ _ _ (Hout i Hi Hni)) as (-> & _).
        now rewrite He. }
      split; [| assumption].
      intros j Hj Hnj. apply Hout; [assumption |].
      intros Hin. apply Hnj. now right.
    + destruct Hord as [Hlo Hord].
      pose proof (ordered_from_bound _ _ _ Hord) as Hhi.
      pose proof (slot_length_range d i) as Hlr.
      destruct (compact_slot_defined d i new_offset Hlen
                  ltac:(unfold_consts; lia) Hhi) as [d1 Hs].
      rewrite Hs. cbn [mbind option_bind].
      assert (Hreg : in_data_region d i) by (intros _; lia).
      destruct (compact_slot_spec d i new_offset d1 Hlen Hi Hdir Hreg He Hs)
        as (Hl1 & Hother & Hself & Hfit & Hread & Hag1 & Hag2).
      assert (Hsame : forall j, j ∈ idx -> get_slot d1 j = get_slot d j).
      { intros j Hj. apply Hother.
        - rewrite Forall_forall in Hidx. now apply Hidx.
        - intros ->. contradiction. }
      assert (Hord1 : ordered_from idx (new_offset + slot_length d i) d1).
      { apply (ordered_from_ext d d1); [assumption |].
        eapply ordered_from_mono; [| eassumption]. lia. }
      destruct (IH (new_offset + slot_length d i) d1 ltac:(lia) Hidx Hnd
                  ltac:(lia) Hord1)
        as (d' & Hloop & Hl' & Hprint & Hout & Hag).
      exists d'. split; [assumption |]. split; [lia |].
      split.
      { cbn [print_loop]. rewrite He.
        destruct (get_slot_eq _ _ _ _ (Hout i Hi Hni)) as (-> & -> & ->).
        apply get_slot_mk in Hself as (-> & -> & ->).
        rewrite (read_agree d' d1) by
          (first [lia | eapply agree_sub; [exact Hag | lia | lia]]).
        rewrite Hread, Hprint.
        rewrite (print_loop_ext d1 d idx Hsame); [reflexivity |].
        intros j Hj Hej.
        destruct (get_slot_eq _ _ _ _ (Hsame j Hj)) as (E1 & E2 & E3).
        rewrite E2, E3.
        destruct (ordered_from_slot d j _ _ Hord Hj ltac:(congruence))
          as [Hjlo Hjhi].
        apply read_agree; [assumption |].
        eapply agree_sub; [exact Hag2 | lia | lia]. }
      split.
      * intros j Hj Hnj.
        rewrite Hout by (try assumption; intros Hin; apply Hnj; now right).
        apply Hother; [assumption |]. intros ->. apply Hnj. left.
      * eapply agree_trans.
        -- eapply agree_sub; [exact Hag | lia | lia].
        -- exact Hag1.
Qed.

End OrderedFacts.

(** X27. For every page whose occupied slots lie in the data region in
    directory order without overlap, [compactPage] is defined, leaves every
    slot's occupied flag and length as they were, leaves [metadata_size] as
    it was, and the page prints the same lines - the same slot indices with
    the same field values - before and after. *)
Theorem X27_compact_ordered (p : SlottedPage) :
  ordered_layout p ->
  exists p' out,
    compactPage p = Some p' /\
    print p = Some out /\ print p' = Some out /\
    metadata_size p' = metadata_size p /\
    forall i, 0 <= i < MAX_SLOTS ->
      slot_empty (page_data p') i = slot_empty (page_data p) i /\
      slot_length (page_data p') i = slot_length (page_data p) i.
Proof.
  intros Hord. pose proof (CompactFacts.ordered_layout_inv p Hord) as Hinv.
  destruct Hord as (Hlen & Hmeta & Hord).
  destruct (OrderedFacts.compact_loop_ordered slot_indices (metadata_size p)
              (page_data p) Hlen CompactFacts.slot_indices_range
              (NoDup_seqZ _ _) Hmeta Hord)
    as (d' & Hloop & Hl' & Hprint & _).
  destruct (PrintFacts.print_defined p Hinv) as [out Hout].
  exists (mkPage d' (metadata_size p)), out.
  rewrite CompactFacts.compactPage_unfold, Hloop.
  split; [reflexivity |]. split; [assumption |].
  split; [rewrite PrintFacts.print_unfold in *; cbn [page_data]; congruence |].
  split; [reflexivity |].
  destruct Hinv as (_ & _ & Hreg).
  destruct (CompactFacts.compact_loop_inv _ _ _ _ Hlen
              CompactFacts.slot_indices_range Hmeta Hreg Hloop)
    as (_ & _ & Hkeep).
  intros i Hi. destruct (Hkeep i Hi) as (K1 & K2 & _). cbn [page_data]. auto.
Qed.

(** ** Sequences of calls on one page *)

Module CallFacts.
Import Mem MemFacts SlotFacts AddFacts PrintFacts CompactFacts.

(** [deleteTuple] writes the flag and nothing else. *)
Lemma deleteTuple_fields index p j :
  0 <= j ->
  slot_offset (page_data (deleteTuple index p)) j = slot_offset (page_data p) j /\
  slot_length (page_data (deleteTuple index p)) j = slot_length (page_data p) j.
Proof.
  intros Hj. unfold deleteTuple.
  destruct ((Z.of_N index <? MAX_SLOTS)
            && negb (slot_empty (page_data p) (Z.of_N index))); [| auto].
  cbn [page_data]. unfold_slot. split.
  - apply (load_u16_agree (6 * j + 2) (6 * j + 4)); [| lia | lia].
    apply agree_store_bool; lia.
  - apply (load_u16_agree (6 * j + 4) (6 * j + 6)); [| lia | lia].
    apply agree_store_bool; lia.
Qed.

Lemma deleteTuple_flag index p j :
  0 <= j -> Z.of_nat (length (page_data p)) = PAGE_SIZE ->
  slot_empty (page_data (deleteTuple index p)) j =
  if (j =? Z.of_N index) && (j <? MAX_SLOTS) then true
  else slot_empty (page_data p) j.
Proof.
  intros Hj Hlen. unfold deleteTuple.
  destruct (Z.eqb_spec j (Z.of_N index)) as [<- | Hne]; cbn [andb].
  - destruct (Z.ltb_spec j MAX_SLOTS) as [Hlt |]; cbn [andb]; [| reflexivity].
    destruct (slot_empty (page_data p) j) eqn:He; cbn [negb page_data];
      [assumption |].
    pose proof (get_slot_set_empty (page_data p) j true Hj
                  ltac:(unfold_consts; lia)) as H.
    now apply get_slot_mk in H as (-> & _).
  - destruct ((Z.of_N index <? MAX_SLOTS)
              && negb (slot_empty (page_data p) (Z.of_N index)));
      [| reflexivity].
    cbn [page_data].
    pose proof (get_slot_set_empty_other (page_data p) (Z.of_N index) j true
                  ltac:(lia) Hj ltac:(lia)) as H.
    now apply get_slot_eq in H as (-> & _).
Qed.

Lemma deleteTuple_length index p :
  length (page_data (deleteTuple index p)) = length (page_data p).
Proof.
  unfold deleteTuple.
  destruct ((Z.of_N index <? MAX_SLOTS)
            && negb (slot_empty (page_data p) (Z.of_N index))); [| auto].
  apply length_set_slot_empty.
Qed.

Lemma deleteTuple_meta index p :
  metadata_size (deleteTuple index p) = metadata_size p.
Proof.
  unfold deleteTuple.
  destruct ((Z.of_N index <? MAX_SLOTS)
            && negb (slot_empty (page_data p) (Z.of_N index))); auto.
Qed.

Lemma deleteTuple_inv index p : page_inv p -> page_inv (deleteTuple index p).
Proof.
  intros (Hlen & Hmeta & Hslots).
  split; [rewrite deleteTuple_length; assumption |].
  split; [rewrite deleteTuple_meta; assumption |].
  intros j Hj. unfold in_data_region.
  destruct (deleteTuple_fields index p j ltac:(lia)) as [-> ->].
  rewrite deleteTuple_flag by (assumption || lia).
  destruct ((j =? Z.of_N index) && (j <? MAX_SLOTS)); [discriminate |].
  now apply Hslots.
Qed.

Lemma compactPage_inv p p' :
  page_inv p -> compactPage p = Some p' -> page_inv p'.
Proof.
  intros (Hlen & Hmeta & Hslots). rewrite compactPage_unfold.
  destruct (compact_loop slot_indices (metadata_size p) (page_data p))
    as [d' |] eqn:Hloop; [| discriminate].
  intros [= <-].
  destruct (compact_loop_inv _ _ _ _ Hlen slot_indices_range Hmeta Hslots
              Hloop) as (Hl' & Hreg' & _).
  split; [cbn [page_data]; lia |]. split; assumption.
Qed.

Lemma do_call_inv c p p' : page_inv p -> do_call c p = Some p' -> page_inv p'.
Proof.
  intros Hinv. destruct c as [tuple past | index |]; cbn [do_call].
  - destruct (addTuple past tuple p) as [[b q] |] eqn:Hadd; [| discriminate].
    intros [= <-]. eapply addTuple_inv; eassumption.
  - intros [= <-]. now apply deleteTuple_inv.
  - now apply compactPage_inv.
Qed.

Lemma do_calls_inv cs : forall p p',
  page_inv p -> do_calls cs p = Some p' -> page_inv p'.
Proof.
  induction cs as [| c cs IH]; intros p p' Hinv; cbn [do_calls].
  - now intros [= <-].
  - destruct (do_call c p) as [q |] eqn:Hc; [| discriminate].
    cbn [mbind option_bind]. apply IH. eapply do_call_inv; eassumption.
Qed.

Lemma do_calls_app cs1 cs2 p :
  do_calls (cs1 ++ cs2) p = p1 ← do_calls cs1 p; do_calls cs2 p1.
Proof.
  revert p. induction cs1 as [| c cs1 IH]; intros p; [reflexivity |].
  cbn [app do_calls]. destruct (do_call c p); [apply IH | reflexivity].
Qed.

End CallFacts.

Ltac zcmp := vm_compute; first [reflexivity | discriminate].

(** Closed conjunctions, decided by evaluation. *)
Ltac eval_conj :=
  lazymatch goal with
  | |- _ /\ _ => split; [eval_conj | eval_conj]
  | _ => zcmp
  end.

(** C8, the claim as stated fails: after an insert and a delete, slot 0 is
    empty and still carries the offset and length of the deleted record. *)
Lemma C8_counterexample :
  exists p,
    do_calls [Insert (mkTuple [10]) zeros; Delete 0%N] SlottedPage_new = Some p /\
    get_slot (page_data p) 0 = Slot.mk true 3072 4 /\
    slot_offset (page_data p) 0 <> INVALID_VALUE /\
    slot_length (page_data p) 0 <> INVALID_VALUE.
Proof. eexists. eval_conj. Qed.

Lemma X27_witness :
  exists p,
    do_calls [Insert (mkTuple [10]) zeros; Insert (mkTuple [20]) zeros;
              Delete 0%N] SlottedPage_new = Some p /\
    slot_offset (page_data p) 1 = 3076 /\
    exists p' out,
      compactPage p = Some p' /\ print p = Some out /\ print p' = Some out /\
      slot_offset (page_data p') 1 = 3072.
Proof.
  assert (Hrun : exists p,
    do_calls [Insert (mkTuple [10]) zeros; Insert (mkTuple [20]) zeros;
              Delete 0%N] SlottedPage_new = Some p /\
    slot_offset (page_data p) 1 = 3076 /\
    ordered_layout p /\
    (forall p', compactPage p = Some p' -> slot_offset (page_data p') 1 = 3072)).
  { eexists. split; [vm_compute; reflexivity |]. split; [zcmp |].
    split.
    - split; [zcmp |]. split; [zcmp |]. vm_compute. intuition discriminate.
    - intros p'. vm_compute. intros [= <-]. reflexivity. }
  destruct Hrun as (p & Hrun & Ho & Hord & Hmoved).
  exists p. split; [exact Hrun |]. split; [exact Ho |].
  destruct (X27_compact_ordered p Hord)
    as (p' & out & Hc & Hp & Hp' & _).
  exists p', out. split; [exact Hc |]. split; [exact Hp |].
  split; [exact Hp' |]. exact (Hmoved p' Hc).
Defined.

(** C3, at the failing input: on a page reached by inserts and a delete -
    slot 0 was freed and reused for a longer record, which runs into the
    record of slot 1 - [compactPage] is defined and keeps the occupied
    slots, but packs record 1 over the bytes of record 2 before it reads
    them: the page printed [30] for slot 2 before the compaction and prints
    [200] after it. *)
Theorem C3_compact_loses_record :
  exists p p',
    do_calls [Insert (mkTuple [10]) zeros; Insert (mkTuple [20]) zeros;
              Insert (mkTuple [30]) zeros; Delete 0%N;
              Insert (mkTuple [100; 200]) zeros] SlottedPage_new = Some p /\
    compactPage p = Some p' /\
    print p = Some [(0, [100; 200]); (1, [200]); (2, [30])] /\
    print p' = Some [(0, [100; 200]); (1, [200]); (2, [200])] /\
    ~ [(0, [100; 200]); (1, [200]); (2, [30])]
      ≡ₚ [(0, [100; 200]); (1, [200]); (2, [200])].
Proof.
  eexists. eexists.
  split; [vm_compute; reflexivity |]. split; [vm_compute; reflexivity |].
  split; [vm_compute; reflexivity |]. split; [vm_compute; reflexivity |].
  intros HP.
  assert (Hin : (2, [30]) ∈ [(0, [100; 200]); (1, [200]); (2, [200])]).
  { rewrite <- HP. do 2 right. left. }
  repeat (apply elem_of_cons in Hin as [Hin | Hin]; [discriminate Hin |]).
  inversion Hin.
Qed.

(** C1, at the failing input: slot 0 is freed and reused for a longer
    record; its bytes then run into those of slot 1. *)
Theorem C1_overlap_after_reuse :
  exists p,
    do_calls [Insert (mkTuple [10]) zeros; Insert (mkTuple [20]) zeros;
              Delete 0%N; Insert (mkTuple [100; 200]) zeros]
             SlottedPage_new = Some p /\
    get_slot (page_data p) 0 = Slot.mk false 3072 8 /\
    get_slot (page_data p) 1 = Slot.mk false 3076 4 /\
    overlap (page_data p) 0 1 /\
    print p = Some [(0, [100; 200]); (1, [200])].
Proof.
  eexists. split; [vm_compute; reflexivity |].
  split; [zcmp |]. split; [zcmp |].
  split; [| vm_compute; reflexivity].
  exists 3076. eval_conj.
Qed.

(** With two long records overlapping in this way, a compaction moves the
    second one past the end of the buffer. *)
Lemma compact_leaves_buffer :
  do_calls [Insert (mkTuple [1]) zeros; Insert (mkTuple (replicate 250 7)) zeros;
            Delete 0%N; Insert (mkTuple (replicate 250 7)) zeros; Compact]
           SlottedPage_new = None /\
  exists p,
    do_calls [Insert (mkTuple [1]) zeros; Insert (mkTuple (replicate 250 7)) zeros;
              Delete 0%N; Insert (mkTuple (replicate 250 7)) zeros]
             SlottedPage_new = Some p /\
    get_slot (page_data p) 0 = Slot.mk false 3072 1000 /\
    get_slot (page_data p) 1 = Slot.mk false 3076 1000.
Proof.
  split; [vm_compute; reflexivity |].
  eexists. eval_conj.
Qed.

(** C2, at the failing input: after two inserts and the delete of slot 0
    the high-water mark is 3080, the first byte after the second record;
    the next insert writes at 3072 and over the second record. *)
Theorem C2_insert_below_mark :
  exists p p',
    do_calls [Insert (mkTuple [10]) zeros; Insert (mkTuple [20]) zeros;
              Delete 0%N] SlottedPage_new = Some p /\
    spec_high_water_mark
      [Insert (mkTuple [10]) zeros; Insert (mkTuple [20]) zeros; Delete 0%N]
      SlottedPage_new directory_size = Some 3080 /\
    print p = Some [(1, [20])] /\
    addTuple zeros (mkTuple [100; 200]) p = Some (true, p') /\
    get_slot (page_data p') 0 = Slot.mk false 3072 8 /\
    get_slot (page_data p') 1 = Slot.mk false 3076 4 /\
    print p' = Some [(0, [100; 200]); (1, [200])].
Proof.
  eexists. eexists.
  split; [vm_compute; reflexivity |]. split; [vm_compute; reflexivity |].
  split; [vm_compute; reflexivity |]. split; [vm_compute; reflexivity |].
  eval_conj.
Qed.

(** ** moveTupleAcrossPages *)

Module MoveFacts.
Import MemFacts SlotFacts AddFacts PrintFacts CompactFacts.

Lemma page_at_insert_eq k p (m : gmap Z SlottedPage) :
  page_at (<[k := p]> m) k = p.
Proof. unfold page_at. now rewrite lookup_insert_eq. Qed.

Lemma page_at_insert_ne k id p (m : gmap Z SlottedPage) :
  id <> k -> page_at (<[k := p]> m) id = page_at m id.
Proof. intros Hne. unfold page_at. now rewrite lookup_insert_ne. Qed.

Lemma page_at_update_eq k f m :
  page_at (update_page k f m) k = f (page_at m k).
Proof. apply page_at_insert_eq. Qed.

Lemma page_at_update_ne k id f m :
  id <> k -> page_at (update_page k f m) id = page_at m id.
Proof. apply page_at_insert_ne. Qed.

Lemma page_at_load k m id : page_at (load k m) id = page_at m id.
Proof.
  unfold load. destruct (m !! k) eqn:Hk; [reflexivity |].
  destruct (decide (id = k)) as [-> | Hne].
  - rewrite page_at_insert_eq. unfold page_at. now rewrite Hk.
  - now apply page_at_insert_ne.
Qed.

Lemma metadata_update_with_data k f m id :
  metadata_size (page_at (update_page k (with_data f) m) id)
  = metadata_size (page_at m id).
Proof.
  destruct (decide (id = k)) as [-> | Hne].
  - now rewrite page_at_update_eq.
  - now rewrite page_at_update_ne.
Qed.

Lemma moveTuple_unfold from_page_id to_page_id pages :
  moveTupleAcrossPages from_page_id to_page_id pages =
  '(done, pages1) ← move_loop from_page_id to_page_id slot_indices
                      (load to_page_id (load from_page_id pages));
  if done : bool then
    p ← compactPage (page_at pages1 from_page_id);
    Some (true, <[from_page_id := p]> pages1)
  else Some (false, pages1).
Proof. reflexivity. Qed.

Lemma move_loop_app from_id to_id idx1 idx2 pages :
  move_loop from_id to_id (idx1 ++ idx2) pages =
  '(go_on, pages') ← move_loop from_id to_id idx1 pages;
  if go_on : bool then move_loop from_id to_id idx2 pages'
  else Some (false, pages').
Proof.
  revert pages. induction idx1 as [| i idx1 IH]; intros pages.
  - cbn [app move_loop mbind option_bind]. reflexivity.
  - cbn [app move_loop].
    destruct (move_slot from_id to_id i pages) as [[go pages'] |];
      [| reflexivity].
    cbn [mbind option_bind]. destruct go; [apply IH | reflexivity].
Qed.

(** A round that finds the destination too small stops the loop and
    leaves the store alone. *)
Lemma move_slot_no_room from_id to_id i pages :
  slot_empty (page_data (page_at pages from_id)) i = false ->
  PAGE_SIZE <= metadata_size (page_at pages to_id)
               + slot_length (page_data (page_at pages from_id)) i ->
  move_slot from_id to_id i pages = Some (false, pages).
Proof.
  intros He Hroom. unfold move_slot. rewrite He.
  destruct (Z.leb_spec PAGE_SIZE
    (metadata_size (page_at pages to_id)
     + slot_length (page_data (page_at pages from_id)) i)); [| lia].
  reflexivity.
Qed.

(** [metadata_size] under one round. *)
Lemma move_commit_meta from_id to_id i d1 new_offset len pages :
  (forall id, id <> to_id ->
     metadata_size (page_at (move_commit from_id to_id i d1 new_offset len
                               pages) id)
     = metadata_size (page_at pages id)) /\
  metadata_size (page_at (move_commit from_id to_id i d1 new_offset len
                            pages) to_id)
  = metadata_size (page_at pages to_id) + len.
Proof.
  unfold move_commit, move_free. split.
  - intros id Hne. rewrite page_at_update_ne by assumption.
    now rewrite !metadata_update_with_data.
  - rewrite page_at_update_eq. cbn [metadata_size].
    now rewrite !metadata_update_with_data.
Qed.

Lemma move_slot_meta from_id to_id i pages go pages' :
  move_slot from_id to_id i pages = Some (go, pages') ->
  (forall id, id <> to_id ->
     metadata_size (page_at pages' id) = metadata_size (page_at pages id)) /\
  (pages' = pages \/
   (slot_empty (page_data (page_at pages from_id)) i = false /\
    metadata_size (page_at pages' to_id)
    = metadata_size (page_at pages to_id)
      + slot_length (page_data (page_at pages from_id)) i)).
Proof.
  unfold move_slot.
  destruct (slot_empty (page_data (page_at pages from_id)) i) eqn:He;
    [intros [= <- <-]; auto |].
  destruct (PAGE_SIZE <=? _); [intros [= <- <-]; auto |].
  destruct (Mem.read _ _ _) as [bytes |]; [| discriminate].
  cbn [mbind option_bind].
  destruct (Mem.write _ _ _) as [d1 |]; [| discriminate].
  cbn [mbind option_bind]. intros H. injection H as <- <-.
  destruct (move_commit_meta from_id to_id i d1
              (metadata_size (page_at pages to_id))
              (slot_length (page_data (page_at pages from_id)) i) pages)
    as [Hother Hto].
  split; [exact Hother |]. right. split; [reflexivity | exact Hto].
Qed.

Lemma move_loop_meta from_id to_id : forall idx pages go pages',
  move_loop from_id to_id idx pages = Some (go, pages') ->
  (forall id, id <> to_id ->
     metadata_size (page_at pages' id) = metadata_size (page_at pages id)) /\
  metadata_size (page_at pages to_id) <= metadata_size (page_at pages' to_id).
Proof.
  induction idx as [| i idx IH]; intros pages go pages'; cbn [move_loop].
  - intros [= <- <-]. split; [auto | lia].
  - destruct (move_slot from_id to_id i pages) as [[go1 pages1] |] eqn:Hs;
      [| discriminate].
    cbn [mbind option_bind].
    destruct (move_slot_meta _ _ _ _ _ _ Hs) as [Hother Hto].
    assert (Hle : metadata_size (page_at pages to_id)
                  <= metadata_size (page_at pages1 to_id)).
    { destruct Hto as [-> | [_ ->]]; [lia |].
      pose proof (slot_length_range (page_data (page_at pages from_id)) i).
      lia. }
    destruct go1.
    + intros Hloop. destruct (IH _ _ _ Hloop) as [Hother' Hto'].
      split; [| lia]. intros id Hne. rewrite Hother' by assumption.
      now apply Hother.
    + intros [= <- <-]. split; assumption.
Qed.

Lemma compactPage_meta p p' :
  compactPage p = Some p' -> metadata_size p' = metadata_size p.
Proof.
  rewrite compactPage_unfold.
  destruct (compact_loop _ _ _); [| discriminate]. now intros [= <-].
Qed.

Lemma addTuple_meta past tuple p b p' :
  addTuple past tuple p = Some (b, p') -> metadata_size p' = metadata_size p.
Proof.
  rewrite addTuple_find. destruct (first_empty p <? MAX_SLOTS);
    [| now intros [= <- <-]].
  unfold addTuple_at. destruct (PAGE_SIZE <=? _); [now intros [= <- <-] |].
  destruct (Mem.write _ _ _); [| discriminate]. now intros [= <- <-].
Qed.

Lemma moveTuple_meta from_id to_id pages b pages' :
  moveTupleAcrossPages from_id to_id pages = Some (b, pages') ->
  (forall id, id <> to_id ->
     metadata_size (page_at pages' id) = metadata_size (page_at pages id)) /\
  metadata_size (page_at pages to_id) <= metadata_size (page_at pages' to_id).
Proof.
  rewrite moveTuple_unfold.
  destruct (move_loop _ _ _ _) as [[ok pages1] |] eqn:Hloop; [| discriminate].
  cbn [mbind option_bind].
  destruct (move_loop_meta _ _ _ _ _ _ Hloop) as [Hother Hto].
  rewrite !page_at_load in Hto.
  assert (Hother' : forall id, id <> to_id ->
    metadata_size (page_at pages1 id) = metadata_size (page_at pages id)).
  { intros id Hne. rewrite Hother by assumption. now rewrite !page_at_load. }
  destruct ok; [| intros [= <- <-]; split; assumption].
  destruct (compactPage (page_at pages1 from_id)) as [p |] eqn:Hc;
    [| discriminate].
  cbn [mbind option_bind]. intros [= <- <-].
  apply compactPage_meta in Hc.
  split.
  - intros id Hne. destruct (decide (id = from_id)) as [-> | Hnf].
    + rewrite page_at_insert_eq, Hc. now apply Hother'.
    + rewrite page_at_insert_ne by assumption. now apply Hother'.
  - destruct (decide (to_id = from_id)) as [-> | Hnf].
    + rewrite page_at_insert_eq, Hc. assumption.
    + rewrite page_at_insert_ne by assumption. assumption.
Qed.

End MoveFacts.

(** C4. When the loop of [moveTupleAcrossPages] reaches an occupied source
    slot [i] for which the destination lacks room (new_offset + length >=
    PAGE_SIZE, new_offset being the destination's [metadata_size]), the call
    answers false and hands back the store exactly as the rounds before [i]
    left it: slot [i] of the source is still occupied, and what the earlier
    rounds moved stays moved. *)
Theorem C4_move_aborts (from_page_id to_page_id i : Z) (before after : list Z)
    (pages pages_i : gmap Z SlottedPage) :
  slot_indices = before ++ i :: after ->
  move_loop from_page_id to_page_id before
    (load to_page_id (load from_page_id pages)) = Some (true, pages_i) ->
  slot_empty (page_data (page_at pages_i from_page_id)) i = false ->
  PAGE_SIZE <= metadata_size (page_at pages_i to_page_id)
               + slot_length (page_data (page_at pages_i from_page_id)) i ->
  moveTupleAcrossPages from_page_id to_page_id pages = Some (false, pages_i) /\
  forall pages', moveTupleAcrossPages from_page_id to_page_id pages
                 = Some (false, pages') ->
    slot_empty (page_data (page_at pages' from_page_id)) i = false.
Proof.
  intros Hsplit Hbefore He Hroom.
  assert (Hmove : moveTupleAcrossPages from_page_id to_page_id pages
                  = Some (false, pages_i)).
  { rewrite MoveFacts.moveTuple_unfold, Hsplit, MoveFacts.move_loop_app, Hbefore.
    cbn [mbind option_bind move_loop].
    rewrite (MoveFacts.move_slot_no_room _ _ _ _ He Hroom). reflexivity. }
  split; [exact Hmove |].
  intros pages' Hmove'. rewrite Hmove in Hmove'. injection Hmove' as <-.
  exact He.
Qed.

(** Scenario D. *)
Lemma C4_witness :
  moveTupleAcrossPages 0 1 scenario_D_pages = Some (false, scenario_D_pages) /\
  metadata_size (page_at scenario_D_pages 1) = PAGE_SIZE - 10 /\
  get_slot (page_data (page_at scenario_D_pages 0)) 0 = Slot.mk false 3072 20.
Proof.
  assert (Hload : load 1 (load 0 scenario_D_pages) = scenario_D_pages)
    by (vm_compute; reflexivity).
  destruct (C4_move_aborts 0 1 0 [] (seqZ 1 511) scenario_D_pages
              scenario_D_pages) as [Hmove _].
  - vm_compute. reflexivity.
  - rewrite Hload. reflexivity.
  - vm_compute. reflexivity.
  - vm_compute. discriminate.
  - split; [exact Hmove |]. split; vm_compute; reflexivity.
Defined.

(** A destination that a first call has filled in part: of the two records
    of page 2 the first is moved, the second finds no room; the call
    answers false, the first record stays in the destination and the second
    in the source. *)
Lemma move_partial_transfer :
  exists p0 p2 pages1 pages2,
    do_calls [Insert (mkTuple [5]) zeros] SlottedPage_new = Some p0 /\
    do_calls [Insert (mkTuple (replicate 254 7)) zeros;
              Insert (mkTuple [20]) zeros] SlottedPage_new = Some p2 /\
    moveTupleAcrossPages 0 1 (<[2 := p2]> (<[0 := p0]> ∅)) = Some (true, pages1) /\
    moveTupleAcrossPages 2 1 pages1 = Some (false, pages2) /\
    get_slot (page_data (page_at pages2 2)) 0 = Slot.mk true 3072 1016 /\
    get_slot (page_data (page_at pages2 2)) 1 = Slot.mk false 4088 4 /\
    metadata_size (page_at pages2 1) = 4092 /\
    print (page_at pages2 2) = Some [(1, [20])] /\
    print (page_at pages2 1) = Some [(0, [5]); (1, replicate 254 7)].
Proof.
  eexists. eexists. eexists. eexists.
  split; [vm_compute; reflexivity |]. split; [vm_compute; reflexivity |].
  split; [vm_compute; reflexivity |]. split; [vm_compute; reflexivity |].
  eval_conj.
Qed.

(** X28. [metadata_size] is set by the constructor to
    MAX_SLOTS x sizeof(Slot) and changed by no insert, delete or
    compaction; a move changes it on no page but its destination, and
    never lowers the destination's. *)
Theorem X28_metadata_size_frame :
  metadata_size SlottedPage_new = MAX_SLOTS * sizeof_Slot /\
  (forall past tuple p b p',
     addTuple past tuple p = Some (b, p') ->
     metadata_size p' = metadata_size p) /\
  (forall index p, metadata_size (deleteTuple index p) = metadata_size p) /\
  (forall p p', compactPage p = Some p' -> metadata_size p' = metadata_size p) /\
  (forall from_page_id to_page_id pages b pages',
     moveTupleAcrossPages from_page_id to_page_id pages = Some (b, pages') ->
     (forall id, id <> to_page_id ->
        metadata_size (page_at pages' id) = metadata_size (page_at pages id)) /\
     metadata_size (page_at pages to_page_id)
     <= metadata_size (page_at pages' to_page_id)).
Proof.
  split; [reflexivity |].
  split; [exact MoveFacts.addTuple_meta |].
  split; [exact CallFacts.deleteTuple_meta |].
  split; [exact MoveFacts.compactPage_meta | exact MoveFacts.moveTuple_meta].
Qed.

(** The run of [main]. *)
Lemma X28_witness :
  exists p pages',
    do_calls [Insert (mkTuple [10]) zeros; Insert (mkTuple [20]) zeros;
              Delete 0%N; Compact] SlottedPage_new = Some p /\
    metadata_size p = MAX_SLOTS * sizeof_Slot /\
    moveTupleAcrossPages 0 1 (<[0 := p]> ∅) = Some (true, pages') /\
    metadata_size (page_at pages' 0) = metadata_size (page_at (<[0 := p]> ∅) 0) /\
    metadata_size (page_at (<[0 := p]> ∅) 1) <= metadata_size (page_at pages' 1).
Proof.
  assert (Hrun : exists p pages',
    do_calls [Insert (mkTuple [10]) zeros; Insert (mkTuple [20]) zeros;
              Delete 0%N; Compact] SlottedPage_new = Some p /\
    metadata_size p = MAX_SLOTS * sizeof_Slot /\
    moveTupleAcrossPages 0 1 (<[0 := p]> ∅) = Some (true, pages')).
  { eexists. eexists. eval_conj. }
  destruct Hrun as (p & pages' & Hrun & Hm & Hmove).
  exists p, pages'. split; [exact Hrun |]. split; [exact Hm |].
  split; [exact Hmove |].
  destruct X28_metadata_size_frame as (_ & _ & _ & _ & Hmeta).
  destruct (Hmeta 0 1 _ _ _ Hmove) as [Hother Hto].
  split; [apply Hother; discriminate | exact Hto].
Defined.

(** C7, at the failing input: in the run of [main] the destination is
    constructed with a [metadata_size] of MAX_SLOTS x sizeof(Slot) = 3072,
    and the move of one record of four bytes leaves it with 3076: the move
    executes [to_page.metadata_size += length], the field that holds the
    size of the directory is not a constant. *)
Theorem C7_move_advances_metadata_size :
  exists p pages',
    do_calls [Insert (mkTuple [10]) zeros; Insert (mkTuple [20]) zeros;
              Delete 0%N; Compact] SlottedPage_new = Some p /\
    metadata_size (page_at (<[0 := p]> ∅) 1) = MAX_SLOTS * sizeof_Slot /\
    moveTupleAcrossPages 0 1 (<[0 := p]> ∅) = Some (true, pages') /\
    metadata_size (page_at pages' 1) = 3076 /\
    metadata_size (page_at pages' 1) <> MAX_SLOTS * sizeof_Slot.
Proof. eexists. eexists. eval_conj. Qed.

(** C9, at the failing input: every entry of the destination's directory
    is occupied; the search ends at j = MAX_SLOTS and the entry is written
    there all the same, over the first bytes of the data region, where the
    record had just been copied.  The call answers true; the record is in
    neither page. *)
Theorem C9_full_destination :
  exists src pages',
    do_calls [Insert (mkTuple [20]) zeros] SlottedPage_new = Some src /\
    do_calls full_page_calls SlottedPage_new = Some full_page /\
    find_free slot_indices (page_data full_page) = MAX_SLOTS /\
    moveTupleAcrossPages 0 1 (<[1 := full_page]> (<[0 := src]> ∅))
      = Some (true, pages') /\
    get_slot (page_data (page_at pages' 1)) MAX_SLOTS = Slot.mk false 3072 4 /\
    slot_addr MAX_SLOTS = directory_size /\
    Mem.read (page_data (page_at pages' 1)) directory_size 4
      = Some ["000"; "0"; "000"; "012"]%char /\
    print (page_at pages' 0) = Some [] /\
    print (page_at pages' 1) = print full_page.
Proof.
  eexists. eexists. split; [vm_compute; reflexivity |].
  split; [exact full_page_reached |].
  split; [vm_compute; reflexivity |]. split; [vm_compute; reflexivity |].
  eval_conj.
Qed.

(** * Further properties of the code *)

(** ** One round of the move, page by page *)

Module StoreFacts.
Import MemFacts SlotFacts AddFacts PrintFacts CompactFacts CallFacts MoveFacts.

Lemma find_free_range d : 0 <= find_free slot_indices d <= MAX_SLOTS.
Proof.
  pose proof (first_empty_spec (mkPage d 0)) as H.
  unfold first_empty in H. cbn [page_data] in H.
  destruct H as [_ [[H _] | [H _]]]; unfold MAX_SLOTS in *; lia.
Qed.

Lemma length_activate j off len d :
  length (activate j off len d) = length d.
Proof.
  unfold activate.
  now rewrite length_set_slot_length, length_set_slot_offset,
    length_set_slot_empty.
Qed.

(** The entry written at [j], also for [j = MAX_SLOTS]. *)
Lemma get_slot_activate d j off len k :
  0 <= j <= MAX_SLOTS -> 0 <= k -> Z.of_nat (length d) = PAGE_SIZE ->
  0 <= off < 65536 -> 0 <= len < 65536 ->
  get_slot (activate j off len d) k =
  if decide (k = j) then Slot.mk false off len else get_slot d k.
Proof.
  intros Hj Hk Hlen Hoff Hl. unfold activate. case_decide as Hkj.
  - subst k.
    rewrite get_slot_set_length
      by (rewrite ?length_set_slot_offset, ?length_set_slot_empty;
          unfold_consts; lia).
    pose proof (get_slot_set_offset (set_slot_empty d j false) j off
      ltac:(lia)
      ltac:(rewrite length_set_slot_empty; unfold_consts; lia)) as H2.
    apply get_slot_mk in H2 as (-> & -> & _).
    pose proof (get_slot_set_empty d j false ltac:(lia)
      ltac:(unfold_consts; lia)) as H3.
    apply get_slot_mk in H3 as (-> & _ & _).
    now rewrite !Z.mod_small by lia.
  - now rewrite get_slot_set_length_other, get_slot_set_offset_other,
      get_slot_set_empty_other by lia.
Qed.

(** The pages after the writes of one round. *)
Lemma move_commit_pages from_id to_id i d1 off len pages :
  let d2 := if decide (from_id = to_id) then set_slot_empty d1 i true else d1 in
  let j := find_free slot_indices d2 in
  page_at (move_commit from_id to_id i d1 off len pages) to_id
  = mkPage (activate j off len d2)
           (metadata_size (page_at pages to_id) + len) /\
  (from_id <> to_id ->
   page_at (move_commit from_id to_id i d1 off len pages) from_id
   = mkPage (set_slot_empty (page_data (page_at pages from_id)) i true)
            (metadata_size (page_at pages from_id))) /\
  (forall id, id <> from_id -> id <> to_id ->
   page_at (move_commit from_id to_id i d1 off len pages) id
   = page_at pages id).
Proof.
  cbv zeta. unfold move_commit, move_free.
  split; [| split].
  - rewrite page_at_update_eq, page_at_update_eq.
    case_decide as Hft.
    + subst to_id. rewrite !page_at_update_eq. reflexivity.
    + rewrite !(page_at_update_ne from_id to_id) by congruence.
      rewrite !page_at_update_eq. reflexivity.
  - intros Hne.
    rewrite !(page_at_update_ne to_id from_id) by assumption.
    rewrite page_at_update_eq.
    rewrite (page_at_update_ne to_id from_id) by assumption. reflexivity.
  - intros id Hf Ht.
    rewrite !(page_at_update_ne to_id id) by assumption.
    rewrite (page_at_update_ne from_id id) by assumption.
    now rewrite (page_at_update_ne to_id id) by assumption.
Qed.

(** A round on an occupied slot that fits: both copies stay inside the
    buffers and the destination's directory is not written by [memmove]. *)
Lemma move_slot_copy from_id to_id i pages :
  page_inv (page_at pages from_id) -> page_inv (page_at pages to_id) ->
  0 <= i < MAX_SLOTS ->
  slot_empty (page_data (page_at pages from_id)) i = false ->
  metadata_size (page_at pages to_id)
    + slot_length (page_data (page_at pages from_id)) i < PAGE_SIZE ->
  exists bytes d1,
    Mem.read (page_data (page_at pages from_id))
      (slot_offset (page_data (page_at pages from_id)) i)
      (slot_length (page_data (page_at pages from_id)) i) = Some bytes /\
    Mem.write (page_data (page_at pages to_id))
      (metadata_size (page_at pages to_id)) bytes = Some d1 /\
    move_slot from_id to_id i pages
    = Some (true, move_commit from_id to_id i d1
                    (metadata_size (page_at pages to_id))
                    (slot_length (page_data (page_at pages from_id)) i)
                    pages) /\
    length d1 = length (page_data (page_at pages to_id)) /\
    agree 0 directory_size d1 (page_data (page_at pages to_id)).
Proof.
  intros (Hlf & Hmf & Hsf) (Hlt & Hmt & Hst) Hi He Hroom.
  destruct (Hsf i Hi He) as [Ho Hend].
  pose proof (slot_length_range (page_data (page_at pages from_id)) i) as Hl.
  pose proof (read_Some (page_data (page_at pages from_id))
    (slot_offset (page_data (page_at pages from_id)) i)
    (slot_length (page_data (page_at pages from_id)) i)
    ltac:(unfold_consts; lia) ltac:(lia) ltac:(lia)) as Hread.
  pose proof (read_length _ _ _ _ Hread) as Hbl.
  pose proof (write_Some (page_data (page_at pages to_id))
    (metadata_size (page_at pages to_id)) _
    ltac:(unfold_consts; lia) ltac:(rewrite Hbl; lia)) as Hwrite.
  eexists _, _. split; [exact Hread |]. split; [exact Hwrite |].
  split; [| split].
  - unfold move_slot. rewrite He.
    destruct (Z.leb_spec PAGE_SIZE
      (metadata_size (page_at pages to_id)
       + slot_length (page_data (page_at pages from_id)) i)); [lia |].
    rewrite Hread. cbn [mbind option_bind]. rewrite Hwrite. reflexivity.
  - eapply write_length. exact Hwrite.
  - eapply agree_write; [exact Hwrite | lia |]. left. assumption.
Qed.

(** Clearing a slot keeps the directory well formed. *)
Lemma clear_slot_region d i :
  Z.of_nat (length d) = PAGE_SIZE -> 0 <= i < MAX_SLOTS ->
  (forall k, 0 <= k < MAX_SLOTS -> in_data_region d k) ->
  forall k, 0 <= k < MAX_SLOTS -> in_data_region (set_slot_empty d i true) k.
Proof.
  intros Hlen Hi Hs k Hk. unfold in_data_region.
  destruct (decide (k = i)) as [-> | Hne].
  - pose proof (get_slot_set_empty d i true ltac:(lia)
      ltac:(unfold_consts; lia)) as H.
    apply get_slot_mk in H as (-> & _ & _). discriminate.
  - pose proof (get_slot_set_empty_other d i k true ltac:(lia) ltac:(lia)
      ltac:(lia)) as H.
    apply get_slot_eq in H as (-> & -> & ->). apply Hs. assumption.
Qed.

(** Activating a slot with a range inside the data region keeps the
    directory well formed, also when the slot is [MAX_SLOTS]. *)
Lemma activate_region d j off len :
  Z.of_nat (length d) = PAGE_SIZE -> 0 <= j <= MAX_SLOTS ->
  directory_size <= off -> 0 <= len -> off + len <= PAGE_SIZE ->
  (forall k, 0 <= k < MAX_SLOTS -> in_data_region d k) ->
  forall k, 0 <= k < MAX_SLOTS -> in_data_region (activate j off len d) k.
Proof.
  intros Hlen Hj Hoff Hl Hend Hs k Hk. unfold in_data_region.
  pose proof (get_slot_activate d j off len k Hj ltac:(lia) Hlen
    ltac:(unfold_consts; lia) ltac:(unfold_consts; lia)) as H.
  case_decide as Hkj.
  - apply get_slot_mk in H as (_ & -> & ->). intros _. lia.
  - apply get_slot_eq in H as (-> & -> & ->). apply Hs. assumption.
Qed.

Lemma region_agree d d' :
  agree 0 directory_size d' d ->
  (forall k, 0 <= k < MAX_SLOTS -> in_data_region d k) ->
  forall k, 0 <= k < MAX_SLOTS -> in_data_region d' k.
Proof.
  intros Hag Hs k Hk. unfold in_data_region.
  pose proof (get_slot_agree 0 directory_size d' d k Hag
    ltac:(unfold_consts; lia) ltac:(unfold_consts; lia)) as H.
  apply get_slot_eq in H as (-> & -> & ->). apply Hs. assumption.
Qed.

(** One round keeps every page of the store well formed. *)
Lemma move_slot_inv from_id to_id i pages go pages' :
  store_inv pages -> 0 <= i < MAX_SLOTS ->
  move_slot from_id to_id i pages = Some (go, pages') ->
  store_inv pages'.
Proof.
  intros Hinv Hi.
  destruct (slot_empty (page_data (page_at pages from_id)) i) eqn:He.
  { unfold move_slot. rewrite He. intros [= <- <-]. assumption. }
  destruct (Z.leb_spec PAGE_SIZE
    (metadata_size (page_at pages to_id)
     + slot_length (page_data (page_at pages from_id)) i)) as [Hfull | Hroom].
  { rewrite move_slot_no_room by assumption. intros [= <- <-]. assumption. }
  destruct (move_slot_copy from_id to_id i pages (Hinv from_id) (Hinv to_id)
              Hi He Hroom) as (bytes & d1 & _ & _ & -> & Hl1 & Hag).
  intros [= <- <-].
  pose proof (move_commit_pages from_id to_id i d1
    (metadata_size (page_at pages to_id))
    (slot_length (page_data (page_at pages from_id)) i) pages) as Hp.
  cbv zeta in Hp. destruct Hp as (Hto & Hfrom & Hother).
  pose proof (slot_length_range (page_data (page_at pages from_id)) i) as Hlr.
  destruct (Hinv to_id) as (Hlt & Hmt & Hst).
  assert (Hs1 : forall k, 0 <= k < MAX_SLOTS -> in_data_region d1 k)
    by (eapply region_agree; eassumption).
  assert (Hlen1 : Z.of_nat (length d1) = PAGE_SIZE) by lia.
  intros id. destruct (decide (id = to_id)) as [-> | Hnt].
  - rewrite Hto. unfold page_inv. cbn [page_data metadata_size].
    rewrite length_activate.
    split; [| split; [lia |]].
    + case_decide; [rewrite length_set_slot_empty |]; assumption.
    + case_decide.
      * apply activate_region;
          [rewrite length_set_slot_empty; assumption | apply find_free_range
          | lia | lia | lia |].
        apply clear_slot_region; assumption.
      * apply activate_region;
          [assumption | apply find_free_range | lia | lia | lia | assumption].
  - destruct (decide (id = from_id)) as [-> | Hnf].
    + rewrite Hfrom by congruence.
      destruct (Hinv from_id) as (Hlf & Hmf & Hsf).
      unfold page_inv. cbn [page_data metadata_size].
      rewrite length_set_slot_empty.
      split; [assumption | split; [assumption |]].
      apply clear_slot_region; assumption.
    + rewrite Hother by assumption. apply Hinv.
Qed.

Lemma move_loop_inv from_id to_id : forall idx pages go pages',
  store_inv pages -> Forall (fun i => 0 <= i < MAX_SLOTS) idx ->
  move_loop from_id to_id idx pages = Some (go, pages') ->
  store_inv pages'.
Proof.
  induction idx as [| i idx IH]; intros pages go pages' Hinv Hidx;
    cbn [move_loop].
  - intros [= <- <-]. assumption.
  - apply Forall_cons in Hidx as [Hi Hidx].
    destruct (move_slot from_id to_id i pages) as [[g q] |] eqn:Hs;
      [| discriminate].
    cbn [mbind option_bind].
    pose proof (move_slot_inv _ _ _ _ _ _ Hinv Hi Hs) as Hq.
    destruct g; [| intros [= <- <-]; assumption].
    apply IH; assumption.
Qed.

Lemma store_inv_load k pages : store_inv pages -> store_inv (load k pages).
Proof. intros H id. rewrite page_at_load. apply H. Qed.

Lemma store_inv_insert k p pages :
  store_inv pages -> page_inv p -> store_inv (<[k := p]> pages).
Proof.
  intros H Hp id. destruct (decide (id = k)) as [-> | Hne].
  - rewrite page_at_insert_eq. assumption.
  - rewrite page_at_insert_ne by assumption. apply H.
Qed.

Lemma store_inv_empty : store_inv ∅.
Proof.
  intros id. unfold page_at. rewrite lookup_empty. cbn [default].
  apply FreshFacts.SlottedPage_new_inv.
Qed.

Lemma moveTuple_inv from_id to_id pages b pages' :
  store_inv pages ->
  moveTupleAcrossPages from_id to_id pages = Some (b, pages') ->
  store_inv pages'.
Proof.
  intros Hinv. rewrite moveTuple_unfold.
  destruct (move_loop from_id to_id slot_indices
              (load to_id (load from_id pages))) as [[done q] |] eqn:Hloop;
    [| discriminate].
  cbn [mbind option_bind].
  assert (Hq : store_inv q).
  { eapply move_loop_inv; [| apply slot_indices_range | exact Hloop].
    now do 2 apply store_inv_load. }
  destruct done; [| intros [= <- <-]; assumption].
  destruct (compactPage (page_at q from_id)) as [p |] eqn:Hc;
    [| discriminate].
  cbn [mbind option_bind]. intros [= <- <-].
  apply store_inv_insert; [assumption |].
  eapply compactPage_inv; [apply Hq | exact Hc].
Qed.

Lemma do_store_call_inv sc pages pages' :
  store_inv pages -> do_store_call sc pages = Some pages' ->
  store_inv pages'.
Proof.
  intros Hinv. destruct sc as [id c | from_id to_id]; cbn [do_store_call].
  - destruct (do_call c (page_at pages id)) as [p |] eqn:Hc; [| discriminate].
    cbn [mbind option_bind]. intros [= <-].
    apply store_inv_insert; [assumption |].
    eapply do_call_inv; [apply Hinv | exact Hc].
  - destruct (moveTupleAcrossPages from_id to_id pages) as [[b q] |] eqn:Hm;
      [| discriminate].
    cbn [fmap option_fmap option_map snd]. intros [= <-].
    eapply moveTuple_inv; eassumption.
Qed.

Lemma do_store_calls_inv scs : forall pages pages',
  store_inv pages -> do_store_calls scs pages = Some pages' ->
  store_inv pages'.
Proof.
  induction scs as [| sc scs IH]; intros pages pages' Hinv;
    cbn [do_store_calls].
  - intros [= <-]. assumption.
  - destruct (do_store_call sc pages) as [q |] eqn:Hc; [| discriminate].
    cbn [mbind option_bind]. apply IH. eapply do_store_call_inv; eassumption.
Qed.

(** The three ways a round can end. *)
Lemma move_slot_cases from_id to_id i pages go pages' :
  move_slot from_id to_id i pages = Some (go, pages') ->
  (slot_empty (page_data (page_at pages from_id)) i = true /\
   go = true /\ pages' = pages) \/
  (slot_empty (page_data (page_at pages from_id)) i = false /\
   go = false /\ pages' = pages) \/
  (slot_empty (page_data (page_at pages from_id)) i = false /\
   go = true /\
   exists d1, pages' = move_commit from_id to_id i d1
                (metadata_size (page_at pages to_id))
                (slot_length (page_data (page_at pages from_id)) i) pages).
Proof.
  unfold move_slot.
  destruct (slot_empty (page_data (page_at pages from_id)) i);
    [intros [= <- <-]; now left |].
  destruct (PAGE_SIZE <=? _); [intros [= <- <-]; right; now left |].
  destruct (Mem.read _ _ _) as [bytes |]; [| discriminate].
  cbn [mbind option_bind].
  destruct (Mem.write _ _ _) as [d1 |]; [| discriminate].
  cbn [mbind option_bind]. intros [= <- <-]. right. right.
  split; [reflexivity |]. split; [reflexivity |]. eexists. reflexivity.
Qed.

Lemma move_slot_other from_id to_id i pages go pages' id :
  move_slot from_id to_id i pages = Some (go, pages') ->
  id <> from_id -> id <> to_id -> page_at pages' id = page_at pages id.
Proof.
  intros Hs Hf Ht.
  destruct (move_slot_cases _ _ _ _ _ _ Hs)
    as [(_ & _ & ->) | [(_ & _ & ->) | (_ & _ & d1 & ->)]];
    [reflexivity | reflexivity |].
  now apply move_commit_pages.
Qed.

Lemma move_loop_other from_id to_id id : forall idx pages go pages',
  move_loop from_id to_id idx pages = Some (go, pages') ->
  id <> from_id -> id <> to_id -> page_at pages' id = page_at pages id.
Proof.
  induction idx as [| i idx IH]; intros pages go pages'; cbn [move_loop].
  - now intros [= <- <-].
  - destruct (move_slot from_id to_id i pages) as [[g q] |] eqn:Hs;
      [| discriminate].
    cbn [mbind option_bind]. intros Hl Hf Ht.
    rewrite <- (move_slot_other _ _ _ _ _ _ id Hs Hf Ht).
    destruct g; [now apply (IH q go) | now injection Hl as <- <-].
Qed.

(** The source page of a move between two pages: a round that goes on
    clears the flag of its slot and writes nothing else of that page. *)
Lemma move_slot_from from_id to_id i pages pages' :
  from_id <> to_id ->
  move_slot from_id to_id i pages = Some (true, pages') ->
  page_at pages' from_id = page_at pages from_id \/
  page_at pages' from_id
  = mkPage (set_slot_empty (page_data (page_at pages from_id)) i true)
           (metadata_size (page_at pages from_id)).
Proof.
  intros Hne Hs.
  destruct (move_slot_cases _ _ _ _ _ _ Hs)
    as [(_ & _ & ->) | [(_ & _ & ->) | (_ & _ & d1 & ->)]];
    [now left | now left |].
  right. now apply move_commit_pages.
Qed.

Lemma move_slot_from_empty from_id to_id i pages pages' :
  from_id <> to_id -> 0 <= i < MAX_SLOTS ->
  Z.of_nat (length (page_data (page_at pages from_id))) = PAGE_SIZE ->
  move_slot from_id to_id i pages = Some (true, pages') ->
  slot_empty (page_data (page_at pages' from_id)) i = true.
Proof.
  intros Hne Hi Hlen Hs.
  destruct (move_slot_cases _ _ _ _ _ _ Hs)
    as [(He & _ & ->) | [(_ & [=] & _) | (_ & _ & d1 & ->)]].
  - exact He.
  - destruct (move_commit_pages from_id to_id i d1
      (metadata_size (page_at pages to_id))
      (slot_length (page_data (page_at pages from_id)) i) pages)
      as (_ & Hf & _).
    rewrite (Hf Hne). cbn [page_data].
    pose proof (get_slot_set_empty (page_data (page_at pages from_id)) i true
      ltac:(lia) ltac:(unfold_consts; lia)) as H.
    now apply get_slot_mk in H as (-> & _ & _).
Qed.

(** After a loop that ran to its end, the source page has the slots of
    [idx] empty, the empty ones still empty, and the rest of the buffer and
    [metadata_size] as before. *)
Lemma move_loop_from from_id to_id : forall idx pages pages',
  from_id <> to_id ->
  Z.of_nat (length (page_data (page_at pages from_id))) = PAGE_SIZE ->
  Forall (fun i => 0 <= i < MAX_SLOTS) idx ->
  move_loop from_id to_id idx pages = Some (true, pages') ->
  length (page_data (page_at pages' from_id))
    = length (page_data (page_at pages from_id)) /\
  metadata_size (page_at pages' from_id)
    = metadata_size (page_at pages from_id) /\
  (forall k, k ∈ idx -> slot_empty (page_data (page_at pages' from_id)) k = true) /\
  (forall k, 0 <= k < MAX_SLOTS ->
     slot_empty (page_data (page_at pages from_id)) k = true ->
     slot_empty (page_data (page_at pages' from_id)) k = true) /\
  agree directory_size PAGE_SIZE
    (page_data (page_at pages' from_id)) (page_data (page_at pages from_id)).
Proof.
  induction idx as [| i idx IH]; intros pages pages' Hne Hlen Hidx;
    cbn [move_loop].
  - intros [= <-]. split; [reflexivity |]. split; [reflexivity |].
    split; [intros k Hk; inversion Hk |]. split; [auto |]. apply agree_refl.
  - apply Forall_cons in Hidx as [Hi Hidx].
    destruct (move_slot from_id to_id i pages) as [[g q] |] eqn:Hs;
      [| discriminate].
    cbn [mbind option_bind]. destruct g; [| discriminate].
    intros Hl.
    pose proof (move_slot_from_empty _ _ _ _ _ Hne Hi Hlen Hs) as Hei.
    assert (Hq : length (page_data (page_at q from_id))
                 = length (page_data (page_at pages from_id)) /\
                 metadata_size (page_at q from_id)
                 = metadata_size (page_at pages from_id) /\
                 (forall k, 0 <= k < MAX_SLOTS ->
                    slot_empty (page_data (page_at pages from_id)) k = true ->
                    slot_empty (page_data (page_at q from_id)) k = true) /\
                 agree directory_size PAGE_SIZE
                   (page_data (page_at q from_id))
                   (page_data (page_at pages from_id))).
    { destruct (move_slot_from _ _ _ _ _ Hne Hs) as [-> | ->].
      - split; [reflexivity |]. split; [reflexivity |]. split; [auto |].
        apply agree_refl.
      - cbn [page_data metadata_size]. rewrite length_set_slot_empty.
        split; [reflexivity |]. split; [reflexivity |]. split.
        + intros k Hk He. destruct (decide (k = i)) as [-> | Hki].
          * pose proof (get_slot_set_empty (page_data (page_at pages from_id))
              i true ltac:(lia) ltac:(unfold_consts; lia)) as H.
            now apply get_slot_mk in H as (-> & _ & _).
          * pose proof (get_slot_set_empty_other
              (page_data (page_at pages from_id)) i k true
              ltac:(lia) ltac:(lia) ltac:(lia)) as H.
            apply get_slot_eq in H as (-> & _ & _). assumption.
        + apply agree_set_slot_empty; unfold_consts; lia. }
    destruct Hq as (Hlq & Hmq & Heq & Hagq).
    destruct (IH q pages' Hne ltac:(lia) Hidx Hl) as (Hl' & Hm' & Hin & He' & Hag').
    split; [lia |]. split; [lia |]. split; [| split].
    + intros k Hk. apply elem_of_cons in Hk as [-> | Hk].
      * apply He'; assumption.
      * apply Hin. assumption.
    + intros k Hk He. apply He'; [assumption |]. apply Heq; assumption.
    + eapply agree_trans; eassumption.
Qed.

(** The loops over a directory without an occupied slot. *)
Lemma compact_loop_empty d : forall idx new_offset,
  (forall k, k ∈ idx -> slot_empty d k = true) ->
  compact_loop idx new_offset d = Some d.
Proof.
  induction idx as [| i idx IH]; intros new_offset He; [reflexivity |].
  cbn [compact_loop]. rewrite (He i) by left.
  apply IH. intros k Hk. apply He. now right.
Qed.

Lemma print_loop_empty d : forall idx,
  (forall k, k ∈ idx -> slot_empty d k = true) ->
  print_loop idx d = Some [].
Proof.
  induction idx as [| i idx IH]; intros He; [reflexivity |].
  cbn [print_loop]. rewrite (He i) by left.
  apply IH. intros k Hk. apply He. now right.
Qed.

(** The loop of a move between two well-formed pages is defined. *)
Lemma move_loop_defined from_id to_id : forall idx pages,
  store_inv pages -> Forall (fun i => 0 <= i < MAX_SLOTS) idx ->
  exists go pages', move_loop from_id to_id idx pages = Some (go, pages').
Proof.
  induction idx as [| i idx IH]; intros pages Hinv Hidx; cbn [move_loop];
    [eauto |].
  apply Forall_cons in Hidx as [Hi Hidx].
  assert (Hs : exists g q, move_slot from_id to_id i pages = Some (g, q)).
  { destruct (slot_empty (page_data (page_at pages from_id)) i) eqn:He.
    { unfold move_slot. rewrite He. eauto. }
    destruct (Z.leb_spec PAGE_SIZE
      (metadata_size (page_at pages to_id)
       + slot_length (page_data (page_at pages from_id)) i)) as [Hfull | Hroom].
    { rewrite move_slot_no_room by assumption. eauto. }
    destruct (move_slot_copy from_id to_id i pages (Hinv from_id)
                (Hinv to_id) Hi He Hroom) as (bytes & d1 & _ & _ & -> & _).
    eauto. }
  destruct Hs as (g & q & Hs). rewrite Hs. cbn [mbind option_bind].
  destruct g; [| eauto].
  apply IH; [| assumption]. eapply move_slot_inv; eassumption.
Qed.

(** The source page after the loop of a move between two pages ran to its
    end. *)
Lemma move_loop_drained from_id to_id pages pages1 :
  store_inv pages -> from_id <> to_id ->
  move_loop from_id to_id slot_indices
    (load to_id (load from_id pages)) = Some (true, pages1) ->
  (forall k, k ∈ slot_indices ->
     slot_empty (page_data (page_at pages1 from_id)) k = true) /\
  metadata_size (page_at pages1 from_id)
  = metadata_size (page_at pages from_id) /\
  agree directory_size PAGE_SIZE (page_data (page_at pages1 from_id))
    (page_data (page_at pages from_id)).
Proof.
  intros Hinv Hne Hloop.
  destruct (Hinv from_id) as (Hlen & _).
  rewrite <- (page_at_load from_id pages from_id) in Hlen.
  rewrite <- (page_at_load to_id (load from_id pages) from_id) in Hlen.
  pose proof (move_loop_from from_id to_id slot_indices
                (load to_id (load from_id pages)) pages1 Hne Hlen
                slot_indices_range Hloop) as (_ & Hm & Hin & _ & Hag).
  rewrite !page_at_load in Hm, Hag.
  split; [exact Hin |]. split; [exact Hm | exact Hag].
Qed.

End StoreFacts.

(** X1. Every store reached from the empty store by inserts, deletes,
    compactions and moves, as far as these are defined, holds only
    well-formed pages: a buffer of [PAGE_SIZE] bytes, a [metadata_size] of
    at least the directory's size, and every occupied slot of the directory
    pointing into the data region and ending inside the buffer. *)
Theorem X1_store_invariant (scs : list store_call)
    (pages : gmap Z SlottedPage) :
  do_store_calls scs ∅ = Some pages -> store_inv pages.
Proof.
  apply StoreFacts.do_store_calls_inv. apply StoreFacts.store_inv_empty.
Qed.

Lemma X1_witness :
  exists pages,
    do_store_calls [OnPage 0 (Insert (mkTuple [1; 2]) zeros); Move 0 1] ∅
      = Some pages /\
    store_inv pages.
Proof.
  assert (Hrun : exists pages,
    do_store_calls [OnPage 0 (Insert (mkTuple [1; 2]) zeros); Move 0 1] ∅
      = Some pages) by (eexists; vm_compute; reflexivity).
  destruct Hrun as (pages & Hrun). exists pages. split; [exact Hrun |].
  exact (X1_store_invariant _ _ Hrun).
Defined.

(** X2. A move between two different pages of a store of well-formed pages
    is defined: neither [memmove] nor the compaction of the source leaves
    a buffer. *)
Theorem X2_move_defined (from_page_id to_page_id : Z)
    (pages : gmap Z SlottedPage) :
  store_inv pages -> from_page_id <> to_page_id ->
  exists done pages',
    moveTupleAcrossPages from_page_id to_page_id pages = Some (done, pages').
Proof.
  intros Hinv Hne. rewrite MoveFacts.moveTuple_unfold.
  destruct (StoreFacts.move_loop_defined from_page_id to_page_id slot_indices
              (load to_page_id (load from_page_id pages))
              ltac:(now do 2 apply StoreFacts.store_inv_load)
              CompactFacts.slot_indices_range) as (go & pages1 & Hloop).
  rewrite Hloop. cbn [mbind option_bind]. destruct go; [| eauto].
  destruct (StoreFacts.move_loop_drained _ _ _ _ Hinv Hne Hloop)
    as (He & _ & _).
  rewrite CompactFacts.compactPage_unfold.
  rewrite StoreFacts.compact_loop_empty by exact He.
  cbn [mbind option_bind]. eauto.
Qed.

(** Two records in page 0, moved to page 1. *)
Lemma X2_witness :
  exists p done pages',
    do_calls [Insert (mkTuple [7]) zeros; Insert (mkTuple [8; 9]) zeros]
      SlottedPage_new = Some p /\
    get_slot (page_data p) 0 = Slot.mk false 3072 4 /\
    get_slot (page_data p) 1 = Slot.mk false 3076 8 /\
    moveTupleAcrossPages 0 1 (<[0 := p]> ∅) = Some (done, pages').
Proof.
  assert (Hrun : exists p,
    do_calls [Insert (mkTuple [7]) zeros; Insert (mkTuple [8; 9]) zeros]
      SlottedPage_new = Some p /\
    get_slot (page_data p) 0 = Slot.mk false 3072 4 /\
    get_slot (page_data p) 1 = Slot.mk false 3076 8).
  { eexists. eval_conj. }
  destruct Hrun as (p & Hrun & Hs0 & Hs1).
  assert (Hinv : store_inv (<[0 := p]> ∅)).
  { apply StoreFacts.store_inv_insert; [apply StoreFacts.store_inv_empty |].
    exact (CallFacts.do_calls_inv _ _ _ FreshFacts.SlottedPage_new_inv Hrun). }
  destruct (X2_move_defined 0 1 (<[0 := p]> ∅) Hinv) as (done & pages' & Hm);
    [discriminate |].
  exists p, done, pages'. split; [exact Hrun |]. split; [exact Hs0 |].
  split; [exact Hs1 | exact Hm].
Defined.

(** X3. A move between two different pages that answers true leaves the
    source page without an occupied slot - it prints nothing - with its
    [metadata_size] and the bytes of its data region as before the call. *)
Theorem X3_move_drains_source (from_page_id to_page_id : Z)
    (pages pages' : gmap Z SlottedPage) :
  store_inv pages -> from_page_id <> to_page_id ->
  moveTupleAcrossPages from_page_id to_page_id pages = Some (true, pages') ->
  (forall i, 0 <= i < MAX_SLOTS ->
     slot_empty (page_data (page_at pages' from_page_id)) i = true) /\
  print (page_at pages' from_page_id) = Some [] /\
  metadata_size (page_at pages' from_page_id)
  = metadata_size (page_at pages from_page_id) /\
  agree directory_size PAGE_SIZE
    (page_data (page_at pages' from_page_id))
    (page_data (page_at pages from_page_id)).
Proof.
  intros Hinv Hne. rewrite MoveFacts.moveTuple_unfold.
  destruct (move_loop from_page_id to_page_id slot_indices
              (load to_page_id (load from_page_id pages)))
    as [[done pages1] |] eqn:Hloop; [| discriminate].
  cbn [mbind option_bind]. destruct done; [| discriminate].
  destruct (StoreFacts.move_loop_drained _ _ _ _ Hinv Hne Hloop)
    as (He & Hm & Hag).
  rewrite CompactFacts.compactPage_unfold.
  rewrite StoreFacts.compact_loop_empty by exact He.
  cbn [mbind option_bind]. intros [= <-].
  rewrite MoveFacts.page_at_insert_eq. cbn [page_data metadata_size].
  split; [| split; [| split; assumption]].
  - intros i Hi. apply He. now apply PrintFacts.elem_of_slot_indices.
  - rewrite PrintFacts.print_unfold. cbn [page_data].
    now apply StoreFacts.print_loop_empty.
Qed.

Lemma X3_witness :
  exists p pages',
    do_calls [Insert (mkTuple [7]) zeros] SlottedPage_new = Some p /\
    moveTupleAcrossPages 0 1 (<[0 := p]> ∅) = Some (true, pages') /\
    print (page_at pages' 0) = Some [].
Proof.
  assert (Hrun : exists p pages',
    do_calls [Insert (mkTuple [7]) zeros] SlottedPage_new = Some p /\
    moveTupleAcrossPages 0 1 (<[0 := p]> ∅) = Some (true, pages')).
  { eexists. eexists. eval_conj. }
  destruct Hrun as (p & pages' & Hrun & Hmove).
  assert (Hinv : store_inv (<[0 := p]> ∅)).
  { apply StoreFacts.store_inv_insert; [apply StoreFacts.store_inv_empty |].
    exact (CallFacts.do_calls_inv _ _ _ FreshFacts.SlottedPage_new_inv Hrun). }
  exists p, pages'. split; [exact Hrun |]. split; [exact Hmove |].
  pose proof (X3_move_drains_source 0 1 _ pages' Hinv) as H.
  destruct H as (_ & Hprint & _); [discriminate | exact Hmove | exact Hprint].
Defined.

(** X4. A move writes no page but its source and its destination: every
    other page of the store is after the call what it was before, whatever
    the call answers. *)
Theorem X4_move_frame (from_page_id to_page_id page_id : Z) (done : bool)
    (pages pages' : gmap Z SlottedPage) :
  moveTupleAcrossPages from_page_id to_page_id pages = Some (done, pages') ->
  page_id <> from_page_id -> page_id <> to_page_id ->
  page_at pages' page_id = page_at pages page_id.
Proof.
  rewrite MoveFacts.moveTuple_unfold.
  destruct (move_loop from_page_id to_page_id slot_indices
              (load to_page_id (load from_page_id pages)))
    as [[d pages1] |] eqn:Hloop; [| discriminate].
  cbn [mbind option_bind]. intros Hm Hf Ht.
  pose proof (StoreFacts.move_loop_other _ _ page_id _ _ _ _ Hloop Hf Ht)
    as Hother.
  rewrite !MoveFacts.page_at_load in Hother.
  destruct d.
  - destruct (compactPage (page_at pages1 from_page_id)) as [p |];
      [| discriminate].
    cbn [mbind option_bind] in Hm. injection Hm as _ <-.
    rewrite MoveFacts.page_at_insert_ne by assumption. exact Hother.
  - injection Hm as _ <-. exact Hother.
Qed.

Lemma X4_witness :
  exists done pages',
    moveTupleAcrossPages 0 1
      (<[2 := mkPage (page_data SlottedPage_new) 4000]> ∅)
      = Some (done, pages') /\
    page_at pages' 2 = mkPage (page_data SlottedPage_new) 4000.
Proof.
  assert (Hrun : exists done pages',
    moveTupleAcrossPages 0 1
      (<[2 := mkPage (page_data SlottedPage_new) 4000]> ∅)
      = Some (done, pages'))
    by (eexists; eexists; vm_compute; reflexivity).
  destruct Hrun as (done & pages' & Hmove). exists done, pages'.
  split; [exact Hmove |].
  rewrite (X4_move_frame 0 1 2 done _ pages' Hmove); [| discriminate ..].
  reflexivity.
Defined.

(** ** print and deleteTuple *)

Module PrintMore.
Import MemFacts SlotFacts AddFacts PrintFacts CompactFacts CallFacts.

Lemma print_loop_keys d : forall idx out,
  print_loop idx d = Some out ->
  out.*1 = filter (λ i, slot_empty d i = false) idx.
Proof.
  induction idx as [| i idx IH]; intros out; cbn [print_loop].
  - intros [= <-]. reflexivity.
  - destruct (slot_empty d i) eqn:He.
    + intros Hout. rewrite filter_cons_False by congruence. now apply IH.
    + destruct (Mem.read d (slot_offset d i) (slot_length d i))
        as [bytes |]; [| discriminate].
      cbn [mbind option_bind].
      destruct (print_loop idx d) as [rest |]; [| discriminate].
      cbn [mbind option_bind]. intros [= <-].
      rewrite filter_cons_True by assumption.
      cbn [fmap list_fmap fst]. f_equal. now apply IH.
Qed.

Lemma print_loop_lines d : forall idx out i fs,
  print_loop idx d = Some out -> (i, fs) ∈ out ->
  exists bytes,
    Mem.read d (slot_offset d i) (slot_length d i) = Some bytes /\
    fs = fields (deserialize bytes).
Proof.
  induction idx as [| j idx IH]; intros out i fs; cbn [print_loop].
  - intros [= <-] Hin. inversion Hin.
  - destruct (slot_empty d j); [apply IH |].
    destruct (Mem.read d (slot_offset d j) (slot_length d j))
      as [bytes |] eqn:Hr; [| discriminate].
    cbn [mbind option_bind].
    destruct (print_loop idx d) as [rest |] eqn:Hrest; [| discriminate].
    cbn [mbind option_bind]. intros [= <-] Hin.
    apply elem_of_cons in Hin as [[= -> ->] | Hin]; [eauto |].
    eapply IH; [reflexivity | exact Hin].
Qed.

Lemma print_loop_app d : forall idx1 idx2,
  print_loop (idx1 ++ idx2) d =
  out1 ← print_loop idx1 d; out2 ← print_loop idx2 d; Some (out1 ++ out2).
Proof.
  induction idx1 as [| i idx1 IH]; intros idx2; cbn [app print_loop].
  - cbn [mbind option_bind]. now destruct (print_loop idx2 d).
  - destruct (slot_empty d i); [apply IH |].
    destruct (Mem.read d (slot_offset d i) (slot_length d i)) as [bytes |];
      [| reflexivity].
    cbn [mbind option_bind]. rewrite IH.
    destruct (print_loop idx1 d) as [out1 |]; [| reflexivity].
    cbn [mbind option_bind].
    now destruct (print_loop idx2 d).
Qed.

(** Clearing the flag of slot [i] takes the line of [i] out of the print
    and changes no other line. *)
Lemma print_loop_clear d i : forall idx out,
  Z.of_nat (length d) = PAGE_SIZE -> 0 <= i < MAX_SLOTS ->
  Forall (fun k => 0 <= k < MAX_SLOTS) idx ->
  (forall k, 0 <= k < MAX_SLOTS -> in_data_region d k) ->
  print_loop idx d = Some out ->
  print_loop idx (set_slot_empty d i true)
  = Some (filter (λ e, e.1 <> i) out).
Proof.
  intros idx out Hlen Hi Hidx Hreg. revert out Hidx.
  induction idx as [| j idx IH]; intros out Hidx; cbn [print_loop].
  - intros [= <-]. reflexivity.
  - apply Forall_cons in Hidx as [Hj Hidx].
    destruct (decide (j = i)) as [-> | Hne].
    + pose proof (get_slot_set_empty d i true ltac:(lia)
        ltac:(unfold_consts; lia)) as H.
      apply get_slot_mk in H as (-> & _ & _).
      destruct (slot_empty d i).
      * now apply IH.
      * destruct (Mem.read d (slot_offset d i) (slot_length d i))
          as [bytes |]; [| discriminate].
        cbn [mbind option_bind].
        destruct (print_loop idx d) as [rest |]; [| discriminate].
        cbn [mbind option_bind]. intros [= <-].
        rewrite filter_cons_False by (cbn; intros H; now apply H).
        now apply IH.
    + pose proof (get_slot_set_empty_other d i j true ltac:(lia) ltac:(lia)
        ltac:(congruence)) as H.
      apply get_slot_eq in H as (-> & -> & ->).
      destruct (slot_empty d j) eqn:He; [now apply IH |].
      destruct (Hreg j Hj He) as [Ho Hend].
      pose proof (slot_length_range d j) as Hl.
      assert (Hread : Mem.read (set_slot_empty d i true) (slot_offset d j)
                        (slot_length d j)
                      = Mem.read d (slot_offset d j) (slot_length d j)).
      { apply read_agree; [apply length_set_slot_empty |].
        apply agree_set_slot_empty; unfold_consts; lia. }
      rewrite Hread.
      destruct (Mem.read d (slot_offset d j) (slot_length d j))
        as [bytes |]; [| discriminate].
      cbn [mbind option_bind].
      destruct (print_loop idx d) as [rest |]; [| discriminate].
      cbn [mbind option_bind]. intros [= <-].
      rewrite (IH rest Hidx eq_refl). cbn [mbind option_bind].
      rewrite filter_cons_True by (cbn; congruence). reflexivity.
Qed.

Lemma filter_keys_id (out : list (Z * list Z)) (i : Z) :
  i ∉ out.*1 -> filter (λ e, e.1 <> i) out = out.
Proof.
  induction out as [| e out IH]; intros Hni; [reflexivity |].
  cbn [fmap list_fmap] in Hni. apply not_elem_of_cons in Hni as [Hne Hni].
  rewrite filter_cons_True by congruence. now rewrite IH.
Qed.

End PrintMore.

(** X5. [print] shows one line for every occupied slot of the directory and
    none for an empty one, in ascending slot order, and the fields of a
    line are those read back from the bytes the slot's entry points to. *)
Theorem X5_print_lines (p : SlottedPage) (out : list (Z * list Z)) :
  print p = Some out ->
  out.*1 = occupied_slots p /\
  (forall i fs, (i, fs) ∈ out ->
     exists bytes,
       Mem.read (page_data p) (slot_offset (page_data p) i)
         (slot_length (page_data p) i) = Some bytes /\
       fs = fields (deserialize bytes)).
Proof.
  rewrite PrintFacts.print_unfold. intros Hout. split.
  - now apply PrintMore.print_loop_keys.
  - intros i fs. apply PrintMore.print_loop_lines with (idx := slot_indices).
    exact Hout.
Qed.

Lemma X5_witness :
  exists p out,
    do_calls [Insert (mkTuple [4; 5]) zeros; Insert (mkTuple [6]) zeros;
              Delete 0%N] SlottedPage_new = Some p /\
    print p = Some out /\ out.*1 = occupied_slots p /\ out.*1 = [1].
Proof.
  assert (Hrun : exists p out,
    do_calls [Insert (mkTuple [4; 5]) zeros; Insert (mkTuple [6]) zeros;
              Delete 0%N] SlottedPage_new = Some p /\
    print p = Some out /\ out.*1 = [1]).
  { eexists. eexists. eval_conj. }
  destruct Hrun as (p & out & Hrun & Hprint & Hkeys).
  exists p, out. split; [exact Hrun |]. split; [exact Hprint |].
  split; [exact (proj1 (X5_print_lines p out Hprint)) | exact Hkeys].
Defined.

(** X6. Deleting a slot takes its line out of the print of a well-formed
    page and leaves every other line as it was; a delete of an empty slot
    or of an index past the directory changes no line. *)
Theorem X6_delete_then_print (index : N) (p : SlottedPage)
    (out : list (Z * list Z)) :
  page_inv p -> print p = Some out ->
  print (deleteTuple index p)
  = Some (filter (λ e, e.1 <> Z.of_N index) out).
Proof.
  intros (Hlen & _ & Hreg). rewrite !PrintFacts.print_unfold. intros Hout.
  unfold deleteTuple.
  destruct (Z.ltb_spec (Z.of_N index) MAX_SLOTS) as [Hlt | Hge];
    cbn [andb].
  - destruct (slot_empty (page_data p) (Z.of_N index)) eqn:He; cbn [negb].
    + rewrite PrintMore.filter_keys_id; [assumption |].
      rewrite (PrintMore.print_loop_keys _ _ _ Hout).
      rewrite list_elem_of_filter. intros [Hocc _]. congruence.
    + cbn [page_data]. apply PrintMore.print_loop_clear; try assumption;
        [lia | apply CompactFacts.slot_indices_range].
  - rewrite PrintMore.filter_keys_id; [assumption |].
    rewrite (PrintMore.print_loop_keys _ _ _ Hout).
    rewrite list_elem_of_filter, PrintFacts.elem_of_slot_indices. lia.
Qed.

Lemma X6_witness :
  exists p,
    do_calls [Insert (mkTuple [4; 5]) zeros; Insert (mkTuple [6]) zeros]
      SlottedPage_new = Some p /\
    print p = Some [(0, [4; 5]); (1, [6])] /\
    print (deleteTuple 0 p) = Some [(1, [6])].
Proof.
  assert (Hrun : exists p,
    do_calls [Insert (mkTuple [4; 5]) zeros; Insert (mkTuple [6]) zeros]
      SlottedPage_new = Some p /\
    print p = Some [(0, [4; 5]); (1, [6])]).
  { eexists. eval_conj. }
  destruct Hrun as (p & Hrun & Hprint).
  exists p. split; [exact Hrun |]. split; [exact Hprint |].
  pose proof (CallFacts.do_calls_inv _ _ _ FreshFacts.SlottedPage_new_inv Hrun)
    as Hinv.
  exact (X6_delete_then_print 0 p _ Hinv Hprint).
Defined.

(** ** compactPage, once more *)

Module PackedFacts.
Import MemFacts SlotFacts AddFacts PrintFacts CompactFacts CallFacts.

(** A pass writes no entry of a slot it does not visit. *)
Lemma compact_loop_others : forall idx new_offset d d',
  Z.of_nat (length d) = PAGE_SIZE ->
  Forall (fun i => 0 <= i < MAX_SLOTS) idx ->
  directory_size <= new_offset ->
  (forall j, 0 <= j < MAX_SLOTS -> in_data_region d j) ->
  compact_loop idx new_offset d = Some d' ->
  forall j, 0 <= j < MAX_SLOTS -> j ∉ idx -> get_slot d' j = get_slot d j.
Proof.
  induction idx as [| i idx IH]; intros new_offset d d' Hlen Hidx Hdir Hreg.
  - intros [= <-]. reflexivity.
  - apply Forall_cons in Hidx as [Hi Hidx]. cbn [compact_loop].
    destruct (slot_empty d i) eqn:He.
    { intros Hloop j Hj Hni. apply not_elem_of_cons in Hni as [_ Hni].
      now apply (IH new_offset d d'). }
    destruct (compact_slot i new_offset d) as [d1 |] eqn:Hs; [| discriminate].
    cbn [mbind option_bind]. intros Hloop j Hj Hni.
    apply not_elem_of_cons in Hni as [Hne Hni].
    destruct (compact_slot_spec d i new_offset d1 Hlen Hi Hdir (Hreg i Hi)
                He Hs) as (Hl1 & Hother & Hself & Hfit & _).
    pose proof (slot_length_range d i) as Hlr.
    assert (Hreg1 : forall k, 0 <= k < MAX_SLOTS -> in_data_region d1 k).
    { intros k Hk. destruct (decide (k = i)) as [-> | Hki].
      - apply get_slot_mk in Hself as (_ & E2 & E3). intros _.
        rewrite E2, E3. lia.
      - destruct (get_slot_eq _ _ _ _ (Hother k Hk Hki)) as (E1 & E2 & E3).
        unfold in_data_region. rewrite E1, E2, E3. now apply Hreg. }
    rewrite (IH (new_offset + slot_length d i) d1 d' ltac:(lia) Hidx
               ltac:(lia) Hreg1 Hloop j Hj Hni).
    now apply Hother.
Qed.

Lemma packed_from_ext d d' : forall idx lo,
  (forall j, j ∈ idx -> get_slot d' j = get_slot d j) ->
  packed_from idx lo d -> packed_from idx lo d'.
Proof.
  induction idx as [| i idx IH]; intros lo Hs; cbn [packed_from]; [auto |].
  destruct (get_slot_eq _ _ _ _ (Hs i ltac:(left))) as (-> & -> & ->).
  assert (Hs' : forall j, j ∈ idx -> get_slot d' j = get_slot d j)
    by (intros j Hj; apply Hs; now right).
  destruct (slot_empty d i); [now apply IH |].
  intros [Hlo Hrest]. split; [assumption | now apply IH].
Qed.

(** A pass leaves the slots it visited packed from where it started. *)
Lemma compact_loop_packed : forall idx new_offset d d',
  Z.of_nat (length d) = PAGE_SIZE ->
  Forall (fun i => 0 <= i < MAX_SLOTS) idx -> NoDup idx ->
  directory_size <= new_offset ->
  (forall j, 0 <= j < MAX_SLOTS -> in_data_region d j) ->
  compact_loop idx new_offset d = Some d' ->
  packed_from idx new_offset d'.
Proof.
  induction idx as [| i idx IH];
    intros new_offset d d' Hlen Hidx Hnd Hdir Hreg Hloop;
    [exact I |].
  pose proof (compact_loop_inv _ _ _ _ Hlen Hidx Hdir Hreg Hloop)
    as (_ & _ & Hkeep).
  apply Forall_cons in Hidx as [Hi Hidx].
  apply NoDup_cons in Hnd as [Hni Hnd].
  destruct (Hkeep i Hi) as (K1 & K2 & _).
  revert Hloop. cbn [compact_loop packed_from]. rewrite K1.
  destruct (slot_empty d i) eqn:He; [now apply IH |].
  destruct (compact_slot i new_offset d) as [d1 |] eqn:Hs; [| discriminate].
  cbn [mbind option_bind]. intros Hloop.
  destruct (compact_slot_spec d i new_offset d1 Hlen Hi Hdir (Hreg i Hi)
              He Hs) as (Hl1 & Hother & Hself & Hfit & _).
  pose proof (slot_length_range d i) as Hlr.
  assert (Hreg1 : forall k, 0 <= k < MAX_SLOTS -> in_data_region d1 k).
  { intros k Hk. destruct (decide (k = i)) as [-> | Hki].
    - apply get_slot_mk in Hself as (_ & E2 & E3). intros _.
      rewrite E2, E3. lia.
    - destruct (get_slot_eq _ _ _ _ (Hother k Hk Hki)) as (E1 & E2 & E3).
      unfold in_data_region. rewrite E1, E2, E3. now apply Hreg. }
  pose proof (compact_loop_others idx (new_offset + slot_length d i) d1 d'
    ltac:(lia) Hidx ltac:(lia) Hreg1 Hloop i Hi Hni) as Hsame.
  rewrite Hself in Hsame. apply get_slot_mk in Hsame as (_ & E2 & _).
  split; [exact E2 |]. rewrite K2.
  apply (IH (new_offset + slot_length d i) d1 d'); try assumption; lia.
Qed.

(** A pass over packed slots finds every record in place. *)
Lemma packed_fixed d : forall idx new_offset,
  packed_from idx new_offset d -> compact_loop idx new_offset d = Some d.
Proof.
  induction idx as [| i idx IH]; intros new_offset; cbn [packed_from compact_loop];
    [reflexivity |].
  destruct (slot_empty d i); [apply IH |].
  intros [Ho Hrest]. unfold compact_slot. rewrite Ho, Z.eqb_refl.
  cbn [mbind option_bind]. now apply IH.
Qed.

Lemma packed_ordered d : forall idx lo,
  Forall (fun i => 0 <= i < MAX_SLOTS) idx ->
  (forall j, 0 <= j < MAX_SLOTS -> in_data_region d j) ->
  lo <= PAGE_SIZE ->
  packed_from idx lo d -> ordered_from idx lo d.
Proof.
  induction idx as [| i idx IH]; intros lo Hidx Hreg Hlo;
    cbn [packed_from ordered_from]; [auto |].
  apply Forall_cons in Hidx as [Hi Hidx].
  destruct (slot_empty d i) eqn:He; [now apply IH |].
  intros [Ho Hrest]. destruct (Hreg i Hi He) as [_ Hend].
  split; [lia |]. rewrite Ho. apply IH; try assumption. lia.
Qed.

End PackedFacts.

(** X7. What [compactPage] returns for a well-formed page is packed: its
    occupied slots lie back to back from [metadata_size] on, in directory
    order, without overlap and inside the buffer; and a second compaction
    is defined and changes nothing. *)
Theorem X7_compact_idempotent (p p' : SlottedPage) :
  page_inv p -> metadata_size p <= PAGE_SIZE -> compactPage p = Some p' ->
  packed_from slot_indices (metadata_size p') (page_data p') /\
  ordered_layout p' /\
  compactPage p' = Some p'.
Proof.
  intros (Hlen & Hmeta & Hreg) Hm. rewrite CompactFacts.compactPage_unfold.
  destruct (compact_loop slot_indices (metadata_size p) (page_data p))
    as [d' |] eqn:Hloop; [| discriminate].
  cbn [mbind option_bind]. intros [= <-]. cbn [page_data metadata_size].
  pose proof (PackedFacts.compact_loop_packed _ _ _ _ Hlen
    CompactFacts.slot_indices_range (NoDup_seqZ _ _) Hmeta Hreg Hloop)
    as Hpacked.
  pose proof (CompactFacts.compact_loop_inv _ _ _ _ Hlen
    CompactFacts.slot_indices_range Hmeta Hreg Hloop) as (Hl' & Hreg' & _).
  split; [exact Hpacked |]. split.
  - split; [cbn [page_data]; lia |]. split; [exact Hmeta |].
    cbn [page_data metadata_size].
    apply PackedFacts.packed_ordered;
      [apply CompactFacts.slot_indices_range | exact Hreg' | exact Hm
      | exact Hpacked].
  - rewrite CompactFacts.compactPage_unfold. cbn [page_data metadata_size].
    rewrite (PackedFacts.packed_fixed _ _ _ Hpacked). reflexivity.
Qed.

Lemma X7_witness :
  exists p p',
    do_calls [Insert (mkTuple [10]) zeros; Insert (mkTuple [20]) zeros;
              Delete 0%N] SlottedPage_new = Some p /\
    compactPage p = Some p' /\
    slot_offset (page_data p) 1 = 3076 /\
    slot_offset (page_data p') 1 = 3072 /\
    compactPage p' = Some p'.
Proof.
  assert (Hrun : exists p p',
    do_calls [Insert (mkTuple [10]) zeros; Insert (mkTuple [20]) zeros;
              Delete 0%N] SlottedPage_new = Some p /\
    compactPage p = Some p' /\
    slot_offset (page_data p) 1 = 3076 /\
    slot_offset (page_data p') 1 = 3072 /\
    metadata_size p <= PAGE_SIZE).
  { eexists. eexists. split; [vm_compute; reflexivity |].
    split; [vm_compute; reflexivity |].
    split; [vm_compute; reflexivity |].
    split; [vm_compute; reflexivity | vm_compute; discriminate]. }
  destruct Hrun as (p & p' & Hrun & Hc & Ho & Ho' & Hm).
  exists p, p'. split; [exact Hrun |]. split; [exact Hc |].
  split; [exact Ho |]. split; [exact Ho' |].
  pose proof (CallFacts.do_calls_inv _ _ _ FreshFacts.SlottedPage_new_inv Hrun)
    as Hinv.
  exact (proj2 (proj2 (X7_compact_idempotent p p' Hinv Hm Hc))).
Defined.

(** ** Runs of inserts *)

Module AppendFacts.
Import Mem MemFacts SlotFacts AddFacts PrintFacts CompactFacts CallFacts.

Lemma total_size_app ts1 ts2 :
  total_size (ts1 ++ ts2) = total_size ts1 + total_size ts2.
Proof.
  induction ts1 as [| tp ts1 IH]; [reflexivity |].
  change (getSize tp.1 + total_size (ts1 ++ ts2)
          = getSize tp.1 + total_size ts1 + total_size ts2).
  rewrite IH. lia.
Qed.

Lemma total_size_cons tp ts :
  total_size (tp :: ts) = getSize tp.1 + total_size ts.
Proof. reflexivity. Qed.

Lemma total_size_nonneg ts : 0 <= total_size ts.
Proof.
  induction ts as [| tp ts IH]; [cbn; lia |].
  rewrite total_size_cons. pose proof (getSize_nonneg tp.1). lia.
Qed.

Lemma start_of_S ts k tp :
  ts !! k = Some tp -> start_of ts (S k) = start_of ts k + getSize tp.1.
Proof.
  intros Hk. unfold start_of. rewrite (take_S_r _ _ _ Hk), total_size_app.
  rewrite total_size_cons. cbn [total_size foldr]. lia.
Qed.

Lemma start_of_le ts k k' :
  (k <= k')%nat -> start_of ts k <= start_of ts k'.
Proof.
  intros Hle. unfold start_of.
  rewrite <- (take_drop k (take k' ts)), take_take, total_size_app.
  replace (k `min` k')%nat with k by lia.
  pose proof (total_size_nonneg (drop k (take k' ts))). lia.
Qed.

Lemma start_of_app ts ts' k :
  (k <= length ts)%nat -> start_of (ts ++ ts') k = start_of ts k.
Proof. intros Hk. unfold start_of. now rewrite take_app_le. Qed.

Lemma start_of_all ts :
  start_of ts (length ts) = directory_size + total_size ts.
Proof. unfold start_of. now rewrite firstn_all. Qed.

Lemma start_of_ge ts k : directory_size <= start_of ts k.
Proof. unfold start_of. pose proof (total_size_nonneg (take k ts)). lia. Qed.

(** An insert writes the data region only where the record goes. *)
Lemma addTuple_at_agree i sz src p p' :
  addTuple_at i sz src p = Some (true, p') ->
  0 <= i < MAX_SLOTS -> directory_size <= insert_offset p i ->
  Z.of_nat (length src) = sz ->
  agree directory_size (insert_offset p i) (page_data p') (page_data p) /\
  agree (insert_offset p i + sz) PAGE_SIZE (page_data p') (page_data p).
Proof.
  unfold addTuple_at.
  destruct (PAGE_SIZE <=? insert_offset p i + sz); [discriminate |].
  destruct (write (page_data p) (insert_offset p i) src) as [d1 |] eqn:Hw;
    [| discriminate].
  cbn [mbind option_bind]. intros [= <-] Hi Hdir Hsrc. cbn [page_data].
  split.
  - eapply agree_trans;
      [apply agree_set_slot_length; unfold_consts; lia |].
    eapply agree_trans;
      [apply agree_set_slot_offset; unfold_consts; lia |].
    eapply agree_trans;
      [apply agree_set_slot_empty; unfold_consts; lia |].
    eapply agree_write; [exact Hw | unfold_consts; lia | lia].
  - eapply agree_trans;
      [apply agree_set_slot_length; unfold_consts; lia |].
    eapply agree_trans;
      [apply agree_set_slot_offset; unfold_consts; lia |].
    eapply agree_trans;
      [apply agree_set_slot_empty; unfold_consts; lia |].
    eapply agree_write; [exact Hw | unfold_consts; lia | lia].
Qed.

Lemma appended_first_empty ts p :
  appended ts p -> Z.of_nat (length ts) < MAX_SLOTS ->
  first_empty p = Z.of_nat (length ts).
Proof.
  intros (_ & _ & Hocc & Hfree) Hn.
  destruct (first_empty_spec p) as [Hbefore [[Hj He] | [Hj Hall]]].
  - destruct (Z.lt_trichotomy (first_empty p) (Z.of_nat (length ts)))
      as [Hlt | [Heq | Hgt]]; [| assumption |].
    + destruct (lookup_lt_is_Some_2 ts (Z.to_nat (first_empty p))
                  ltac:(lia)) as [tp Htp].
      destruct (Hocc _ _ Htp) as [Hs _].
      rewrite Z2Nat.id in Hs by lia.
      apply get_slot_mk in Hs as (E & _). congruence.
    + specialize (Hbefore (Z.of_nat (length ts)) ltac:(lia) ltac:(lia)).
      rewrite Hfree in Hbefore by lia. discriminate.
  - specialize (Hall (Z.of_nat (length ts)) ltac:(lia)).
    rewrite Hfree in Hall by lia. discriminate.
Qed.

Lemma appended_insert_offset ts p :
  appended ts p ->
  insert_offset p (Z.of_nat (length ts)) = start_of ts (length ts).
Proof.
  intros (_ & Hm & Hocc & _). unfold insert_offset.
  destruct (Z.eqb_spec (Z.of_nat (length ts)) 0) as [Hz | Hnz].
  - destruct ts; [| cbn in Hz; lia]. rewrite Hm. unfold start_of.
    cbn. lia.
  - destruct (lookup_lt_is_Some_2 ts (length ts - 1)%nat ltac:(lia))
      as [tp Htp].
    destruct (Hocc _ _ Htp) as [Hs _].
    replace (Z.of_nat (length ts) - 1) with (Z.of_nat (length ts - 1)) by lia.
    apply get_slot_mk in Hs as (_ & -> & ->).
    rewrite <- (start_of_S _ _ _ Htp). f_equal. lia.
Qed.

Lemma appended_fresh : appended [] SlottedPage_new.
Proof.
  split; [apply FreshFacts.SlottedPage_new_inv |].
  split; [reflexivity |]. split.
  - intros k tp Hk. rewrite lookup_nil in Hk. discriminate.
  - intros k Hk. cbn [length] in Hk.
    pose proof (FreshFacts.fresh_slot k ltac:(lia)) as H.
    now apply get_slot_mk in H as (-> & _).
Qed.

(** One more insert. *)
Lemma appended_snoc ts p t past :
  appended ts p -> Z.of_nat (length ts) < MAX_SLOTS ->
  start_of ts (length ts) + getSize t < PAGE_SIZE ->
  exists p', addTuple past t p = Some (true, p') /\
             appended (ts ++ [(t, past)]) p'.
Proof.
  intros Happ Hn Hfit.
  pose proof (appended_first_empty _ _ Happ Hn) as Hfe.
  pose proof (appended_insert_offset _ _ Happ) as Hio.
  pose proof (start_of_ge ts (length ts)) as Hge.
  pose proof (getSize_nonneg t) as Hsz.
  destruct Happ as (Hinv & Hm & Hocc & Hfree).
  pose proof Hinv as (Hlen & _ & _).
  destruct (addTuple_at_ok p (Z.of_nat (length ts)) (getSize t)
              (read_c_str (serialize t) past (getSize t))
              Hlen ltac:(lia) ltac:(lia) (length_read_c_str _ _ _ Hsz)
              ltac:(lia))
    as (d' & Hadd & Hl' & Hslot & Hother & Hread).
  destruct (addTuple_at_agree _ _ _ _ _ Hadd ltac:(lia) ltac:(lia)
              (length_read_c_str _ _ _ Hsz)) as [Hag _].
  cbn [page_data] in Hag.
  assert (Haddp : addTuple past t p
                  = Some (true, mkPage d' (metadata_size p))).
  { rewrite addTuple_find, Hfe.
    destruct (Z.ltb_spec (Z.of_nat (length ts)) MAX_SLOTS); [| lia].
    exact Hadd. }
  eexists. split; [exact Haddp |].
  split; [eapply addTuple_inv; [exact Hinv | exact Haddp] |].
  split; [exact Hm |]. cbn [page_data]. split.
  - intros k tp Hk.
    destruct (decide (k < length ts)%nat) as [Hlt | Hnlt].
    + rewrite lookup_app_l in Hk by assumption.
      rewrite start_of_app by lia.
      destruct (Hocc _ _ Hk) as [Hs Hr].
      rewrite Hother by lia. split; [exact Hs |].
      rewrite <- Hr. apply read_agree; [assumption |].
      eapply agree_sub; [exact Hag | apply start_of_ge |].
      rewrite Hio, <- (start_of_S _ _ _ Hk). apply start_of_le. lia.
    + pose proof (lookup_lt_Some _ _ _ Hk) as Hb.
      rewrite length_app in Hb. cbn [length] in Hb.
      assert (k = length ts) as -> by lia.
      rewrite list_lookup_middle in Hk by reflexivity.
      injection Hk as <-. rewrite start_of_app by lia. cbn [fst snd].
      rewrite <- Hio. split; [exact Hslot | exact Hread].
  - intros k Hk. rewrite length_app in Hk. cbn [length] in Hk.
    pose proof (Hother k ltac:(lia) ltac:(lia)) as H.
    apply get_slot_eq in H as (-> & _). apply Hfree. lia.
Qed.

(** A run of inserts that fits builds the appended page. *)
Lemma inserts_appended : forall ts,
  Z.of_nat (length ts) <= MAX_SLOTS ->
  directory_size + total_size ts < PAGE_SIZE ->
  exists p, do_calls (inserts ts) SlottedPage_new = Some p /\ appended ts p.
Proof.
  induction ts as [| [t past] ts IH] using rev_ind; intros Hn Hfit.
  - exists SlottedPage_new. split; [reflexivity | apply appended_fresh].
  - rewrite length_app in Hn. cbn [length] in Hn.
    rewrite total_size_app in Hfit. cbn [total_size foldr fst] in Hfit.
    pose proof (getSize_nonneg t) as Hsz.
    destruct IH as (p & Hrun & Happ); [lia | lia |].
    destruct (appended_snoc ts p t past Happ ltac:(lia)
                ltac:(rewrite start_of_all; lia)) as (p' & Hadd & Happ').
    exists p'. split; [| exact Happ'].
    unfold inserts. rewrite map_app, do_calls_app.
    fold (inserts ts). rewrite Hrun. cbn [mbind option_bind map do_calls].
    cbn [do_call fst snd]. rewrite Hadd. reflexivity.
Qed.

(** The print of consecutive occupied slots. *)
Lemma print_loop_seq {X} d (g : nat -> X -> list Z) : forall (l : list X) a,
  (forall k x, l !! k = Some x ->
     slot_empty d (a + Z.of_nat k) = false /\
     exists bytes,
       read d (slot_offset d (a + Z.of_nat k)) (slot_length d (a + Z.of_nat k))
         = Some bytes /\
       fields (deserialize bytes) = g k x) ->
  print_loop (seqZ a (Z.of_nat (length l))) d
  = Some (imap (λ k x, (a + Z.of_nat k, g k x)) l).
Proof.
  intros l. revert g. induction l as [| x l IH]; intros g a Hl;
    [reflexivity |].
  cbn [length]. rewrite seqZ_cons by lia. cbn [print_loop imap].
  destruct (Hl 0%nat x eq_refl) as (He & bytes & Hr & Hf).
  rewrite Z.add_0_r in He, Hr. rewrite He, Hr. cbn [mbind option_bind].
  replace (Z.pred (Z.of_nat (S (length l)))) with (Z.of_nat (length l)) by lia.
  rewrite (IH (λ k, g (S k)) (Z.succ a)).
  - cbn [mbind option_bind]. rewrite Hf, Z.add_0_r. do 2 f_equal.
    apply imap_ext. intros k y _. cbn. f_equal. lia.
  - intros k y Hk. specialize (Hl (S k) y Hk).
    replace (Z.succ a + Z.of_nat k) with (a + Z.of_nat (S k)) by lia.
    exact Hl.
Qed.

Lemma slot_indices_split n :
  0 <= n <= MAX_SLOTS ->
  slot_indices = seqZ 0 n ++ seqZ n (MAX_SLOTS - n).
Proof.
  intros Hn. unfold slot_indices.
  replace MAX_SLOTS with (n + (MAX_SLOTS - n)) at 1 by lia.
  rewrite seqZ_app by lia. reflexivity.
Qed.

Lemma appended_print ts p :
  appended ts p -> Z.of_nat (length ts) <= MAX_SLOTS ->
  print p
  = Some (imap (λ k tp, (Z.of_nat k, fields (deserialize (stored_bytes tp))))
            ts).
Proof.
  intros (_ & _ & Hocc & Hfree) Hn. rewrite print_unfold.
  rewrite (slot_indices_split (Z.of_nat (length ts))) by lia.
  rewrite PrintMore.print_loop_app.
  rewrite (print_loop_seq (page_data p)
             (λ _ tp, fields (deserialize (stored_bytes tp))) ts 0).
  - cbn [mbind option_bind].
    rewrite StoreFacts.print_loop_empty.
    + cbn [mbind option_bind]. now rewrite app_nil_r.
    + intros k Hk. apply elem_of_seqZ in Hk. apply Hfree. lia.
  - intros k tp Hk. destruct (Hocc _ _ Hk) as [Hs Hr]. rewrite !Z.add_0_l.
    apply get_slot_mk in Hs as (-> & -> & ->). split; [reflexivity |].
    exists (stored_bytes tp). split; [exact Hr | reflexivity].
Qed.

(** The appended page is packed. *)
Lemma packed_seq d :
  forall (l : list (Tuple * (nat -> ascii))) a lo rest,
  (forall k tp, l !! k = Some tp ->
     slot_empty d (a + Z.of_nat k) = false /\
     slot_offset d (a + Z.of_nat k) = lo + total_size (take k l) /\
     slot_length d (a + Z.of_nat k) = getSize tp.1) ->
  packed_from rest (lo + total_size l) d ->
  packed_from (seqZ a (Z.of_nat (length l)) ++ rest) lo d.
Proof.
  induction l as [| x l IH]; intros a lo rest Hl Hrest.
  - cbn [length total_size foldr] in *. cbn. now rewrite Z.add_0_r in Hrest.
  - cbn [length]. rewrite seqZ_cons by lia. cbn [app packed_from].
    destruct (Hl 0%nat x eq_refl) as (He & Ho & Hlen).
    rewrite Z.add_0_r in He, Ho, Hlen. rewrite He.
    cbn [take total_size foldr] in Ho.
    split; [lia |].
    replace (Z.pred (Z.of_nat (S (length l)))) with (Z.of_nat (length l))
      by lia.
    apply IH.
    + intros k tp Hk. specialize (Hl (S k) tp Hk).
      replace (Z.succ a + Z.of_nat k) with (a + Z.of_nat (S k)) by lia.
      destruct Hl as (E1 & E2 & E3). split; [exact E1 |].
      split; [| exact E3]. rewrite E2, Hlen.
      cbn [take total_size foldr]. unfold total_size. lia.
    + rewrite Hlen. cbn [total_size foldr] in Hrest.
      unfold total_size in *. now rewrite Z.add_assoc in Hrest.
Qed.

Lemma packed_empty d : forall idx lo,
  (forall k, k ∈ idx -> slot_empty d k = true) -> packed_from idx lo d.
Proof.
  induction idx as [| i idx IH]; intros lo He; [exact I |].
  cbn [packed_from]. rewrite (He i) by left.
  apply IH. intros k Hk. apply He. now right.
Qed.

Lemma appended_packed ts p :
  appended ts p -> Z.of_nat (length ts) <= MAX_SLOTS ->
  packed_from slot_indices (metadata_size p) (page_data p).
Proof.
  intros (_ & Hm & Hocc & Hfree) Hn.
  rewrite (slot_indices_split (Z.of_nat (length ts))) by lia.
  rewrite Hm. apply packed_seq.
  - intros k tp Hk. destruct (Hocc _ _ Hk) as [Hs _]. rewrite !Z.add_0_l.
    apply get_slot_mk in Hs as (-> & -> & ->). unfold start_of. auto.
  - apply packed_empty. intros k Hk. apply elem_of_seqZ in Hk.
    apply Hfree. lia.
Qed.

End AppendFacts.

(** X8. A run of inserts into a fresh page - at most [MAX_SLOTS] records
    whose sizes add up to less than the data region - is defined, every
    insert in it succeeds, and the page it builds holds record [k] in slot
    [k], the records back to back behind the directory in the order of the
    inserts, each with the [getSize] bytes taken from its serialised
    string, and every further slot empty. *)
Theorem X8_inserts_layout (ts : list (Tuple * (nat -> ascii))) :
  Z.of_nat (length ts) <= MAX_SLOTS ->
  directory_size + total_size ts < PAGE_SIZE ->
  exists p,
    do_calls (inserts ts) SlottedPage_new = Some p /\
    metadata_size p = directory_size /\
    (forall k tp, ts !! k = Some tp ->
       get_slot (page_data p) (Z.of_nat k)
         = Slot.mk false (start_of ts k) (getSize tp.1) /\
       Mem.read (page_data p) (start_of ts k) (getSize tp.1)
         = Some (stored_bytes tp)) /\
    (forall k, Z.of_nat (length ts) <= k < MAX_SLOTS ->
       slot_empty (page_data p) k = true).
Proof.
  intros Hn Hfit.
  destruct (AppendFacts.inserts_appended ts Hn Hfit)
    as (p & Hrun & _ & Hm & Hocc & Hfree).
  exists p. split; [exact Hrun |]. split; [exact Hm |].
  split; [exact Hocc | exact Hfree].
Qed.

Lemma X8_witness :
  exists p,
    do_calls (inserts [(mkTuple [1; 2], zeros); (mkTuple [3], zeros)])
      SlottedPage_new = Some p /\
    get_slot (page_data p) 1 = Slot.mk false 3080 4.
Proof.
  destruct (X8_inserts_layout [(mkTuple [1; 2], zeros); (mkTuple [3], zeros)])
    as (p & Hrun & _ & Hocc & _).
  - vm_compute. discriminate.
  - vm_compute. reflexivity.
  - exists p. split; [exact Hrun |].
    exact (proj1 (Hocc 1%nat (mkTuple [3], zeros) eq_refl)).
Defined.

(** X9. After such a run of inserts of records whose fields are [int]s and
    whose serialised strings are no longer than their [getSize], the page
    prints the records of the run, one line per record, in the order of
    the inserts, each under the number of its insert. *)
Theorem X9_inserts_print (ts : list (Tuple * (nat -> ascii))) :
  Z.of_nat (length ts) <= MAX_SLOTS ->
  directory_size + total_size ts < PAGE_SIZE ->
  Forall (λ tp, Forall in_int (fields tp.1) /\
                Z.of_nat (length (serialize tp.1)) <= getSize tp.1) ts ->
  exists p,
    do_calls (inserts ts) SlottedPage_new = Some p /\
    print p = Some (imap (λ k tp, (Z.of_nat k, fields tp.1)) ts).
Proof.
  intros Hn Hfit Hts.
  destruct (AppendFacts.inserts_appended ts Hn Hfit) as (p & Hrun & Happ).
  exists p. split; [exact Hrun |].
  rewrite (AppendFacts.appended_print ts p Happ Hn). f_equal.
  apply imap_ext. intros k tp Hk. cbn beta.
  rewrite Forall_forall in Hts.
  destruct (Hts tp (list_elem_of_lookup_2 _ _ _ Hk)) as [Hint Hlen].
  unfold stored_bytes.
  now rewrite PrintFacts.deserialize_read_c_str.
Qed.

Lemma X9_witness :
  exists p,
    do_calls (inserts [(mkTuple [1; 2], zeros); (mkTuple [-3], zeros)])
      SlottedPage_new = Some p /\
    print p = Some [(0, [1; 2]); (1, [-3])].
Proof.
  apply (X9_inserts_print [(mkTuple [1; 2], zeros); (mkTuple [-3], zeros)]).
  - vm_compute. discriminate.
  - vm_compute. reflexivity.
  - repeat constructor; vm_compute; discriminate.
Defined.

(** X10. A compaction right after such a run of inserts into a fresh page
    finds every record in place and returns the page unchanged. *)
Theorem X10_inserts_then_compact (ts : list (Tuple * (nat -> ascii)))
    (p : SlottedPage) :
  Z.of_nat (length ts) <= MAX_SLOTS ->
  directory_size + total_size ts < PAGE_SIZE ->
  do_calls (inserts ts) SlottedPage_new = Some p ->
  compactPage p = Some p.
Proof.
  intros Hn Hfit Hrun.
  destruct (AppendFacts.inserts_appended ts Hn Hfit) as (q & Hrun' & Happ).
  assert (q = p) as -> by congruence.
  rewrite CompactFacts.compactPage_unfold.
  rewrite (PackedFacts.packed_fixed _ _ _
             (AppendFacts.appended_packed ts p Happ Hn)).
  cbn [mbind option_bind]. now destruct p.
Qed.

Lemma X10_witness :
  exists p,
    do_calls (inserts [(mkTuple [1; 2], zeros); (mkTuple [3], zeros)])
      SlottedPage_new = Some p /\
    compactPage p = Some p.
Proof.
  assert (Hrun : exists p,
    do_calls (inserts [(mkTuple [1; 2], zeros); (mkTuple [3], zeros)])
      SlottedPage_new = Some p) by (eexists; vm_compute; reflexivity).
  destruct Hrun as (p & Hrun). exists p. split; [exact Hrun |].
  apply (X10_inserts_then_compact
           [(mkTuple [1; 2], zeros); (mkTuple [3], zeros)] p);
    [vm_compute; discriminate | vm_compute; reflexivity | exact Hrun].
Defined.

(** ** Tuple: the text of a record *)

Module TextFacts.
Import Stream StreamFacts.

Lemma get_int_range s v rest : get_int s = Some (v, rest) -> in_int v.
Proof.
  unfold get_int.
  destruct (match skipws s with
            | [] => (false, [])
            | c :: r =>
                if Ascii.eqb c "-" then (true, r)
                else if Ascii.eqb c "+" then (false, r)
                else (false, skipws s)
            end) as [neg s2].
  destruct s2 as [| c r]; [discriminate |].
  destruct (isdigit c); [| discriminate].
  destruct (get_digits 0 (c :: r)) as [n rest'].
  destruct (Z.leb_spec INT_MIN (if neg then - n else n)); [| discriminate].
  destruct (Z.leb_spec (if neg then - n else n) INT_MAX); [| discriminate].
  cbn [andb]. intros [= <- <-]. split; assumption.
Qed.

Lemma deserialize_loop_range : forall fuel data,
  Forall in_int (deserialize_loop fuel data).
Proof.
  induction fuel as [| fuel IH]; intros data; cbn [deserialize_loop];
    [constructor |].
  destruct (get_int data) as [[v rest] |] eqn:E; [| constructor].
  constructor; [eapply get_int_range; exact E | apply IH].
Qed.

Lemma deserialize_loop_length : forall fuel data,
  (length (deserialize_loop fuel data) <= length data)%nat.
Proof.
  induction fuel as [| fuel IH]; intros data; cbn [deserialize_loop];
    [cbn; lia |].
  destruct (get_int data) as [[v rest] |] eqn:E; [| cbn; lia].
  apply get_int_consumes in E. specialize (IH rest). cbn [length]. lia.
Qed.

(** The number of digits [operator<<] writes. *)
Lemma put_digits_length_le : forall fuel n acc k,
  0 <= n < 10 ^ Z.of_nat k -> (1 <= k)%nat ->
  (length (put_digits fuel n acc) <= length acc + k)%nat.
Proof.
  induction fuel as [| fuel IH]; intros n acc k Hn Hk; cbn [put_digits];
    [lia |].
  destruct (Z.eqb_spec (n / 10) 0) as [Hz | Hnz]; [cbn [length]; lia |].
  destruct k as [| [| k]]; [lia | |].
  - change (10 ^ Z.of_nat 1) with 10 in Hn.
    rewrite Z.div_small in Hnz by lia. lia.
  - specialize (IH (n / 10) (digit_char (n mod 10) :: acc) (S k)).
    cbn [length] in IH.
    assert (0 <= n / 10 < 10 ^ Z.of_nat (S k)); [| lia].
    split; [apply Z.div_pos; lia |].
    apply Z.div_lt_upper_bound; [lia |].
    replace (Z.of_nat (S (S k))) with (Z.succ (Z.of_nat (S k))) in Hn by lia.
    rewrite Z.pow_succ_r in Hn by lia. lia.
Qed.

Lemma put_digits_length_ge : forall fuel n acc k,
  10 ^ (Z.of_nat k - 1) <= n -> (1 <= k <= fuel)%nat ->
  (length acc + k <= length (put_digits fuel n acc))%nat.
Proof.
  induction fuel as [| fuel IH]; intros n acc k Hn Hk; [lia |].
  cbn [put_digits].
  destruct k as [| [| k]]; [lia | |].
  - destruct (n / 10 =? 0); [cbn [length]; lia |].
    specialize (IH (n / 10) (digit_char (n mod 10) :: acc) 0%nat).
    assert (length (digit_char (n mod 10) :: acc)
            <= length (put_digits fuel (n / 10)
                         (digit_char (n mod 10) :: acc)))%nat; [| cbn in *; lia].
    clear. generalize (n / 10) (digit_char (n mod 10) :: acc).
    induction fuel as [| fuel IHf]; intros m l; cbn [put_digits]; [lia |].
    destruct (m / 10 =? 0); [cbn [length]; lia |].
    specialize (IHf (m / 10) (digit_char (m mod 10) :: l)).
    cbn [length] in IHf. lia.
  - replace (Z.of_nat (S (S k)) - 1) with (Z.succ (Z.of_nat (S k) - 1)) in Hn
      by lia.
    rewrite Z.pow_succ_r in Hn by lia.
    assert (Hpos : 0 < 10 ^ (Z.of_nat (S k) - 1))
      by (apply Z.pow_pos_nonneg; lia).
    assert (Hq : 10 ^ (Z.of_nat (S k) - 1) <= n / 10)
      by (apply Z.div_le_lower_bound; lia).
    destruct (Z.eqb_spec (n / 10) 0) as [Hz | Hnz]; [lia |].
    specialize (IH (n / 10) (digit_char (n mod 10) :: acc) (S k) Hq
                  ltac:(lia)).
    cbn [length] in IH. lia.
Qed.

Lemma put_int_narrow v : -99 <= v <= 999 -> (length (put_int v) <= 3)%nat.
Proof.
  intros Hv. unfold put_int. destruct (Z.ltb_spec v 0).
  - pose proof (put_digits_length_le 10 (- v) [] 2
      ltac:(change (10 ^ Z.of_nat 2) with 100; lia) ltac:(lia)) as Hd.
    cbn [length] in *. lia.
  - pose proof (put_digits_length_le 10 v [] 3
      ltac:(change (10 ^ Z.of_nat 3) with 1000; lia) ltac:(lia)) as Hd.
    cbn [length] in *. lia.
Qed.

Lemma put_int_wide v :
  v <= -100 \/ 1000 <= v -> (4 <= length (put_int v))%nat.
Proof.
  intros Hv. unfold put_int. destruct (Z.ltb_spec v 0).
  - pose proof (put_digits_length_ge 10 (- v) [] 3
      ltac:(change (10 ^ (Z.of_nat 3 - 1)) with 100; lia) ltac:(lia)) as Hd.
    cbn [length] in *. lia.
  - pose proof (put_digits_length_ge 10 v [] 4
      ltac:(change (10 ^ (Z.of_nat 4 - 1)) with 1000; lia) ltac:(lia)) as Hd.
    cbn [length] in *. lia.
Qed.

Lemma serialize_fields_cons v fs :
  length (serialize_fields (v :: fs))
  = (length (put_int v) + 1 + length (serialize_fields fs))%nat.
Proof. cbn [serialize_fields]. rewrite length_app. cbn [length]. lia. Qed.

End TextFacts.

(** X11. Whatever bytes [deserialize] is given, the record it builds holds
    only values of the range of [int], and no more fields than the text
    has characters. *)
Theorem X11_deserialize_range (data : list ascii) :
  Forall in_int (fields (deserialize data)) /\
  (length (fields (deserialize data)) <= length data)%nat.
Proof.
  unfold deserialize. cbn [fields]. split.
  - apply TextFacts.deserialize_loop_range.
  - apply TextFacts.deserialize_loop_length.
Qed.

(** X12. The text [serialize] writes has at most [getSize] characters when
    every field lies between -99 and 999, and more than [getSize]
    characters when the record has a field and every field lies outside
    that range: [getSize] counts four bytes per field, the text of a field
    takes its digits, its sign and one space. *)
Theorem X12_serialize_length (t : Tuple) :
  (Forall (λ v, -99 <= v <= 999) (fields t) ->
   Z.of_nat (length (serialize t)) <= getSize t) /\
  (fields t <> [] -> Forall (λ v, v <= -100 \/ 1000 <= v) (fields t) ->
   getSize t < Z.of_nat (length (serialize t))).
Proof.
  unfold serialize, getSize, sizeof_int. destruct t as [fs]. cbn [fields].
  split.
  - induction 1 as [| v fs Hv Hfs IH]; [cbn; lia |].
    rewrite TextFacts.serialize_fields_cons.
    pose proof (TextFacts.put_int_narrow v Hv). cbn [length]. lia.
  - intros Hne Hall.
    assert (H : 4 * Z.of_nat (length fs) + Z.of_nat (length fs)
                <= Z.of_nat (length (serialize_fields fs))).
    { clear Hne. induction Hall as [| v fs Hv Hfs IH]; [cbn; lia |].
      rewrite TextFacts.serialize_fields_cons.
      pose proof (TextFacts.put_int_wide v Hv). cbn [length]. lia. }
    destruct fs; [congruence | cbn [length] in *; lia].
Qed.

Lemma X12_witness :
  Z.of_nat (length (serialize (mkTuple [999; -99; 0]))) <= 12 /\
  4 < Z.of_nat (length (serialize (mkTuple [1000]))).
Proof.
  split.
  - apply (proj1 (X12_serialize_length (mkTuple [999; -99; 0]))).
    cbn [fields]. repeat constructor; vm_compute; discriminate.
  - apply (proj2 (X12_serialize_length (mkTuple [1000]))).
    + discriminate.
    + cbn [fields].
      constructor; [right; vm_compute; discriminate | constructor].
Defined.

(** ** load, deleteTuple and calls that stay inside the buffer *)

(** X13. [load] hands out the page stored under [page_id], creating a
    fresh one when there is none; it changes no page that is stored, adds
    no other page, and a second [load] of the same id changes nothing. *)
Theorem X13_load_once (page_id : Z) (pages : gmap Z SlottedPage) :
  load page_id pages !! page_id = Some (page_at pages page_id) /\
  (pages !! page_id = None ->
   load page_id pages !! page_id = Some SlottedPage_new) /\
  (forall id p, pages !! id = Some p -> load page_id pages !! id = Some p) /\
  (forall id, id <> page_id -> load page_id pages !! id = pages !! id) /\
  load page_id (load page_id pages) = load page_id pages.
Proof.
  unfold load at 1 2 3 4 6, page_at.
  destruct (pages !! page_id) as [q |] eqn:Hq; cbn [default].
  - split; [exact Hq |]. split; [discriminate |]. split; [auto |].
    split; [auto |]. unfold load. now rewrite Hq.
  - split; [apply lookup_insert_eq |].
    split; [intros _; apply lookup_insert_eq |]. split; [| split].
    + intros id p Hp. rewrite lookup_insert_ne; [exact Hp | congruence].
    + intros id Hne. now rewrite lookup_insert_ne.
    + unfold load. rewrite lookup_insert_eq, Hq. reflexivity.
Qed.

Lemma X13_witness :
  load 3 ∅ !! 3 = Some SlottedPage_new /\
  load 3 (<[3 := mkPage (page_data SlottedPage_new) 4000]> ∅) !! 3
  = Some (mkPage (page_data SlottedPage_new) 4000).
Proof.
  split.
  - apply (proj1 (proj2 (X13_load_once 3 ∅))). reflexivity.
  - apply (proj1 (proj2 (proj2
             (X13_load_once 3
                (<[3 := mkPage (page_data SlottedPage_new) 4000]> ∅))))).
    reflexivity.
Defined.

(** X14. [deleteTuple] writes at most the flag of the slot it is given: the
    record's bytes stay in the data region, [metadata_size] and every
    other directory entry stay as they are; it changes nothing for an
    index past the directory or a slot that is empty already, and deleting
    a slot twice is deleting it once. *)
Theorem X14_delete_effect (index : N) (p : SlottedPage) :
  metadata_size (deleteTuple index p) = metadata_size p /\
  length (page_data (deleteTuple index p)) = length (page_data p) /\
  agree directory_size PAGE_SIZE
    (page_data (deleteTuple index p)) (page_data p) /\
  (forall j, 0 <= j -> j <> Z.of_N index ->
     get_slot (page_data (deleteTuple index p)) j = get_slot (page_data p) j) /\
  (MAX_SLOTS <= Z.of_N index -> deleteTuple index p = p) /\
  (slot_empty (page_data p) (Z.of_N index) = true -> deleteTuple index p = p) /\
  (Z.of_nat (length (page_data p)) = PAGE_SIZE ->
   deleteTuple index (deleteTuple index p) = deleteTuple index p).
Proof.
  assert (Hout : forall q, MAX_SLOTS <= Z.of_N index -> deleteTuple index q = q).
  { intros q Hge. unfold deleteTuple.
    destruct (Z.ltb_spec (Z.of_N index) MAX_SLOTS); [lia | reflexivity]. }
  assert (Hempty : forall q, slot_empty (page_data q) (Z.of_N index) = true ->
                             deleteTuple index q = q).
  { intros q He. unfold deleteTuple. rewrite He.
    now destruct (Z.of_N index <? MAX_SLOTS). }
  assert (Hdel : Z.of_N index < MAX_SLOTS ->
                 slot_empty (page_data p) (Z.of_N index) = false ->
                 deleteTuple index p
                 = mkPage (set_slot_empty (page_data p) (Z.of_N index) true)
                          (metadata_size p)).
  { intros Hlt He. unfold deleteTuple. rewrite He.
    destruct (Z.ltb_spec (Z.of_N index) MAX_SLOTS); [reflexivity | lia]. }
  split; [apply CallFacts.deleteTuple_meta |].
  split; [apply CallFacts.deleteTuple_length |].
  destruct (Z.lt_ge_cases (Z.of_N index) MAX_SLOTS) as [Hlt | Hge].
  - destruct (slot_empty (page_data p) (Z.of_N index)) eqn:He.
    + rewrite (Hempty p He).
      split; [apply MemFacts.agree_refl |]. split; [reflexivity |].
      split; [reflexivity |]. split; [reflexivity |].
      intros _. apply Hempty. exact He.
    + rewrite (Hdel Hlt eq_refl). cbn [page_data]. split.
      { apply SlotFacts.agree_set_slot_empty; AddFacts.unfold_consts; lia. }
      split.
      { intros j Hj Hne. apply SlotFacts.get_slot_set_empty_other; lia. }
      split; [lia |]. split; [discriminate |].
      intros Hlen. apply Hempty. cbn [page_data].
      pose proof (SlotFacts.get_slot_set_empty (page_data p) (Z.of_N index)
        true ltac:(lia) ltac:(AddFacts.unfold_consts; lia)) as H.
      now apply SlotFacts.get_slot_mk in H as (-> & _ & _).
  - rewrite (Hout p Hge).
    split; [apply MemFacts.agree_refl |]. split; [reflexivity |].
    split; [reflexivity |]. split; [reflexivity |].
    intros _. apply Hout. exact Hge.
Qed.

Lemma X14_witness :
  deleteTuple 512 SlottedPage_new = SlottedPage_new /\
  deleteTuple 0 SlottedPage_new = SlottedPage_new.
Proof.
  destruct (X14_delete_effect 512 SlottedPage_new)
    as (_ & _ & _ & _ & Hout & _).
  destruct (X14_delete_effect 0 SlottedPage_new)
    as (_ & _ & _ & _ & _ & Hempty & _).
  split; [apply Hout; vm_compute; discriminate
         | apply Hempty; vm_compute; reflexivity].
Defined.

(** X15. On a well-formed page an insert and a print are defined - no
    access of theirs leaves the buffer - whatever the record and whatever
    lies behind its serialised string. *)
Theorem X15_insert_print_defined (past : nat -> ascii) (tuple : Tuple)
    (p : SlottedPage) :
  page_inv p ->
  (exists b p', addTuple past tuple p = Some (b, p')) /\
  (exists out, print p = Some out).
Proof.
  intros Hinv. split; [| now apply PrintFacts.print_defined].
  rewrite AddFacts.addTuple_find.
  destruct (Z.ltb_spec (first_empty p) MAX_SLOTS) as [Hfree |]; [| eauto].
  destruct (Z.leb_spec PAGE_SIZE
              (insert_offset p (first_empty p) + getSize tuple))
    as [Hfull | Hfit].
  - unfold addTuple_at.
    destruct (Z.leb_spec PAGE_SIZE
                (insert_offset p (first_empty p) + getSize tuple)); [| lia].
    eauto.
  - pose proof (AddFacts.insert_offset_region p Hinv Hfree) as Hdir.
    pose proof (AddFacts.getSize_nonneg tuple) as Hsz.
    destruct (AddFacts.first_empty_spec p) as [_ [[Hj _] | [Hj _]]]; [| lia].
    destruct Hinv as (Hlen & _).
    destruct (AddFacts.addTuple_at_ok p (first_empty p) (getSize tuple)
                (Mem.read_c_str (serialize tuple) past (getSize tuple))
                Hlen Hj Hdir (AddFacts.length_read_c_str _ _ _ Hsz) Hfit)
      as (d' & -> & _).
    eauto.
Qed.

Lemma X15_witness :
  (exists b p', addTuple zeros (mkTuple [1]) SlottedPage_new = Some (b, p')) /\
  (exists out, print SlottedPage_new = Some out).
Proof.
  apply X15_insert_print_defined. apply FreshFacts.SlottedPage_new_inv.
Defined.

(** ** moveTupleAcrossPages between two pages *)

Module MoveMore.
Import MemFacts SlotFacts AddFacts PrintFacts CompactFacts CallFacts.
Import MoveFacts StoreFacts.

Lemma occupied_in_cons i idx d :
  occupied_in (i :: idx) d =
  if slot_empty d i then occupied_in idx d else i :: occupied_in idx d.
Proof.
  unfold occupied_in. destruct (slot_empty d i) eqn:He.
  - now rewrite filter_cons_False by congruence.
  - now rewrite filter_cons_True by assumption.
Qed.

Lemma size_in_cons i idx d :
  size_in (i :: idx) d =
  if slot_empty d i then size_in idx d else slot_length d i + size_in idx d.
Proof.
  unfold size_in. rewrite occupied_in_cons.
  now destruct (slot_empty d i).
Qed.

Lemma size_in_nonneg d : forall idx, 0 <= size_in idx d.
Proof.
  induction idx as [| i idx IH]; [cbn; lia |].
  rewrite size_in_cons. pose proof (slot_length_range d i).
  destruct (slot_empty d i); lia.
Qed.

Lemma occupied_in_nil_size d : forall idx,
  occupied_in idx d = [] -> size_in idx d = 0.
Proof. intros idx H. unfold size_in. now rewrite H. Qed.

Lemma occupied_in_ext d d' : forall idx,
  (forall k, k ∈ idx -> get_slot d' k = get_slot d k) ->
  occupied_in idx d' = occupied_in idx d /\ size_in idx d' = size_in idx d.
Proof.
  induction idx as [| i idx IH]; intros Hs; [split; reflexivity |].
  rewrite !occupied_in_cons, !size_in_cons.
  destruct (get_slot_eq _ _ _ _ (Hs i ltac:(left))) as (-> & _ & ->).
  destruct IH as [-> ->]; [intros k Hk; apply Hs; now right |].
  split; reflexivity.
Qed.

(** Why a round on an occupied slot stops. *)
Lemma move_slot_room from_id to_id i pages go pages' :
  move_slot from_id to_id i pages = Some (go, pages') ->
  slot_empty (page_data (page_at pages from_id)) i = false ->
  (go = false /\
   PAGE_SIZE <= metadata_size (page_at pages to_id)
                + slot_length (page_data (page_at pages from_id)) i) \/
  (go = true /\
   metadata_size (page_at pages to_id)
   + slot_length (page_data (page_at pages from_id)) i < PAGE_SIZE).
Proof.
  unfold move_slot. intros Hs He. rewrite He in Hs.
  destruct (Z.leb_spec PAGE_SIZE
    (metadata_size (page_at pages to_id)
     + slot_length (page_data (page_at pages from_id)) i)).
  - injection Hs as <- _. now left.
  - destruct (Mem.read _ _ _) as [bytes |]; [| discriminate].
    cbn [mbind option_bind] in Hs.
    destruct (Mem.write _ _ _) as [d1 |]; [| discriminate].
    injection Hs as <- _. now right.
Qed.

(** The answer of the loop and the destination's [metadata_size], from the
    pages before the loop. *)
Lemma move_loop_answer from_id to_id :
  from_id <> to_id ->
  forall idx pages go pages',
  NoDup idx -> Forall (fun i => 0 <= i) idx ->
  move_loop from_id to_id idx pages = Some (go, pages') ->
  (go = true ->
   metadata_size (page_at pages' to_id)
   = metadata_size (page_at pages to_id)
     + size_in idx (page_data (page_at pages from_id))) /\
  (go = true <->
   occupied_in idx (page_data (page_at pages from_id)) = [] \/
   metadata_size (page_at pages to_id)
   + size_in idx (page_data (page_at pages from_id)) < PAGE_SIZE).
Proof.
  intros Hne. induction idx as [| i idx IH]; intros pages go pages' Hnd Hidx.
  - cbn [move_loop]. intros [= <- <-]. split; [cbn; lia |].
    split; [now left | reflexivity].
  - apply NoDup_cons in Hnd as [Hni Hnd].
    apply Forall_cons in Hidx as [Hi Hidx].
    cbn [move_loop].
    destruct (move_slot from_id to_id i pages) as [[g q] |] eqn:Hs;
      [| discriminate].
    cbn [mbind option_bind]. rewrite occupied_in_cons, size_in_cons.
    pose proof (size_in_nonneg (page_data (page_at pages from_id)) idx)
      as Hsz.
    pose proof (slot_length_range (page_data (page_at pages from_id)) i)
      as Hlr.
    destruct (move_slot_cases _ _ _ _ _ _ Hs)
      as [(He & -> & ->) | [(He & -> & ->) | (He & -> & d1 & ->)]];
      rewrite He.
    + apply IH; assumption.
    + intros [= <- <-].
      destruct (move_slot_room _ _ _ _ _ _ Hs He) as [[_ Hfull] | [[=] _]].
      split; [discriminate |]. split; [discriminate |].
      intros [[=] | Hlt]. lia.
    + destruct (move_slot_room _ _ _ _ _ _ Hs He) as [[[=] _] | [_ Hroom]].
      intros Hloop.
      destruct (move_commit_pages from_id to_id i d1
        (metadata_size (page_at pages to_id))
        (slot_length (page_data (page_at pages from_id)) i) pages)
        as (Hto & Hfrom & _).
      specialize (Hfrom Hne).
      destruct (IH _ _ _ Hnd Hidx Hloop) as [IHm IHa].
      rewrite Hto, Hfrom in IHm, IHa. cbn [page_data metadata_size] in IHm, IHa.
      destruct (occupied_in_ext (page_data (page_at pages from_id))
                  (set_slot_empty (page_data (page_at pages from_id)) i true)
                  idx) as [Eo Es].
      { intros k Hk. apply get_slot_set_empty_other; [lia | |].
        - rewrite Forall_forall in Hidx. now apply Hidx.
        - intros ->. contradiction. }
      rewrite Eo, Es in IHa. rewrite Es in IHm.
      split; [intros Hg; rewrite (IHm Hg); lia |].
      rewrite IHa. split.
      * intros [Hnil | Hlt]; right; [| lia].
        rewrite (occupied_in_nil_size _ _ Hnil). lia.
      * intros [[=] | Hlt]. right. lia.
Qed.

(** Rounds on empty slots change nothing. *)
Lemma move_loop_skip from_id to_id pages : forall idx,
  (forall k, k ∈ idx -> slot_empty (page_data (page_at pages from_id)) k = true) ->
  move_loop from_id to_id idx pages = Some (true, pages).
Proof.
  induction idx as [| i idx IH]; intros He; [reflexivity |].
  cbn [move_loop]. unfold move_slot. rewrite (He i) by left.
  cbn [mbind option_bind]. apply IH. intros k Hk. apply He. now right.
Qed.

Lemma find_free_agree d d' : forall idx,
  Forall (fun i => 0 <= i < MAX_SLOTS) idx ->
  agree 0 directory_size d d' -> find_free idx d = find_free idx d'.
Proof.
  induction idx as [| i idx IH]; intros Hidx Hag; [reflexivity |].
  apply Forall_cons in Hidx as [Hi Hidx]. cbn [find_free].
  pose proof (get_slot_agree 0 directory_size d d' i Hag
    ltac:(unfold_consts; lia) ltac:(unfold_consts; lia)) as H.
  apply get_slot_eq in H as (-> & _). now rewrite IH.
Qed.

Lemma first_empty_unfold p :
  first_empty p = find_free slot_indices (page_data p).
Proof. reflexivity. Qed.

Lemma occupied_single p i :
  occupied_slots p = [i] ->
  0 <= i < MAX_SLOTS /\ slot_empty (page_data p) i = false /\
  forall k, 0 <= k < MAX_SLOTS -> k <> i -> slot_empty (page_data p) k = true.
Proof.
  unfold occupied_slots, occupied_in. intros H.
  assert (Hin : forall k, k ∈ filter (λ i, slot_empty (page_data p) i = false)
                            slot_indices <-> k = i)
    by (intros k; rewrite H; apply list_elem_of_singleton).
  pose proof (proj2 (Hin i) eq_refl) as Hi.
  apply list_elem_of_filter in Hi as [He Hi].
  apply elem_of_slot_indices in Hi.
  split; [exact Hi |]. split; [exact He |].
  intros k Hk Hne. destruct (slot_empty (page_data p) k) eqn:Hek;
    [reflexivity |].
  exfalso. apply Hne, Hin, list_elem_of_filter.
  split; [exact Hek | now apply elem_of_slot_indices].
Qed.

Lemma bind_Some {A B} (f : A -> option B) (x : A) : Some x ≫= f = f x.
Proof. reflexivity. Qed.

(** The call, from a loop that ran to its end and left the source without
    an occupied slot. *)
Lemma moveTuple_of_loop from_id to_id pages pages1 d m :
  move_loop from_id to_id slot_indices (load to_id (load from_id pages))
  = Some (true, pages1) ->
  page_at pages1 from_id = mkPage d m ->
  (forall k, k ∈ slot_indices -> slot_empty d k = true) ->
  moveTupleAcrossPages from_id to_id pages
  = Some (true, <[from_id := mkPage d m]> pages1).
Proof.
  intros Hloop Hfrom He. rewrite moveTuple_unfold, Hloop, bind_Some.
  cbv beta iota. rewrite compactPage_unfold, Hfrom.
  cbn [page_data metadata_size]. rewrite compact_loop_empty by exact He.
  reflexivity.
Qed.

(** The move of a page that holds one record. *)
Lemma move_single from_id to_id i pages :
  store_inv pages -> from_id <> to_id ->
  occupied_slots (page_at pages from_id) = [i] ->
  first_empty (page_at pages to_id) < MAX_SLOTS ->
  metadata_size (page_at pages to_id)
    + slot_length (page_data (page_at pages from_id)) i < PAGE_SIZE ->
  exists bytes d1,
    Mem.read (page_data (page_at pages from_id))
      (slot_offset (page_data (page_at pages from_id)) i)
      (slot_length (page_data (page_at pages from_id)) i) = Some bytes /\
    Mem.write (page_data (page_at pages to_id))
      (metadata_size (page_at pages to_id)) bytes = Some d1 /\
    moveTupleAcrossPages from_id to_id pages
    = Some (true,
        <[from_id :=
            mkPage (set_slot_empty (page_data (page_at pages from_id)) i true)
                   (metadata_size (page_at pages from_id))]>
          (move_commit from_id to_id i d1
             (metadata_size (page_at pages to_id))
             (slot_length (page_data (page_at pages from_id)) i)
             (load to_id (load from_id pages)))) /\
    page_at (move_commit from_id to_id i d1
               (metadata_size (page_at pages to_id))
               (slot_length (page_data (page_at pages from_id)) i)
               (load to_id (load from_id pages))) to_id
    = mkPage (activate (first_empty (page_at pages to_id))
                (metadata_size (page_at pages to_id))
                (slot_length (page_data (page_at pages from_id)) i) d1)
             (metadata_size (page_at pages to_id)
              + slot_length (page_data (page_at pages from_id)) i) /\
    length d1 = length (page_data (page_at pages to_id)) /\
    agree 0 directory_size d1 (page_data (page_at pages to_id)).
Proof.
  intros Hinv Hne Hocc Hfree Hroom.
  destruct (occupied_single _ _ Hocc) as (Hi & He & Hothers).
  set (pages0 := load to_id (load from_id pages)).
  assert (Hinv0 : store_inv pages0) by now do 2 apply store_inv_load.
  assert (Hp0 : forall id, page_at pages0 id = page_at pages id)
    by (intros id; unfold pages0; now rewrite !page_at_load).
  destruct (move_slot_copy from_id to_id i pages0 (Hinv0 from_id)
              (Hinv0 to_id) Hi ltac:(rewrite Hp0; exact He)
              ltac:(rewrite !Hp0; exact Hroom))
    as (bytes & d1 & Hread & Hwrite & Hslot & Hl1 & Hag).
  rewrite !Hp0 in Hread, Hwrite, Hl1, Hag.
  rewrite (Hp0 from_id), (Hp0 to_id) in Hslot.
  rewrite ?(Hp0 from_id), ?(Hp0 to_id) in Hslot.
  exists bytes, d1. split; [exact Hread |]. split; [exact Hwrite |].
  destruct (move_commit_pages from_id to_id i d1
    (metadata_size (page_at pages to_id))
    (slot_length (page_data (page_at pages from_id)) i) pages0)
    as (Hto & Hfrom & _).
  specialize (Hfrom Hne). rewrite !Hp0 in Hto, Hfrom.
  destruct (decide (from_id = to_id)) as [| _]; [contradiction |].
  rewrite (find_free_agree d1 (page_data (page_at pages to_id)) slot_indices
             slot_indices_range Hag) in Hto.
  rewrite <- (first_empty_unfold (page_at pages to_id)) in Hto.
  split; [| split; [exact Hto | split; [exact Hl1 | exact Hag]]].
  assert (Hloop : move_loop from_id to_id slot_indices pages0
                  = Some (true,
                      move_commit from_id to_id i d1
                        (metadata_size (page_at pages to_id))
                        (slot_length (page_data (page_at pages from_id)) i)
                        pages0)).
  { rewrite (AppendFacts.slot_indices_split i) by lia.
    replace (MAX_SLOTS - i) with (1 + (MAX_SLOTS - i - 1)) by lia.
    rewrite (seqZ_app _ 1) by lia. change (seqZ i 1) with [i].
    rewrite move_loop_app, move_loop_skip.
    2:{ intros k Hk. apply elem_of_seqZ in Hk. rewrite Hp0.
        apply Hothers; lia. }
    cbn [mbind option_bind app move_loop]. rewrite Hslot.
    cbn [mbind option_bind]. apply move_loop_skip.
    intros k Hk. apply elem_of_seqZ in Hk. rewrite Hfrom. cbn [page_data].
    pose proof (get_slot_set_empty_other
      (page_data (page_at pages from_id)) i k true ltac:(lia) ltac:(lia)
      ltac:(lia)) as H.
    apply get_slot_eq in H as (-> & _). apply Hothers; lia. }
  apply (moveTuple_of_loop from_id to_id pages _ _ _ Hloop Hfrom).
  intros k Hk. apply elem_of_slot_indices in Hk.
  destruct (Hinv from_id) as (Hlen & _).
  destruct (decide (k = i)) as [-> | Hki].
  - pose proof (get_slot_set_empty (page_data (page_at pages from_id)) i
      true ltac:(lia) ltac:(unfold_consts; lia)) as H.
    now apply get_slot_mk in H as (-> & _).
  - pose proof (get_slot_set_empty_other
      (page_data (page_at pages from_id)) i k true ltac:(lia) ltac:(lia)
      ltac:(lia)) as H.
    apply get_slot_eq in H as (-> & _). now apply Hothers.
Qed.

(** The destination after that move. *)
Lemma move_single_dest from_id to_id i pages :
  store_inv pages -> from_id <> to_id ->
  occupied_slots (page_at pages from_id) = [i] ->
  first_empty (page_at pages to_id) < MAX_SLOTS ->
  metadata_size (page_at pages to_id)
    + slot_length (page_data (page_at pages from_id)) i < PAGE_SIZE ->
  exists pages' bytes,
    moveTupleAcrossPages from_id to_id pages = Some (true, pages') /\
    Mem.read (page_data (page_at pages from_id))
      (slot_offset (page_data (page_at pages from_id)) i)
      (slot_length (page_data (page_at pages from_id)) i) = Some bytes /\
    get_slot (page_data (page_at pages' to_id))
      (first_empty (page_at pages to_id))
    = Slot.mk false (metadata_size (page_at pages to_id))
        (slot_length (page_data (page_at pages from_id)) i) /\
    Mem.read (page_data (page_at pages' to_id))
      (metadata_size (page_at pages to_id))
      (slot_length (page_data (page_at pages from_id)) i) = Some bytes /\
    (forall k, 0 <= k < MAX_SLOTS -> k <> first_empty (page_at pages to_id) ->
       get_slot (page_data (page_at pages' to_id)) k
       = get_slot (page_data (page_at pages to_id)) k) /\
    metadata_size (page_at pages' to_id)
    = metadata_size (page_at pages to_id)
      + slot_length (page_data (page_at pages from_id)) i.
Proof.
  intros Hinv Hne Hocc Hfree Hroom.
  destruct (move_single _ _ _ _ Hinv Hne Hocc Hfree Hroom)
    as (bytes & d1 & Hread & Hwrite & Hmove & Hto & Hl1 & Hag).
  eexists _, bytes. split; [exact Hmove |]. split; [exact Hread |].
  rewrite page_at_insert_ne by congruence. rewrite Hto.
  cbn [page_data metadata_size].
  destruct (Hinv to_id) as (Hlen & Hmeta & _).
  pose proof (slot_length_range (page_data (page_at pages from_id)) i) as Hlr.
  pose proof (first_empty_spec (page_at pages to_id)) as Hspec.
  cbv zeta in Hspec. destruct Hspec as [_ [[Hj _] | [Hj _]]]; [| lia].
  assert (Hact : forall k, 0 <= k ->
    get_slot (activate (first_empty (page_at pages to_id))
                (metadata_size (page_at pages to_id))
                (slot_length (page_data (page_at pages from_id)) i) d1) k
    = if decide (k = first_empty (page_at pages to_id))
      then Slot.mk false (metadata_size (page_at pages to_id))
             (slot_length (page_data (page_at pages from_id)) i)
      else get_slot d1 k).
  { intros k Hk. apply get_slot_activate; unfold_consts; lia. }
  split; [| split; [| split; [| reflexivity]]].
  - rewrite Hact by lia. now rewrite decide_True by reflexivity.
  - pose proof (read_length _ _ _ _ Hread) as Hbl.
    rewrite <- (read_write _ _ _ _ Hwrite), Hbl.
    apply read_agree; [apply length_activate |].
    unfold activate.
    eapply agree_trans;
      [apply agree_set_slot_length; unfold_consts; lia |].
    eapply agree_trans;
      [apply agree_set_slot_offset; unfold_consts; lia |].
    apply agree_set_slot_empty; unfold_consts; lia.
  - intros k Hk Hkj. rewrite Hact by lia.
    rewrite decide_False by assumption.
    apply (get_slot_agree 0 directory_size); [exact Hag | |];
      unfold_consts; lia.
Qed.

End MoveMore.

(** X16. The answer of a move between two different pages is decided by
    the sizes alone: it is true exactly when the source holds no record or
    the lengths of all its records, added to the destination's
    [metadata_size], stay below [PAGE_SIZE]; and after a move that answers
    true the destination's [metadata_size] has grown by just that sum. *)
Theorem X16_move_answer (from_page_id to_page_id : Z) (done : bool)
    (pages pages' : gmap Z SlottedPage) :
  from_page_id <> to_page_id ->
  moveTupleAcrossPages from_page_id to_page_id pages = Some (done, pages') ->
  (done = true <->
   occupied_slots (page_at pages from_page_id) = [] \/
   metadata_size (page_at pages to_page_id)
   + occupied_size (page_at pages from_page_id) < PAGE_SIZE) /\
  (done = true ->
   metadata_size (page_at pages' to_page_id)
   = metadata_size (page_at pages to_page_id)
     + occupied_size (page_at pages from_page_id)).
Proof.
  intros Hne. rewrite MoveFacts.moveTuple_unfold.
  destruct (move_loop from_page_id to_page_id slot_indices
              (load to_page_id (load from_page_id pages)))
    as [[go pages1] |] eqn:Hloop; [| discriminate].
  cbn [mbind option_bind].
  assert (Hidx : Forall (fun i => 0 <= i) slot_indices).
  { eapply Forall_impl; [apply CompactFacts.slot_indices_range |].
    cbn. intros; lia. }
  destruct (MoveMore.move_loop_answer from_page_id to_page_id Hne
              slot_indices _ _ _ (NoDup_seqZ _ _) Hidx Hloop) as [Hm Ha].
  rewrite !MoveFacts.page_at_load in Hm, Ha.
  unfold occupied_slots, occupied_size.
  destruct go.
  - destruct (compactPage (page_at pages1 from_page_id)) as [p |];
      [| discriminate].
    cbn [mbind option_bind]. intros [= <- <-].
    rewrite MoveFacts.page_at_insert_ne by congruence.
    split; [exact Ha | exact Hm].
  - intros [= <- <-]. split; [exact Ha | discriminate].
Qed.

Lemma X16_witness :
  exists p pages',
    do_calls [Insert (mkTuple [7]) zeros] SlottedPage_new = Some p /\
    moveTupleAcrossPages 0 1 (<[0 := p]> ∅) = Some (true, pages') /\
    metadata_size (page_at pages' 1)
    = metadata_size (page_at (<[0 := p]> ∅) 1)
      + occupied_size (page_at (<[0 := p]> ∅) 0).
Proof.
  assert (Hrun : exists p pages',
    do_calls [Insert (mkTuple [7]) zeros] SlottedPage_new = Some p /\
    moveTupleAcrossPages 0 1 (<[0 := p]> ∅) = Some (true, pages')).
  { eexists. eexists. eval_conj. }
  destruct Hrun as (p & pages' & Hrun & Hmove).
  exists p, pages'. split; [exact Hrun |]. split; [exact Hmove |].
  destruct (X16_move_answer 0 1 true (<[0 := p]> ∅) pages') as [_ Hm];
    [discriminate | exact Hmove |].
  exact (Hm eq_refl).
Defined.

(** X17. The move of a page that holds one record into another page with
    a free slot and room behind its [metadata_size] answers true; the
    destination's first empty slot then points to the record's bytes,
    copied to where [metadata_size] stood, no other entry of the
    destination's directory has changed, [metadata_size] has grown by the
    record's length, and the destination prints the record under that
    slot. *)
Theorem X17_move_single (from_page_id to_page_id i : Z)
    (pages : gmap Z SlottedPage) :
  store_inv pages -> from_page_id <> to_page_id ->
  occupied_slots (page_at pages from_page_id) = [i] ->
  first_empty (page_at pages to_page_id) < MAX_SLOTS ->
  metadata_size (page_at pages to_page_id)
    + slot_length (page_data (page_at pages from_page_id)) i < PAGE_SIZE ->
  exists pages' bytes out,
    moveTupleAcrossPages from_page_id to_page_id pages = Some (true, pages') /\
    Mem.read (page_data (page_at pages from_page_id))
      (slot_offset (page_data (page_at pages from_page_id)) i)
      (slot_length (page_data (page_at pages from_page_id)) i) = Some bytes /\
    get_slot (page_data (page_at pages' to_page_id))
      (first_empty (page_at pages to_page_id))
    = Slot.mk false (metadata_size (page_at pages to_page_id))
        (slot_length (page_data (page_at pages from_page_id)) i) /\
    Mem.read (page_data (page_at pages' to_page_id))
      (metadata_size (page_at pages to_page_id))
      (slot_length (page_data (page_at pages from_page_id)) i) = Some bytes /\
    (forall k, 0 <= k < MAX_SLOTS ->
       k <> first_empty (page_at pages to_page_id) ->
       get_slot (page_data (page_at pages' to_page_id)) k
       = get_slot (page_data (page_at pages to_page_id)) k) /\
    metadata_size (page_at pages' to_page_id)
    = metadata_size (page_at pages to_page_id)
      + slot_length (page_data (page_at pages from_page_id)) i /\
    print (page_at pages' to_page_id) = Some out /\
    (first_empty (page_at pages to_page_id), fields (deserialize bytes)) ∈ out.
Proof.
  intros Hinv Hne Hocc Hfree Hroom.
  destruct (MoveMore.move_single_dest _ _ _ _ Hinv Hne Hocc Hfree Hroom)
    as (pages' & bytes & Hmove & Hread & Hslot & Hread' & Hother & Hmeta).
  pose proof (StoreFacts.moveTuple_inv _ _ _ _ _ Hinv Hmove) as Hinv'.
  destruct (PrintFacts.print_defined _ (Hinv' to_page_id)) as [out Hout].
  exists pages', bytes, out.
  split; [exact Hmove |]. split; [exact Hread |]. split; [exact Hslot |].
  split; [exact Hread' |]. split; [exact Hother |]. split; [exact Hmeta |].
  split; [exact Hout |].
  pose proof (AddFacts.first_empty_spec (page_at pages to_page_id)) as Hspec.
  cbv zeta in Hspec. destruct Hspec as [_ [[Hj _] | [Hj _]]]; [| lia].
  pose proof Hslot as Hs. apply SlotFacts.get_slot_mk in Hs as (E1 & E2 & E3).
  rewrite PrintFacts.print_unfold in Hout.
  eapply PrintFacts.print_loop_elem; [exact Hout | | exact E1 |].
  - now apply PrintFacts.elem_of_slot_indices.
  - rewrite E2, E3. exact Hread'.
Qed.

Lemma X17_witness :
  exists p pages' out,
    do_calls [Insert (mkTuple [7]) zeros] SlottedPage_new = Some p /\
    moveTupleAcrossPages 0 1 (<[0 := p]> ∅) = Some (true, pages') /\
    print (page_at pages' 1) = Some out /\ (0, [7]) ∈ out.
Proof.
  assert (Hrun : exists p,
    do_calls [Insert (mkTuple [7]) zeros] SlottedPage_new = Some p /\
    occupied_slots (page_at (<[0 := p]> ∅) 0) = [0] /\
    first_empty (page_at (<[0 := p]> ∅) 1) = 0 /\
    metadata_size (page_at (<[0 := p]> ∅) 1)
      + slot_length (page_data (page_at (<[0 := p]> ∅) 0)) 0 < PAGE_SIZE /\
    (fun bytes => fields (deserialize bytes))
      <$> Mem.read (page_data (page_at (<[0 := p]> ∅) 0))
            (slot_offset (page_data (page_at (<[0 := p]> ∅) 0)) 0)
            (slot_length (page_data (page_at (<[0 := p]> ∅) 0)) 0)
    = Some [7]).
  { eexists. eval_conj. }
  destruct Hrun as (p & Hrun & Hocc & Hfe & Hroom & Hfields).
  assert (Hinv : store_inv (<[0 := p]> ∅)).
  { apply StoreFacts.store_inv_insert; [apply StoreFacts.store_inv_empty |].
    exact (CallFacts.do_calls_inv _ _ _ FreshFacts.SlottedPage_new_inv Hrun). }
  destruct (X17_move_single 0 1 0 _ Hinv) as
    (pages' & bytes & out & Hmove & Hread & _ & _ & _ & _ & Hout & Hin).
  - discriminate.
  - exact Hocc.
  - rewrite Hfe. vm_compute. reflexivity.
  - exact Hroom.
  - exists p, pages', out. split; [exact Hrun |]. split; [exact Hmove |].
    split; [exact Hout |].
    rewrite Hread in Hfields.
    assert (Hf : fields (deserialize bytes) = [7])
      by (injection Hfields as Hf; exact Hf).
    rewrite Hfe, Hf in Hin. exact Hin.
Defined.

(** X18. Inserts never advance [metadata_size], and a move writes at
    [metadata_size]: a record moved into a page that was filled by inserts
    lands on the page's first record.  After the move of a one-record page
    into a page built by a run of inserts, the slot the record got and slot
    0 both start at the end of the directory, their byte ranges overlap,
    and the bytes there are the moved record's. *)
Theorem X18_move_overwrites (from_page_id to_page_id i : Z)
    (pages : gmap Z SlottedPage) (tp0 : Tuple * (nat -> ascii))
    (ts : list (Tuple * (nat -> ascii))) :
  store_inv pages -> from_page_id <> to_page_id ->
  occupied_slots (page_at pages from_page_id) = [i] ->
  appended (tp0 :: ts) (page_at pages to_page_id) ->
  Z.of_nat (length (tp0 :: ts)) < MAX_SLOTS ->
  0 < getSize tp0.1 ->
  0 < slot_length (page_data (page_at pages from_page_id)) i ->
  directory_size + slot_length (page_data (page_at pages from_page_id)) i
    < PAGE_SIZE ->
  exists pages' bytes,
    moveTupleAcrossPages from_page_id to_page_id pages = Some (true, pages') /\
    Mem.read (page_data (page_at pages from_page_id))
      (slot_offset (page_data (page_at pages from_page_id)) i)
      (slot_length (page_data (page_at pages from_page_id)) i) = Some bytes /\
    get_slot (page_data (page_at pages' to_page_id)) 0
    = Slot.mk false directory_size (getSize tp0.1) /\
    get_slot (page_data (page_at pages' to_page_id))
      (Z.of_nat (length (tp0 :: ts)))
    = Slot.mk false directory_size
        (slot_length (page_data (page_at pages from_page_id)) i) /\
    overlap (page_data (page_at pages' to_page_id)) 0
      (Z.of_nat (length (tp0 :: ts))) /\
    Mem.read (page_data (page_at pages' to_page_id)) directory_size
      (slot_length (page_data (page_at pages from_page_id)) i) = Some bytes.
Proof.
  intros Hinv Hne Hocc Happ Hn Hsz Hlen Hroom.
  pose proof (AppendFacts.appended_first_empty _ _ Happ Hn) as Hfe.
  destruct Happ as (_ & Hm & Hslots & _).
  destruct (Hslots 0%nat tp0 eq_refl) as [Hs0 _].
  change (start_of (tp0 :: ts) 0) with (directory_size + 0) in Hs0.
  rewrite Z.add_0_r in Hs0. change (Z.of_nat 0) with 0 in Hs0.
  destruct (MoveMore.move_single_dest _ _ _ _ Hinv Hne Hocc
              ltac:(rewrite Hfe; exact Hn) ltac:(rewrite Hm; exact Hroom))
    as (pages' & bytes & Hmove & Hread & Hslot & Hread' & Hother & _).
  rewrite Hfe, Hm in Hslot. rewrite Hm in Hread'. rewrite Hfe in Hother.
  specialize (Hother 0 ltac:(unfold MAX_SLOTS; lia)
                ltac:(cbn [length]; lia)).
  rewrite Hs0 in Hother.
  exists pages', bytes.
  split; [exact Hmove |]. split; [exact Hread |]. split; [exact Hother |].
  split; [exact Hslot |]. split; [| exact Hread'].
  exists directory_size.
  apply SlotFacts.get_slot_mk in Hother as (_ & -> & ->).
  apply SlotFacts.get_slot_mk in Hslot as (_ & -> & ->). lia.
Qed.

Lemma X18_witness :
  exists p0 p1 pages',
    do_calls [Insert (mkTuple [7]) zeros] SlottedPage_new = Some p0 /\
    do_calls (inserts [(mkTuple [1; 2], zeros)]) SlottedPage_new = Some p1 /\
    moveTupleAcrossPages 0 1 (<[1 := p1]> (<[0 := p0]> ∅))
      = Some (true, pages') /\
    overlap (page_data (page_at pages' 1)) 0 1.
Proof.
  destruct (AppendFacts.inserts_appended [(mkTuple [1; 2], zeros)])
    as (p1 & Hrun1 & Happ); [vm_compute; discriminate | vm_compute; reflexivity |].
  assert (Hrun : exists p0,
    do_calls [Insert (mkTuple [7]) zeros] SlottedPage_new = Some p0 /\
    occupied_slots (page_at (<[1 := p1]> (<[0 := p0]> ∅)) 0) = [0] /\
    0 < slot_length (page_data (page_at (<[1 := p1]> (<[0 := p0]> ∅)) 0)) 0 /\
    directory_size
      + slot_length (page_data (page_at (<[1 := p1]> (<[0 := p0]> ∅)) 0)) 0
      < PAGE_SIZE).
  { eexists. eval_conj. }
  destruct Hrun as (p0 & Hrun0 & Hocc & Hpos & Hroom).
  assert (Hinv : store_inv (<[1 := p1]> (<[0 := p0]> ∅))).
  { apply StoreFacts.store_inv_insert; [| apply Happ].
    apply StoreFacts.store_inv_insert; [apply StoreFacts.store_inv_empty |].
    exact (CallFacts.do_calls_inv _ _ _ FreshFacts.SlottedPage_new_inv Hrun0). }
  destruct (X18_move_overwrites 0 1 0 _ (mkTuple [1; 2], zeros) [] Hinv)
    as (pages' & bytes & Hmove & _ & _ & _ & Hov & _).
  - discriminate.
  - exact Hocc.
  - rewrite MoveFacts.page_at_insert_eq. exact Happ.
  - vm_compute. reflexivity.
  - vm_compute. reflexivity.
  - exact Hpos.
  - exact Hroom.
  - exists p0, p1, pages'. split; [exact Hrun0 |]. split; [exact Hrun1 |].
    split; [exact Hmove | exact Hov].
Defined.

(** ** The page ids of the store, the fresh page, delete and compact *)

Module DomFacts.
Import MoveFacts StoreFacts.

Lemma dom_update_page k f (m : gmap Z SlottedPage) :
  dom (update_page k f m) = {[k]} ∪ dom m.
Proof. unfold update_page. apply dom_insert_L. Qed.

Lemma dom_load k (m : gmap Z SlottedPage) : dom (load k m) = {[k]} ∪ dom m.
Proof.
  unfold load. destruct (m !! k) as [p |] eqn:Hk.
  - apply elem_of_dom_2 in Hk. clear -Hk. set_solver.
  - apply dom_insert_L.
Qed.

Lemma dom_move_commit from_id to_id i d1 off len (m : gmap Z SlottedPage) :
  dom (move_commit from_id to_id i d1 off len m)
  = {[from_id; to_id]} ∪ dom m.
Proof.
  unfold move_commit, move_free. rewrite !dom_update_page. clear. set_solver.
Qed.

Lemma dom_move_slot from_id to_id i pages go pages' :
  move_slot from_id to_id i pages = Some (go, pages') ->
  from_id ∈ dom pages -> to_id ∈ dom pages -> dom pages' = dom pages.
Proof.
  intros Hs Hf Ht.
  destruct (move_slot_cases _ _ _ _ _ _ Hs)
    as [(_ & _ & ->) | [(_ & _ & ->) | (_ & _ & d1 & ->)]];
    [reflexivity | reflexivity |].
  rewrite dom_move_commit. clear -Hf Ht. set_solver.
Qed.

Lemma dom_move_loop from_id to_id : forall idx pages go pages',
  move_loop from_id to_id idx pages = Some (go, pages') ->
  from_id ∈ dom pages -> to_id ∈ dom pages -> dom pages' = dom pages.
Proof.
  induction idx as [| i idx IH]; intros pages go pages'; cbn [move_loop].
  - now intros [= <- <-].
  - destruct (move_slot from_id to_id i pages) as [[g q] |] eqn:Hs;
      [| discriminate].
    cbn [mbind option_bind]. intros Hl Hf Ht.
    pose proof (dom_move_slot _ _ _ _ _ _ Hs Hf Ht) as Hq.
    destruct g.
    + rewrite <- Hq. apply (IH q go pages' Hl); rewrite Hq; assumption.
    + injection Hl as _ <-. exact Hq.
Qed.

End DomFacts.

(** X19. A move neither drops nor renames a page: the ids stored after the
    call are those stored before together with the ids of the source and
    the destination, which [load] creates when they are new - also when
    the call answers false. *)
Theorem X19_move_page_ids (from_page_id to_page_id : Z) (done : bool)
    (pages pages' : gmap Z SlottedPage) :
  moveTupleAcrossPages from_page_id to_page_id pages = Some (done, pages') ->
  dom pages' = {[from_page_id; to_page_id]} ∪ dom pages.
Proof.
  rewrite MoveFacts.moveTuple_unfold.
  destruct (move_loop from_page_id to_page_id slot_indices
              (load to_page_id (load from_page_id pages)))
    as [[d pages1] |] eqn:Hloop; [| discriminate].
  cbn [mbind option_bind]. intros Hm.
  assert (Hd0 : dom (load to_page_id (load from_page_id pages))
                = {[from_page_id; to_page_id]} ∪ dom pages)
    by (clear; rewrite !DomFacts.dom_load; set_solver).
  assert (Hf : from_page_id ∈ dom (load to_page_id (load from_page_id pages)))
    by (clear -Hd0; rewrite Hd0; set_solver).
  assert (Ht : to_page_id ∈ dom (load to_page_id (load from_page_id pages)))
    by (clear -Hd0; rewrite Hd0; set_solver).
  pose proof (DomFacts.dom_move_loop _ _ _ _ _ _ Hloop Hf Ht) as Hd1.
  rewrite Hd0 in Hd1.
  destruct d.
  - destruct (compactPage (page_at pages1 from_page_id)) as [p |];
      [| discriminate].
    cbn [mbind option_bind] in Hm. injection Hm as _ <-.
    rewrite dom_insert_L, Hd1. clear. set_solver.
  - injection Hm as _ <-. exact Hd1.
Qed.

Lemma X19_witness :
  exists done pages',
    moveTupleAcrossPages 4 9 (<[2 := SlottedPage_new]> ∅)
      = Some (done, pages') /\
    dom pages'
    = {[4; 9]} ∪ dom (<[2 := SlottedPage_new]> (∅ : gmap Z SlottedPage)).
Proof.
  assert (Hrun : exists done pages',
    moveTupleAcrossPages 4 9 (<[2 := SlottedPage_new]> ∅)
      = Some (done, pages'))
    by (eexists; eexists; vm_compute; reflexivity).
  destruct Hrun as (done & pages' & Hmove). exists done, pages'.
  split; [exact Hmove |].
  exact (X19_move_page_ids 4 9 done _ pages' Hmove).
Defined.

Module FreshMore.
Import MemFacts SlotFacts AddFacts.

Lemma fresh_data :
  drop (Z.to_nat directory_size) (page_data SlottedPage_new)
  = replicate (Z.to_nat (PAGE_SIZE - directory_size)) Mem.NUL.
Proof. vm_compute. reflexivity. Qed.

Lemma fresh_load a :
  directory_size <= a < PAGE_SIZE ->
  Mem.load (page_data SlottedPage_new) a = Mem.NUL.
Proof.
  intros Ha. unfold Mem.load.
  replace (Z.to_nat a)
    with (Z.to_nat directory_size + (Z.to_nat a - Z.to_nat directory_size))%nat
    by (unfold_consts; lia).
  rewrite <- lookup_drop, fresh_data, lookup_replicate_2; [reflexivity |].
  unfold_consts; lia.
Qed.

(** Clearing a slot in an ordered layout. *)
Lemma ordered_from_clear d i : forall idx lo,
  Z.of_nat (length d) = PAGE_SIZE -> 0 <= i < MAX_SLOTS ->
  Forall (fun k => 0 <= k < MAX_SLOTS) idx ->
  ordered_from idx lo d -> ordered_from idx lo (set_slot_empty d i true).
Proof.
  intros idx lo Hlen Hi. revert lo.
  induction idx as [| j idx IH]; intros lo Hidx; cbn [ordered_from]; [auto |].
  apply Forall_cons in Hidx as [Hj Hidx].
  destruct (decide (j = i)) as [-> | Hne].
  - pose proof (get_slot_set_empty d i true ltac:(lia)
      ltac:(unfold_consts; lia)) as H.
    apply get_slot_mk in H as (-> & _ & _).
    destruct (slot_empty d i); [now apply IH |].
    intros [Hlo Hrest]. apply IH; [assumption |].
    eapply CompactFacts.ordered_from_mono; [| exact Hrest].
    pose proof (slot_length_range d i). lia.
  - pose proof (get_slot_set_empty_other d i j true ltac:(lia) ltac:(lia)
      ltac:(congruence)) as H.
    apply get_slot_eq in H as (-> & -> & ->).
    destruct (slot_empty d j); [now apply IH |].
    intros [Hlo Hrest]. split; [assumption | now apply IH].
Qed.

Lemma ordered_layout_delete index p :
  ordered_layout p -> ordered_layout (deleteTuple index p).
Proof.
  intros (Hlen & Hmeta & Hord). unfold deleteTuple.
  destruct (Z.ltb_spec (Z.of_N index) MAX_SLOTS) as [Hlt |]; cbn [andb];
    [| now split].
  destruct (slot_empty (page_data p) (Z.of_N index)); cbn [negb];
    [now split |].
  split; [cbn [page_data]; now rewrite length_set_slot_empty |].
  split; [exact Hmeta |]. cbn [page_data metadata_size].
  apply ordered_from_clear;
    [assumption | lia | apply CompactFacts.slot_indices_range | assumption].
Qed.

End FreshMore.

(** X20. The constructor hands out a page of [PAGE_SIZE] bytes whose
    [MAX_SLOTS] directory entries are all empty with offset and length
    [INVALID_VALUE], whose [metadata_size] is the size of the directory and
    whose data region holds zero bytes; it prints nothing, and its first
    free slot is slot 0. *)
Theorem X20_fresh_page :
  Z.of_nat (length (page_data SlottedPage_new)) = PAGE_SIZE /\
  metadata_size SlottedPage_new = directory_size /\
  (forall i, 0 <= i < MAX_SLOTS ->
     get_slot (page_data SlottedPage_new) i
     = Slot.mk true INVALID_VALUE INVALID_VALUE) /\
  (forall a, directory_size <= a < PAGE_SIZE ->
     Mem.load (page_data SlottedPage_new) a = Mem.NUL) /\
  print SlottedPage_new = Some [] /\
  first_empty SlottedPage_new = 0.
Proof.
  split; [apply FreshFacts.fresh_length |]. split; [reflexivity |].
  split; [exact FreshFacts.fresh_slot |].
  split; [exact FreshMore.fresh_load |]. split.
  - rewrite PrintFacts.print_unfold. apply StoreFacts.print_loop_empty.
    intros k Hk. apply PrintFacts.elem_of_slot_indices in Hk.
    pose proof (FreshFacts.fresh_slot k Hk) as H.
    now apply SlotFacts.get_slot_mk in H as (-> & _).
  - vm_compute. reflexivity.
Qed.

Lemma X20_witness :
  get_slot (page_data SlottedPage_new) 511
  = Slot.mk true INVALID_VALUE INVALID_VALUE /\
  Mem.load (page_data SlottedPage_new) 4095 = Mem.NUL.
Proof.
  destruct X20_fresh_page as (_ & _ & Hslot & Hdata & _).
  split; [apply (Hslot 511) | apply (Hdata 4095)];
    vm_compute; (split; [discriminate | reflexivity]).
Defined.

(** X21. Delete, then compact: on a page whose records lie in directory
    order without overlap, the compaction after a delete is defined, packs
    what is left from [metadata_size] on, and the page then prints the
    lines it printed before the delete less the line of the deleted slot. *)
Theorem X21_delete_then_compact (index : N) (p : SlottedPage)
    (out : list (Z * list Z)) :
  ordered_layout p -> print p = Some out ->
  exists p',
    compactPage (deleteTuple index p) = Some p' /\
    print p' = Some (filter (λ e, e.1 <> Z.of_N index) out) /\
    packed_from slot_indices (metadata_size p') (page_data p') /\
    metadata_size p' = metadata_size p.
Proof.
  intros Hord Hout.
  pose proof (CompactFacts.ordered_layout_inv p Hord) as Hinv.
  pose proof (FreshMore.ordered_layout_delete index p Hord) as Hord'.
  pose proof (CompactFacts.ordered_layout_inv _ Hord') as Hinv'.
  assert (Hprint : print (deleteTuple index p)
                   = Some (filter (λ e, e.1 <> Z.of_N index) out)).
  { destruct Hinv as (Hlen & _ & Hreg).
    rewrite !PrintFacts.print_unfold. rewrite PrintFacts.print_unfold in Hout.
    unfold deleteTuple.
    destruct (Z.ltb_spec (Z.of_N index) MAX_SLOTS) as [Hlt | Hge];
      cbn [andb].
    - destruct (slot_empty (page_data p) (Z.of_N index)) eqn:He; cbn [negb].
      + rewrite PrintMore.filter_keys_id; [assumption |].
        rewrite (PrintMore.print_loop_keys _ _ _ Hout).
        rewrite list_elem_of_filter. intros [Hocc _]. congruence.
      + cbn [page_data]. apply PrintMore.print_loop_clear; try assumption;
          [lia | apply CompactFacts.slot_indices_range].
    - rewrite PrintMore.filter_keys_id; [assumption |].
      rewrite (PrintMore.print_loop_keys _ _ _ Hout).
      rewrite list_elem_of_filter, PrintFacts.elem_of_slot_indices. lia. }
  destruct Hord' as (Hlen' & Hmeta' & Hfrom').
  destruct (OrderedFacts.compact_loop_ordered slot_indices
              (metadata_size (deleteTuple index p))
              (page_data (deleteTuple index p)) Hlen'
              CompactFacts.slot_indices_range (NoDup_seqZ _ _) Hmeta' Hfrom')
    as (d' & Hloop & Hl' & Hsame & _).
  exists (mkPage d' (metadata_size (deleteTuple index p))).
  rewrite CompactFacts.compactPage_unfold, Hloop.
  split; [reflexivity |]. cbn [page_data metadata_size].
  split; [| split; [| apply CallFacts.deleteTuple_meta]].
  - rewrite PrintFacts.print_unfold. cbn [page_data]. rewrite Hsame.
    rewrite <- PrintFacts.print_unfold. exact Hprint.
  - destruct Hinv' as (_ & _ & Hreg').
    exact (PackedFacts.compact_loop_packed _ _ _ _ Hlen'
             CompactFacts.slot_indices_range (NoDup_seqZ _ _) Hmeta' Hreg'
             Hloop).
Qed.

Lemma X21_witness :
  exists p p',
    do_calls (inserts [(mkTuple [4; 5], zeros); (mkTuple [6], zeros)])
      SlottedPage_new = Some p /\
    compactPage (deleteTuple 0 p) = Some p' /\
    print p' = Some [(1, [6])].
Proof.
  destruct (AppendFacts.inserts_appended
              [(mkTuple [4; 5], zeros); (mkTuple [6], zeros)])
    as (p & Hrun & Happ); [vm_compute; discriminate | vm_compute; reflexivity |].
  pose proof (AppendFacts.appended_print _ p Happ
                ltac:(vm_compute; discriminate)) as Hprint.
  assert (Hord : ordered_layout p).
  { pose proof (AppendFacts.appended_packed _ p Happ
                  ltac:(vm_compute; discriminate)) as Hpacked.
    destruct Happ as ((Hlen & Hmeta & Hreg) & Hm & _).
    split; [exact Hlen |]. split; [exact Hmeta |].
    apply PackedFacts.packed_ordered;
      [apply CompactFacts.slot_indices_range | exact Hreg
      | rewrite Hm; vm_compute; discriminate | exact Hpacked]. }
  destruct (X21_delete_then_compact 0 p _ Hord Hprint)
    as (p' & Hc & Hp' & _).
  exists p, p'. split; [exact Hrun |]. split; [exact Hc |].
  rewrite Hp'. vm_compute. reflexivity.
Defined.

(** ** Moving the records of a run of inserts *)

Module RunFacts.
Import MemFacts SlotFacts AddFacts PrintFacts CompactFacts CallFacts.
Import MoveFacts StoreFacts AppendFacts MoveMore.

Section Run.
Variables (from_id to_id : Z) (ts : list (Tuple * (nat -> ascii))).
Variable p : SlottedPage.
Hypothesis Hne : from_id <> to_id.
Hypothesis Happ : appended ts p.
Hypothesis Hn : Z.of_nat (length ts) <= MAX_SLOTS.
Hypothesis Hfit : directory_size + total_size ts < PAGE_SIZE.

Lemma moved_first_empty k q :
  moved from_id to_id ts p k q -> Z.of_nat k < MAX_SLOTS ->
  (k <= length ts)%nat ->
  first_empty (page_at q to_id) = Z.of_nat k.
Proof.
  intros (_ & _ & Hocc & Hfree & _) Hk Hkn.
  destruct (first_empty_spec (page_at q to_id))
    as [Hbefore [[Hj He] | [Hj Hall]]].
  - destruct (Z.lt_trichotomy (first_empty (page_at q to_id)) (Z.of_nat k))
      as [Hlt | [Heq | Hgt]]; [| assumption |].
    + destruct (lookup_lt_is_Some_2 ts
                  (Z.to_nat (first_empty (page_at q to_id))) ltac:(lia))
        as [tp Htp].
      destruct (Hocc (Z.to_nat (first_empty (page_at q to_id))) tp
                  ltac:(lia) Htp) as [Hs _].
      rewrite Z2Nat.id in Hs by lia.
      apply get_slot_mk in Hs as (E & _). congruence.
    + specialize (Hbefore (Z.of_nat k) ltac:(lia) ltac:(lia)).
      rewrite Hfree in Hbefore by lia. discriminate.
  - specialize (Hall (Z.of_nat k) ltac:(lia)).
    rewrite Hfree in Hall by lia. discriminate.
Qed.

(** The round on slot [k]. *)
Lemma moved_step k q tp :
  moved from_id to_id ts p k q -> ts !! k = Some tp ->
  exists q', move_slot from_id to_id (Z.of_nat k) q = Some (true, q') /\
             moved from_id to_id ts p (S k) q'.
Proof.
  intros Hq Hk.
  pose proof (lookup_lt_Some _ _ _ Hk) as Hkn.
  pose proof (moved_first_empty k q Hq ltac:(lia) ltac:(lia)) as Hfe.
  destruct Hq as (Hinv & Hm & Hocc & Hfree & Hsrc & Hgone & Hmf & Hag).
  destruct Happ as (Hpinv & _ & Hpocc & _).
  destruct (Hpocc _ _ Hk) as [Hps Hpr].
  pose proof (Hsrc (Z.of_nat k) ltac:(lia)) as Hs. rewrite Hps in Hs.
  apply get_slot_mk in Hs as (Es & Eo & El).
  pose proof (getSize_nonneg tp.1) as Hsz.
  pose proof (start_of_ge ts k) as Hge.
  pose proof (start_of_S _ _ _ Hk) as HS.
  pose proof (start_of_le ts (S k) (length ts) ltac:(lia)) as Hle.
  rewrite start_of_all in Hle.
  destruct (move_slot_copy from_id to_id (Z.of_nat k) q (Hinv from_id)
              (Hinv to_id) ltac:(lia) Es ltac:(rewrite Hm, El; lia))
    as (bytes & d1 & Hread & Hwrite & Hslot & Hl1 & Hag1).
  rewrite Eo, El in Hread. rewrite El, Hm in Hslot. rewrite Hm in Hwrite.
  destruct (Hinv from_id) as (Hlf & _). destruct (Hinv to_id) as (Hlt & _).
  destruct Hpinv as (Hlp & _).
  assert (Hbytes : bytes = stored_bytes tp).
  { rewrite (read_agree _ (page_data p)) in Hread
      by (first [lia | eapply agree_sub; [exact Hag | lia | lia]]).
    congruence. }
  subst bytes.
  pose proof (read_length _ _ _ _ Hread) as Hbl.
  eexists. split; [exact Hslot |].
  destruct (move_commit_pages from_id to_id (Z.of_nat k) d1 (start_of ts k)
              (getSize tp.1) q) as (Hto & Hfrom & _).
  specialize (Hfrom Hne).
  destruct (decide (from_id = to_id)) as [| _]; [contradiction |].
  rewrite (find_free_agree d1 (page_data (page_at q to_id)) slot_indices
             slot_indices_range Hag1) in Hto.
  rewrite <- (first_empty_unfold (page_at q to_id)), Hfe, Hm in Hto.
  assert (Hact : forall j, 0 <= j ->
    get_slot (activate (Z.of_nat k) (start_of ts k) (getSize tp.1) d1) j
    = if decide (j = Z.of_nat k)
      then Slot.mk false (start_of ts k) (getSize tp.1)
      else get_slot d1 j).
  { intros j Hj. apply get_slot_activate; unfold_consts; lia. }
  assert (Hagd : agree directory_size PAGE_SIZE
            (activate (Z.of_nat k) (start_of ts k) (getSize tp.1) d1) d1).
  { unfold activate.
    eapply agree_trans;
      [apply agree_set_slot_length; unfold_consts; lia |].
    eapply agree_trans;
      [apply agree_set_slot_offset; unfold_consts; lia |].
    apply agree_set_slot_empty; unfold_consts; lia. }
  split; [| split; [| split; [| split; [| split; [| split; [| split]]]]]].
  - eapply move_slot_inv; [exact Hinv | | exact Hslot]. lia.
  - rewrite Hto. cbn [metadata_size]. lia.
  - intros j tq Hj Htq. rewrite Hto. cbn [page_data].
    destruct (decide (j = k)) as [-> | Hjk].
    + assert (tq = tp) as -> by congruence.
      rewrite Hact by lia. rewrite decide_True by reflexivity.
      split; [reflexivity |].
      rewrite <- (read_write _ _ _ _ Hwrite), Hbl.
      apply read_agree; [apply length_activate |].
      eapply agree_sub; [exact Hagd | lia | lia].
    + destruct (Hocc j tq ltac:(lia) Htq) as [Hsj Hrj].
      rewrite Hact by lia. rewrite decide_False by lia.
      rewrite (get_slot_agree 0 directory_size d1
                 (page_data (page_at q to_id)) (Z.of_nat j) Hag1)
        by (unfold_consts; lia).
      split; [exact Hsj |]. rewrite <- Hrj.
      pose proof (start_of_S _ _ _ Htq) as HSj.
      pose proof (start_of_le ts (S j) k ltac:(lia)) as Hlej.
      pose proof (start_of_ge ts j) as Hgej.
      pose proof (getSize_nonneg tq.1) as Hszj.
      rewrite (read_agree _ d1)
        by (first [apply length_activate
                  | eapply agree_sub; [exact Hagd | lia | lia]]).
      apply read_agree; [exact Hl1 |].
      eapply agree_write; [exact Hwrite | unfold_consts; lia | lia].
  - intros j Hj. rewrite Hto. cbn [page_data].
    pose proof (Hact j ltac:(lia)) as H.
    rewrite decide_False in H by lia.
    rewrite (get_slot_agree 0 directory_size d1
               (page_data (page_at q to_id)) j Hag1) in H
      by (unfold_consts; lia).
    apply get_slot_eq in H as (-> & _). apply Hfree. lia.
  - intros j Hj. rewrite Hfrom. cbn [page_data].
    rewrite get_slot_set_empty_other by lia. apply Hsrc. lia.
  - intros j Hj. rewrite Hfrom. cbn [page_data].
    destruct (decide (j = Z.of_nat k)) as [-> | Hjk].
    + pose proof (get_slot_set_empty (page_data (page_at q from_id))
        (Z.of_nat k) true ltac:(lia) ltac:(unfold_consts; lia)) as H.
      now apply get_slot_mk in H as (-> & _).
    + pose proof (get_slot_set_empty_other (page_data (page_at q from_id))
        (Z.of_nat k) j true ltac:(lia) ltac:(lia) ltac:(lia)) as H.
      apply get_slot_eq in H as (-> & _). apply Hgone. lia.
  - rewrite Hfrom. exact Hmf.
  - rewrite Hfrom. cbn [page_data].
    eapply agree_trans; [| exact Hag].
    apply agree_set_slot_empty; unfold_consts; lia.
Qed.

(** The rounds on the slots of the run. *)
Lemma moved_loop q0 :
  moved from_id to_id ts p 0 q0 ->
  forall k, (k <= length ts)%nat ->
  exists q, move_loop from_id to_id (seqZ 0 (Z.of_nat k)) q0 = Some (true, q) /\
            moved from_id to_id ts p k q.
Proof.
  intros H0. induction k as [| k IH]; intros Hk.
  - exists q0. split; [reflexivity | exact H0].
  - destruct (IH ltac:(lia)) as (q & Hloop & Hq).
    destruct (lookup_lt_is_Some_2 ts k ltac:(lia)) as [tp Htp].
    destruct (moved_step k q tp Hq Htp) as (q' & Hs & Hq').
    exists q'. split; [| exact Hq'].
    replace (Z.of_nat (S k)) with (Z.of_nat k + 1) by lia.
    rewrite seqZ_app by lia. change (seqZ (0 + Z.of_nat k) 1)
      with [0 + Z.of_nat k]. rewrite Z.add_0_l.
    rewrite move_loop_app, Hloop, bind_Some. cbv beta iota.
    cbn [move_loop]. rewrite Hs. reflexivity.
Qed.

End Run.

(** The move of a page filled by a run of inserts into a fresh page. *)
Lemma move_run (from_page_id to_page_id : Z)
    (ts : list (Tuple * (nat -> ascii))) (pages : gmap Z SlottedPage) :
  store_inv pages -> from_page_id <> to_page_id ->
  appended ts (page_at pages from_page_id) ->
  page_at pages to_page_id = SlottedPage_new ->
  Z.of_nat (length ts) <= MAX_SLOTS ->
  directory_size + total_size ts < PAGE_SIZE ->
  exists pages',
    moveTupleAcrossPages from_page_id to_page_id pages = Some (true, pages') /\
    (forall k tp, ts !! k = Some tp ->
       get_slot (page_data (page_at pages' to_page_id)) (Z.of_nat k)
         = Slot.mk false (start_of ts k) (getSize tp.1) /\
       Mem.read (page_data (page_at pages' to_page_id)) (start_of ts k)
         (getSize tp.1) = Some (stored_bytes tp)) /\
    (forall k, Z.of_nat (length ts) <= k < MAX_SLOTS ->
       slot_empty (page_data (page_at pages' to_page_id)) k = true) /\
    metadata_size (page_at pages' to_page_id)
    = directory_size + total_size ts /\
    print (page_at pages' to_page_id) = print (page_at pages from_page_id) /\
    print (page_at pages' from_page_id) = Some [] /\
    appended ts
      (mkPage (page_data (page_at pages' to_page_id)) directory_size).
Proof.
  intros Hinv Hne Happ Hto Hn Hfit.
  set (pages0 := load to_page_id (load from_page_id pages)).
  assert (Hp0 : forall id, page_at pages0 id = page_at pages id)
    by (intros id; unfold pages0; now rewrite !MoveFacts.page_at_load).
  assert (H0 : moved from_page_id to_page_id ts
                 (page_at pages from_page_id) 0 pages0).
  { split; [unfold pages0; now do 2 apply StoreFacts.store_inv_load |].
    rewrite !Hp0, Hto.
    split; [unfold start_of; cbn [take total_size foldr]; now rewrite Z.add_0_r |].
    split; [intros j tp Hj; lia |]. split.
    { intros j Hj. pose proof (FreshFacts.fresh_slot j ltac:(lia)) as H.
      now apply SlotFacts.get_slot_mk in H as (-> & _). }
    split; [reflexivity |]. split; [intros j Hj; lia |].
    split; [reflexivity | apply MemFacts.agree_refl]. }
  destruct (moved_loop from_page_id to_page_id ts _ Hne Happ Hn Hfit
              pages0 H0 (length ts) ltac:(lia)) as (q & Hloop & Hq).
  destruct Hq as (Hinvq & Hm & Hocc & Hfree & Hsrc & Hgone & Hmf & Hag).
  pose proof Happ as (_ & _ & _ & Hpfree).
  assert (Hempty : forall k, k ∈ slot_indices ->
            slot_empty (page_data (page_at q from_page_id)) k = true).
  { intros k Hk. apply PrintFacts.elem_of_slot_indices in Hk.
    destruct (Z.lt_ge_cases k (Z.of_nat (length ts))) as [Hlt | Hge].
    - apply Hgone. lia.
    - pose proof (Hsrc k ltac:(lia)) as H.
      apply SlotFacts.get_slot_eq in H as (-> & _). apply Hpfree. lia. }
  assert (Hall : move_loop from_page_id to_page_id slot_indices pages0
                 = Some (true, q)).
  { rewrite (AppendFacts.slot_indices_split (Z.of_nat (length ts))) by lia.
    rewrite MoveFacts.move_loop_app, Hloop, MoveMore.bind_Some.
    cbv beta iota. apply MoveMore.move_loop_skip.
    intros k Hk. apply Hempty, PrintFacts.elem_of_slot_indices.
    apply elem_of_seqZ in Hk. lia. }
  assert (Heta : page_at q from_page_id
                 = mkPage (page_data (page_at q from_page_id))
                          (metadata_size (page_at q from_page_id)))
    by now destruct (page_at q from_page_id).
  pose proof (MoveMore.moveTuple_of_loop from_page_id to_page_id pages q
                _ _ Hall Heta Hempty) as Hmove.
  eexists. split; [exact Hmove |].
  rewrite MoveFacts.page_at_insert_ne by congruence.
  rewrite MoveFacts.page_at_insert_eq.
  split; [intros k tp Hk; apply Hocc; [| exact Hk];
          apply lookup_lt_Some in Hk; exact Hk |].
  split; [exact Hfree |].
  split; [rewrite Hm; apply AppendFacts.start_of_all |].
  assert (Hdest : appended ts
            (mkPage (page_data (page_at q to_page_id)) directory_size)).
  { destruct (Hinvq to_page_id) as (Hl & _ & Hreg).
    split; [split; [exact Hl | split; [cbn; lia | exact Hreg]] |].
    split; [reflexivity |]. cbn [page_data].
    split; [| exact Hfree].
    intros k tp Hk. apply Hocc; [| exact Hk].
    apply lookup_lt_Some in Hk. exact Hk. }
  split; [| split; [| exact Hdest]].
  - rewrite (AppendFacts.appended_print ts _ Happ Hn).
    rewrite <- (AppendFacts.appended_print ts _ Hdest Hn).
    rewrite !PrintFacts.print_unfold. reflexivity.
  - rewrite PrintFacts.print_unfold. cbn [page_data].
    apply StoreFacts.print_loop_empty. exact Hempty.
Qed.

End RunFacts.

(** X22. Moving a page that was filled by a run of inserts into a fresh
    page - the records fitting behind the directory - answers true and
    carries the records over: the destination then holds record [k] in slot
    [k] with the bytes the insert stored, the records back to back behind
    the directory, its [metadata_size] stands behind the last of them, it
    prints what the source printed before the call, and the source prints
    nothing. *)
Theorem X22_move_run (from_page_id to_page_id : Z)
    (ts : list (Tuple * (nat -> ascii))) (pages : gmap Z SlottedPage) :
  store_inv pages -> from_page_id <> to_page_id ->
  appended ts (page_at pages from_page_id) ->
  page_at pages to_page_id = SlottedPage_new ->
  Z.of_nat (length ts) <= MAX_SLOTS ->
  directory_size + total_size ts < PAGE_SIZE ->
  exists pages',
    moveTupleAcrossPages from_page_id to_page_id pages = Some (true, pages') /\
    (forall k tp, ts !! k = Some tp ->
       get_slot (page_data (page_at pages' to_page_id)) (Z.of_nat k)
         = Slot.mk false (start_of ts k) (getSize tp.1) /\
       Mem.read (page_data (page_at pages' to_page_id)) (start_of ts k)
         (getSize tp.1) = Some (stored_bytes tp)) /\
    (forall k, Z.of_nat (length ts) <= k < MAX_SLOTS ->
       slot_empty (page_data (page_at pages' to_page_id)) k = true) /\
    metadata_size (page_at pages' to_page_id)
    = directory_size + total_size ts /\
    print (page_at pages' to_page_id) = print (page_at pages from_page_id) /\
    print (page_at pages' from_page_id) = Some [].
Proof.
  intros Hinv Hne Happ Hto Hn Hfit.
  destruct (RunFacts.move_run _ _ _ _ Hinv Hne Happ Hto Hn Hfit)
    as (pages' & Hmove & Hocc & Hfree & Hm & Hprint & Hsrc & _).
  exists pages'. split; [exact Hmove |]. split; [exact Hocc |].
  split; [exact Hfree |]. split; [exact Hm |].
  split; [exact Hprint | exact Hsrc].
Qed.

Lemma X22_witness :
  exists p pages',
    do_calls (inserts [(mkTuple [1; 2], zeros); (mkTuple [3], zeros)])
      SlottedPage_new = Some p /\
    moveTupleAcrossPages 0 1 (<[0 := p]> ∅) = Some (true, pages') /\
    print (page_at pages' 1) = print p /\
    print (page_at pages' 0) = Some [].
Proof.
  destruct (AppendFacts.inserts_appended
              [(mkTuple [1; 2], zeros); (mkTuple [3], zeros)])
    as (p & Hrun & Happ); [vm_compute; discriminate | vm_compute; reflexivity |].
  assert (Hinv : store_inv (<[0 := p]> ∅)).
  { apply StoreFacts.store_inv_insert; [apply StoreFacts.store_inv_empty |].
    apply Happ. }
  destruct (X22_move_run 0 1 [(mkTuple [1; 2], zeros); (mkTuple [3], zeros)]
              (<[0 := p]> ∅) Hinv)
    as (pages' & Hmove & _ & _ & _ & Hprint & Hsrc).
  - discriminate.
  - rewrite MoveFacts.page_at_insert_eq. exact Happ.
  - reflexivity.
  - vm_compute. discriminate.
  - vm_compute. reflexivity.
  - exists p, pages'. split; [exact Hrun |]. split; [exact Hmove |].
    rewrite MoveFacts.page_at_insert_eq in Hprint.
    split; [exact Hprint | exact Hsrc].
Defined.

(** ** What an insert leaves alone *)

(** X23. A successful insert on a well-formed page writes the data region
    only between the insertion offset and the end of the record, and the
    directory only at the slot it takes: every byte of the data region
    outside that range and every other entry are as before, and every
    line the page printed for a slot whose bytes lie outside that range is
    printed again. *)
Theorem X23_insert_frame (past : nat -> ascii) (tuple : Tuple)
    (p p' : SlottedPage) (out : list (Z * list Z)) :
  page_inv p -> addTuple past tuple p = Some (true, p') ->
  print p = Some out ->
  let i := first_empty p in
  let o := insert_offset p i in
  agree directory_size o (page_data p') (page_data p) /\
  agree (o + getSize tuple) PAGE_SIZE (page_data p') (page_data p) /\
  (forall j, 0 <= j < MAX_SLOTS -> j <> i ->
     get_slot (page_data p') j = get_slot (page_data p) j) /\
  exists out',
    print p' = Some out' /\
    forall j fs, (j, fs) ∈ out ->
      slot_offset (page_data p) j + slot_length (page_data p) j <= o \/
      o + getSize tuple <= slot_offset (page_data p) j ->
      (j, fs) ∈ out'.
Proof.
  intros Hinv Hadd Hout. cbv zeta.
  pose proof (AddFacts.addTuple_inv _ _ _ _ _ Hinv Hadd) as Hinv'.
  destruct (AddFacts.addTuple_effect _ _ _ _ _ Hinv Hadd)
    as [[[=] _] | (_ & Hi & Hl & Hm & Hslot & Hfit & Hother)].
  pose proof (AddFacts.insert_offset_region p Hinv ltac:(lia)) as Hdir.
  pose proof (AddFacts.getSize_nonneg tuple) as Hsz.
  assert (Hat : addTuple_at (first_empty p) (getSize tuple)
                  (Mem.read_c_str (serialize tuple) past (getSize tuple)) p
                = Some (true, p')).
  { rewrite AddFacts.addTuple_find in Hadd.
    destruct (Z.ltb_spec (first_empty p) MAX_SLOTS); [exact Hadd | lia]. }
  destruct (AppendFacts.addTuple_at_agree _ _ _ _ _ Hat Hi Hdir
              (AddFacts.length_read_c_str _ _ _ Hsz)) as [Hlo Hhi].
  split; [exact Hlo |]. split; [exact Hhi |]. split; [exact Hother |].
  destruct (PrintFacts.print_defined p' Hinv') as [out' Hout'].
  exists out'. split; [exact Hout' |].
  intros j fs Hin Hdisj.
  rewrite PrintFacts.print_unfold in Hout, Hout'.
  pose proof (PrintMore.print_loop_keys _ _ _ Hout) as Hkeys.
  assert (Hj : j ∈ filter (λ i, slot_empty (page_data p) i = false)
                 slot_indices).
  { rewrite <- Hkeys. apply list_elem_of_fmap. exists (j, fs).
    split; [reflexivity | exact Hin]. }
  apply list_elem_of_filter in Hj as [He Hjr].
  pose proof Hjr as Hjr'. apply PrintFacts.elem_of_slot_indices in Hjr'.
  destruct (PrintMore.print_loop_lines _ _ _ _ _ Hout Hin)
    as (bytes & Hread & ->).
  destruct Hinv as (Hlen & _ & Hreg).
  destruct (Hreg j Hjr' He) as [Hoj Hendj].
  pose proof (SlotFacts.slot_length_range (page_data p) j) as Hlj.
  assert (Hji : j <> first_empty p).
  { intros ->.
    destruct (AddFacts.first_empty_spec p) as [_ [[_ Hfe] | [Hfe _]]];
      [congruence | lia]. }
  pose proof (Hother j Hjr' Hji) as Hsame.
  apply SlotFacts.get_slot_eq in Hsame as (E1 & E2 & E3).
  eapply PrintFacts.print_loop_elem;
    [exact Hout' | exact Hjr | congruence |].
  rewrite E2, E3, <- Hread.
  apply MemFacts.read_agree; [exact Hl |].
  destruct Hdisj as [Hbelow | Habove].
  - eapply MemFacts.agree_sub; [exact Hlo | lia | lia].
  - eapply MemFacts.agree_sub; [exact Hhi | lia | lia].
Qed.

Lemma X23_witness :
  exists p p' out',
    do_calls (inserts [(mkTuple [1; 2], zeros)]) SlottedPage_new = Some p /\
    addTuple zeros (mkTuple [3]) p = Some (true, p') /\
    print p' = Some out' /\ (0, [1; 2]) ∈ out'.
Proof.
  destruct (AppendFacts.inserts_appended [(mkTuple [1; 2], zeros)])
    as (p & Hrun & Happ); [vm_compute; discriminate | vm_compute; reflexivity |].
  destruct (AppendFacts.appended_snoc _ p (mkTuple [3]) zeros Happ)
    as (p' & Hadd & _); [vm_compute; reflexivity | vm_compute; reflexivity |].
  pose proof (AppendFacts.appended_print _ p Happ
                ltac:(vm_compute; discriminate)) as Hprint.
  pose proof (AppendFacts.appended_insert_offset _ p Happ) as Hio.
  pose proof (AppendFacts.appended_first_empty _ p Happ
                ltac:(vm_compute; reflexivity)) as Hfe.
  destruct Happ as (Hinv & _ & Hocc & _).
  destruct (Hocc 0%nat _ eq_refl) as [Hs0 _].
  apply SlotFacts.get_slot_mk in Hs0 as (_ & Ho & Hl).
  destruct (X23_insert_frame zeros (mkTuple [3]) p p' _ Hinv Hadd Hprint)
    as (_ & _ & _ & out' & Hout' & Hkeep).
  exists p, p', out'. split; [exact Hrun |]. split; [exact Hadd |].
  split; [exact Hout' |].
  apply Hkeep.
  - vm_compute. left.
  - left. rewrite Hfe, Hio.
    change (Z.of_nat 0) with 0 in Ho, Hl. rewrite Ho, Hl.
    vm_compute. discriminate.
Defined.

(** ** Compacting a page whose [metadata_size] stands behind its records *)

Module ShiftFacts.
Import Mem MemFacts SlotFacts AddFacts PrintFacts CompactFacts CallFacts.
Import AppendFacts.

Section Shift.
Variables (ts : list (Tuple * (nat -> ascii))) (s : Z).
Hypothesis Hn : Z.of_nat (length ts) <= MAX_SLOTS.
Hypothesis Hs : total_size ts <= s.
Hypothesis Hfit : directory_size + s <= PAGE_SIZE.

Lemma shifted_of_appended d :
  appended ts (mkPage d directory_size) -> shifted ts s 0 d.
Proof.
  intros ((Hlen & _) & _ & Hocc & Hfree). cbn [page_data] in *.
  split; [exact Hlen |]. split; [| exact Hfree].
  intros j tp Hj. cbv zeta.
  rewrite decide_False by lia. rewrite Z.add_0_r. now apply Hocc.
Qed.

Lemma start_of_end k : (k <= length ts)%nat -> start_of ts k <= directory_size + s.
Proof.
  intros Hk. pose proof (start_of_le ts k (length ts) Hk) as H.
  rewrite start_of_all in H. lia.
Qed.

(** The pass moves record [k] up by [s]. *)
Lemma shift_step k d tp :
  shifted ts s k d -> ts !! k = Some tp ->
  start_of ts (S k) + s <= PAGE_SIZE ->
  exists d', compact_slot (Z.of_nat k) (start_of ts k + s) d = Some d' /\
             shifted ts s (S k) d'.
Proof.
  intros (Hlen & Hocc & Hfree) Hk Hroom.
  pose proof (lookup_lt_Some _ _ _ Hk) as Hkn.
  pose proof (total_size_nonneg ts) as HT.
  pose proof (getSize_nonneg tp.1) as Hsz.
  pose proof (start_of_ge ts k) as Hge.
  pose proof (start_of_S _ _ _ Hk) as HS.
  pose proof (start_of_end (S k) ltac:(lia)) as Hend.
  destruct (Hocc k tp Hk) as [Hsk Hrk]. cbv zeta in Hsk, Hrk.
  rewrite decide_False in Hsk, Hrk by lia. rewrite Z.add_0_r in Hsk, Hrk.
  pose proof Hsk as Hsk'. apply get_slot_mk in Hsk' as (Ee & Eo & El).
  destruct (Z.eq_dec s 0) as [-> | Hs0].
  { exists d. unfold compact_slot. rewrite Eo, Z.add_0_r, Z.eqb_refl.
    split; [reflexivity |]. split; [exact Hlen |]. split; [| exact Hfree].
    intros j tq Hj. cbv zeta.
    destruct (Hocc j tq Hj) as [H1 H2]. cbv zeta in H1, H2.
    destruct (decide (j < k)%nat), (decide (j < S k)%nat);
      rewrite ?Z.add_0_r in *; auto. }
  assert (Hdef : exists d', compact_slot (Z.of_nat k) (start_of ts k + s) d
                            = Some d').
  { unfold compact_slot. rewrite Eo, El.
    destruct (Z.eqb_spec (start_of ts k) (start_of ts k + s)); [lia |].
    rewrite Hrk. cbn [mbind option_bind].
    pose proof (read_length _ _ _ _ Hrk) as Hbl.
    rewrite write_Some by (unfold_consts; lia).
    cbn [mbind option_bind]. eauto. }
  destruct Hdef as (d' & Hd'). exists d'. split; [exact Hd' |].
  assert (Hreg : in_data_region d (Z.of_nat k)).
  { intros _. rewrite Eo, El. lia. }
  destruct (compact_slot_spec d (Z.of_nat k) (start_of ts k + s) d' Hlen
              ltac:(lia) ltac:(lia) Hreg Ee Hd')
    as (Hl' & Hother & Hself & _ & Hread & Hlo & Hhi).
  rewrite El in Hself, Hread, Hhi. rewrite Eo in Hread.
  split; [lia |]. split.
  - intros j tq Hj. cbv zeta.
    pose proof (lookup_lt_Some _ _ _ Hj) as Hjn.
    destruct (Hocc j tq Hj) as [H1 H2]. cbv zeta in H1, H2.
    pose proof (getSize_nonneg tq.1) as Hszj.
    pose proof (start_of_S _ _ _ Hj) as HSj.
    pose proof (start_of_ge ts j) as Hgej.
    destruct (decide (j = k)) as [-> | Hjk].
    + assert (tq = tp) as -> by congruence.
      rewrite decide_True by lia.
      split; [exact Hself | congruence].
    + rewrite Hother by lia.
      destruct (decide (j < k)%nat) as [Hlt | Hge'].
      * rewrite decide_True by lia. split; [exact H1 |].
        rewrite <- H2. apply read_agree; [lia |].
        pose proof (start_of_le ts (S j) k ltac:(lia)) as Hle.
        eapply agree_sub; [exact Hlo | lia | lia].
      * rewrite decide_False by lia. split; [exact H1 |].
        rewrite <- H2. apply read_agree; [lia |].
        pose proof (start_of_end (S j) ltac:(lia)) as Hej.
        rewrite Z.add_0_r.
        eapply agree_sub; [exact Hlo | lia | lia].
  - intros j Hj. pose proof (Hother j ltac:(lia) ltac:(lia)) as H.
    apply get_slot_eq in H as (-> & _). now apply Hfree.
Qed.

(** The pass cannot move record [k] up by [s]. *)
Lemma shift_fail k d tp :
  shifted ts s k d -> ts !! k = Some tp -> 0 < s ->
  PAGE_SIZE < start_of ts (S k) + s ->
  compact_slot (Z.of_nat k) (start_of ts k + s) d = None.
Proof.
  intros (Hlen & Hocc & Hfree) Hk Hpos Hover.
  pose proof (start_of_S _ _ _ Hk) as HS.
  destruct (Hocc k tp Hk) as [Hsk Hrk]. cbv zeta in Hsk, Hrk.
  rewrite decide_False in Hsk, Hrk by lia. rewrite Z.add_0_r in Hsk, Hrk.
  apply get_slot_mk in Hsk as (Ee & Eo & El).
  unfold compact_slot. rewrite Eo, El.
  destruct (Z.eqb_spec (start_of ts k) (start_of ts k + s)); [lia |].
  rewrite Hrk. cbn [mbind option_bind].
  pose proof (read_length _ _ _ _ Hrk) as Hbl.
  unfold write.
  destruct (Z.leb_spec (start_of ts k + s + Z.of_nat (length (stored_bytes tp)))
              (Z.of_nat (length d))); [lia |].
  now rewrite andb_false_r.
Qed.

Lemma shifted_slot k d j tp :
  shifted ts s k d -> ts !! j = Some tp -> (k <= j)%nat ->
  slot_empty d (Z.of_nat j) = false /\
  slot_length d (Z.of_nat j) = getSize tp.1.
Proof.
  intros (_ & Hocc & _) Hj Hkj.
  destruct (Hocc j tp Hj) as [H _]. cbv zeta in H.
  now apply get_slot_mk in H as (-> & _ & ->).
Qed.

(** The whole pass, when the records fit behind [metadata_size]. *)
Lemma shift_loop : forall m k d,
  (k + m = length ts)%nat -> shifted ts s k d ->
  directory_size + total_size ts + s <= PAGE_SIZE ->
  exists d',
    compact_loop (seqZ (Z.of_nat k) (Z.of_nat m)
                  ++ seqZ (Z.of_nat (length ts))
                       (MAX_SLOTS - Z.of_nat (length ts)))
      (start_of ts k + s) d = Some d' /\
    shifted ts s (length ts) d'.
Proof.
  induction m as [| m IH]; intros k d Hkm Hd Hroom.
  - assert (k = length ts) as -> by lia. exists d. split; [| exact Hd].
    cbn [seqZ Z.of_nat app]. change (seqZ (Z.of_nat (length ts)) 0) with (@nil Z).
    cbn [app]. apply StoreFacts.compact_loop_empty.
    intros j Hj. apply elem_of_seqZ in Hj.
    destruct Hd as (_ & _ & Hfree). apply Hfree. lia.
  - destruct (lookup_lt_is_Some_2 ts k ltac:(lia)) as [tp Hk].
    pose proof (start_of_S _ _ _ Hk) as HS.
    pose proof (start_of_le ts (S k) (length ts) ltac:(lia)) as Hle.
    rewrite start_of_all in Hle.
    destruct (shift_step k d tp Hd Hk ltac:(lia)) as (d1 & Hs1 & Hd1).
    destruct (IH (S k) d1 ltac:(lia) Hd1 Hroom) as (d' & Hloop & Hd').
    exists d'. split; [| exact Hd'].
    rewrite seqZ_cons by lia. cbn [app compact_loop].
    destruct (shifted_slot k d k tp Hd Hk ltac:(lia)) as [-> ->].
    rewrite Hs1. cbn [mbind option_bind].
    replace (Z.succ (Z.of_nat k)) with (Z.of_nat (S k)) by lia.
    replace (Z.pred (Z.of_nat (S m))) with (Z.of_nat m) by lia.
    rewrite <- Z.add_assoc, (Z.add_comm s), Z.add_assoc, <- HS. exact Hloop.
Qed.

(** The whole pass, when they do not. *)
Lemma shift_loop_fail rest : forall m k d,
  (k + m = length ts)%nat -> shifted ts s k d -> 0 < s ->
  start_of ts k + s <= PAGE_SIZE ->
  PAGE_SIZE < directory_size + total_size ts + s ->
  compact_loop (seqZ (Z.of_nat k) (Z.of_nat m) ++ rest)
    (start_of ts k + s) d = None.
Proof.
  induction m as [| m IH]; intros k d Hkm Hd Hpos Hin Hover.
  - assert (k = length ts) as -> by lia.
    rewrite start_of_all in Hin. lia.
  - destruct (lookup_lt_is_Some_2 ts k ltac:(lia)) as [tp Hk].
    pose proof (start_of_S _ _ _ Hk) as HS.
    rewrite seqZ_cons by lia. cbn [app compact_loop].
    destruct (shifted_slot k d k tp Hd Hk ltac:(lia)) as [-> ->].
    destruct (Z.le_gt_cases (start_of ts (S k) + s) PAGE_SIZE) as [Hok | Hbad].
    + destruct (shift_step k d tp Hd Hk Hok) as (d1 & -> & Hd1).
      cbn [mbind option_bind].
      replace (Z.succ (Z.of_nat k)) with (Z.of_nat (S k)) by lia.
      replace (Z.pred (Z.of_nat (S m))) with (Z.of_nat m) by lia.
      rewrite <- Z.add_assoc, (Z.add_comm s), Z.add_assoc, <- HS.
      apply IH; [lia | exact Hd1 | exact Hpos | exact Hok | exact Hover].
    + rewrite (shift_fail k d tp Hd Hk Hpos ltac:(lia)). reflexivity.
Qed.

Lemma shifted_print k d :
  shifted ts s k d ->
  print_loop slot_indices d
  = Some (imap (λ j tp, (Z.of_nat j, fields (deserialize (stored_bytes tp))))
            ts).
Proof.
  intros (_ & Hocc & Hfree).
  rewrite (slot_indices_split (Z.of_nat (length ts)))
    by (pose proof Hn; lia).
  rewrite PrintMore.print_loop_app.
  rewrite (print_loop_seq d
             (λ _ tp, fields (deserialize (stored_bytes tp))) ts 0).
  - cbn [mbind option_bind].
    rewrite StoreFacts.print_loop_empty.
    + cbn [mbind option_bind]. now rewrite app_nil_r.
    + intros j Hj. apply elem_of_seqZ in Hj. apply Hfree. lia.
  - intros j tp Hj. destruct (Hocc _ _ Hj) as [H1 H2]. cbv zeta in H1, H2.
    rewrite !Z.add_0_l.
    apply get_slot_mk in H1 as (-> & -> & ->). split; [reflexivity |].
    exists (stored_bytes tp). split; [exact H2 | reflexivity].
Qed.

End Shift.

(** The pass on a page whose [metadata_size] stands behind its records. *)
Lemma compact_shift (ts : list (Tuple * (nat -> ascii)))
    (p : SlottedPage) :
  appended ts (mkPage (page_data p) directory_size) ->
  Z.of_nat (length ts) <= MAX_SLOTS ->
  directory_size + total_size ts <= metadata_size p <= PAGE_SIZE ->
  (metadata_size p + total_size ts <= PAGE_SIZE ->
   exists p',
     compactPage p = Some p' /\
     (forall k tp, ts !! k = Some tp ->
        get_slot (page_data p') (Z.of_nat k)
          = Slot.mk false (start_of ts k + (metadata_size p - directory_size))
              (getSize tp.1) /\
        Mem.read (page_data p')
          (start_of ts k + (metadata_size p - directory_size)) (getSize tp.1)
          = Some (stored_bytes tp)) /\
     print p' = print p) /\
  (PAGE_SIZE < metadata_size p + total_size ts -> compactPage p = None).
Proof.
  intros Happ Hn [Hlo Hhi].
  set (s := metadata_size p - directory_size).
  assert (Hs : total_size ts <= s) by (unfold s; lia).
  assert (Hfit : directory_size + s <= PAGE_SIZE) by (unfold s; lia).
  pose proof (shifted_of_appended ts s _ Happ) as H0.
  assert (Hstart : metadata_size p = start_of ts 0 + s).
  { unfold start_of. rewrite take_0. change (total_size []) with 0.
    unfold s. lia. }
  rewrite CompactFacts.compactPage_unfold, Hstart.
  rewrite (AppendFacts.slot_indices_split (Z.of_nat (length ts))) by lia.
  split.
  - intros Hroom.
    destruct (shift_loop ts s Hn Hs Hfit (length ts) 0%nat
                (page_data p) ltac:(lia) H0 ltac:(unfold s; lia))
      as (d' & Hloop & Hd').
    change (Z.of_nat 0) with 0 in Hloop. rewrite Hloop.
    cbn [mbind option_bind]. eexists. split; [reflexivity |].
    cbn [page_data]. split.
    + intros k tp Hk. destruct Hd' as (_ & Hocc & _).
      pose proof (lookup_lt_Some _ _ _ Hk) as Hkn.
      specialize (Hocc k tp Hk). cbv zeta in Hocc.
      rewrite decide_True in Hocc by lia. exact Hocc.
    + rewrite !PrintFacts.print_unfold. cbn [page_data].
      rewrite (shifted_print ts s Hn _ _ Hd').
      now rewrite (shifted_print ts s Hn _ _ H0).
  - intros Hover.
    rewrite (shift_loop_fail ts s Hn Hs Hfit _ (length ts) 0%nat
               (page_data p) ltac:(lia) H0 ltac:(unfold s; lia)
               ltac:(rewrite <- Hstart; lia) ltac:(unfold s; lia)).
    reflexivity.
Qed.


End ShiftFacts.

(** X24. A page that holds records back to back behind its directory while
    its [metadata_size] stands behind the last of them - the state a move
    leaves its destination in - is compacted upward: [compactPage] packs
    from [metadata_size] on, so every record moves up by
    [metadata_size] minus the size of the directory.  When the records fit
    a second time behind [metadata_size], the page then shows the same
    records at the new places; when they do not, [memmove] is told to write
    past the end of the buffer. *)
Theorem X24_compact_after_move (ts : list (Tuple * (nat -> ascii)))
    (p : SlottedPage) :
  appended ts (mkPage (page_data p) directory_size) ->
  Z.of_nat (length ts) <= MAX_SLOTS ->
  directory_size + total_size ts <= metadata_size p <= PAGE_SIZE ->
  (metadata_size p + total_size ts <= PAGE_SIZE ->
   exists p',
     compactPage p = Some p' /\
     (forall k tp, ts !! k = Some tp ->
        get_slot (page_data p') (Z.of_nat k)
          = Slot.mk false (start_of ts k + (metadata_size p - directory_size))
              (getSize tp.1) /\
        Mem.read (page_data p')
          (start_of ts k + (metadata_size p - directory_size)) (getSize tp.1)
          = Some (stored_bytes tp)) /\
     print p' = print p) /\
  (PAGE_SIZE < metadata_size p + total_size ts -> compactPage p = None).
Proof.
  intros Happ Hn Hbounds.
  destruct (ShiftFacts.compact_shift ts p Happ Hn Hbounds) as [Hok Hover].
  split; [| exact Hover].
  intros Hroom. destruct (Hok Hroom) as (p' & Hc & Hslots & Hprint).
  exists p'. split; [exact Hc |]. split; [exact Hslots | exact Hprint].
Qed.

Lemma X24_witness :
  (exists p p',
     do_calls (inserts [(mkTuple (replicate 100 7), zeros)]) SlottedPage_new
       = Some p /\
     compactPage (mkPage (page_data p) 3472) = Some p' /\
     slot_offset (page_data p) 0 = 3072 /\
     slot_offset (page_data p') 0 = 3472) /\
  (exists p,
     do_calls (inserts [(mkTuple (replicate 150 7), zeros)]) SlottedPage_new
       = Some p /\
     compactPage (mkPage (page_data p) 3672) = None).
Proof.
  assert (Hre : forall ts p m, appended ts p ->
            appended ts (mkPage (page_data (mkPage (page_data p) m))
                           directory_size)).
  { intros ts [d m0] m (Hinv & Hm & Hrest).
    cbn [page_data metadata_size] in *. subst m0.
    split; [exact Hinv |]. split; [reflexivity | exact Hrest]. }
  split.
  - destruct (AppendFacts.inserts_appended
                [(mkTuple (replicate 100 7), zeros)])
      as (p & Hrun & Happ);
      [vm_compute; discriminate | vm_compute; reflexivity |].
    destruct (X24_compact_after_move [(mkTuple (replicate 100 7), zeros)]
                (mkPage (page_data p) 3472) (Hre _ p 3472 Happ)) as [Hok _].
    + vm_compute. discriminate.
    + cbn [metadata_size]. split; vm_compute; discriminate.
    + destruct Hok as (p' & Hc & Hslots & _);
        [cbn [metadata_size]; vm_compute; discriminate |].
      exists p, p'. split; [exact Hrun |]. split; [exact Hc |].
      destruct Happ as (_ & _ & Hocc & _).
      destruct (Hocc 0%nat _ eq_refl) as [Hs0 _].
      apply SlotFacts.get_slot_mk in Hs0 as (_ & Ho0 & _).
      split; [exact Ho0 |].
      destruct (Hslots 0%nat _ eq_refl) as [Hs _].
      apply SlotFacts.get_slot_mk in Hs as (_ & Ho & _). exact Ho.
  - destruct (AppendFacts.inserts_appended
                [(mkTuple (replicate 150 7), zeros)])
      as (p & Hrun & Happ);
      [vm_compute; discriminate | vm_compute; reflexivity |].
    destruct (X24_compact_after_move [(mkTuple (replicate 150 7), zeros)]
                (mkPage (page_data p) 3672) (Hre _ p 3672 Happ)) as [_ Hbad].
    + vm_compute. discriminate.
    + cbn [metadata_size]. split; vm_compute; discriminate.
    + exists p. split; [exact Hrun |]. apply Hbad.
      cbn [metadata_size]. vm_compute. reflexivity.
Defined.

Module SeqFacts.

Lemma do_store_calls_cons sc scs pages :
  do_store_calls (sc :: scs) pages
  = pages' ← do_store_call sc pages; do_store_calls scs pages'.
Proof. reflexivity. Qed.

Lemma do_store_call_move from_id to_id pages :
  do_store_call (Move from_id to_id) pages
  = snd <$> moveTupleAcrossPages from_id to_id pages.
Proof. reflexivity. Qed.

Lemma do_store_call_compact page_id pages :
  do_store_call (OnPage page_id Compact) pages
  = p ← compactPage (page_at pages page_id); Some (<[page_id := p]> pages).
Proof. reflexivity. Qed.

Lemma fmap_Some_eq {A B} (f : A -> B) (x : A) : f <$> Some x = Some (f x).
Proof. reflexivity. Qed.

(** A compaction that leaves the buffer, after a move. *)
Lemma move_compact_none from_id to_id pages done pages' :
  moveTupleAcrossPages from_id to_id pages = Some (done, pages') ->
  compactPage (page_at pages' to_id) = None ->
  do_store_calls [Move from_id to_id; OnPage to_id Compact] pages = None.
Proof.
  intros Hmove Hnone.
  rewrite do_store_calls_cons, do_store_call_move, Hmove, fmap_Some_eq.
  rewrite MoveMore.bind_Some. cbn [snd].
  rewrite do_store_calls_cons, do_store_call_compact, Hnone. reflexivity.
Qed.

End SeqFacts.

(** X25. Move, then compact the destination: after the move of a page
    filled by a run of inserts into a fresh page, the destination's
    [metadata_size] stands behind the records, and its compaction moves
    them up once more by their total size.  With records of at most half
    the data region the destination then prints what the source printed;
    with more, the compaction is told to write past the end of the
    buffer. *)
Theorem X25_move_then_compact (from_page_id to_page_id : Z)
    (ts : list (Tuple * (nat -> ascii))) (pages : gmap Z SlottedPage) :
  store_inv pages -> from_page_id <> to_page_id ->
  appended ts (page_at pages from_page_id) ->
  page_at pages to_page_id = SlottedPage_new ->
  Z.of_nat (length ts) <= MAX_SLOTS ->
  directory_size + total_size ts < PAGE_SIZE ->
  exists pages',
    moveTupleAcrossPages from_page_id to_page_id pages = Some (true, pages') /\
    (directory_size + 2 * total_size ts <= PAGE_SIZE ->
     exists p',
       compactPage (page_at pages' to_page_id) = Some p' /\
       print p' = print (page_at pages from_page_id) /\
       forall k tp, ts !! k = Some tp ->
         slot_offset (page_data p') (Z.of_nat k)
         = start_of ts k + total_size ts) /\
    (PAGE_SIZE < directory_size + 2 * total_size ts ->
     compactPage (page_at pages' to_page_id) = None /\
     do_store_calls [Move from_page_id to_page_id; OnPage to_page_id Compact]
       pages = None).
Proof.
  intros Hinv Hne Happ Hto Hn Hfit.
  destruct (RunFacts.move_run _ _ _ _ Hinv Hne Happ Hto Hn Hfit)
    as (pages' & Hmove & _ & _ & Hm & Hprint & _ & Hdest).
  pose proof (AppendFacts.total_size_nonneg ts) as HT.
  destruct (ShiftFacts.compact_shift ts (page_at pages' to_page_id) Hdest Hn
              ltac:(lia)) as [Hok Hover].
  exists pages'. split; [exact Hmove |]. split.
  - intros Hroom. destruct (Hok ltac:(lia)) as (p' & Hc & Hslots & Hp').
    exists p'. split; [exact Hc |]. split; [congruence |].
    intros k tp Hk. destruct (Hslots k tp Hk) as [Hs _].
    apply SlotFacts.get_slot_mk in Hs as (_ & -> & _). lia.
  - intros Hbig. pose proof (Hover ltac:(lia)) as Hnone.
    split; [exact Hnone |].
    exact (SeqFacts.move_compact_none _ _ _ _ _ Hmove Hnone).
Qed.

Lemma X25_witness :
  exists p,
    do_calls (inserts [(mkTuple (replicate 150 7), zeros)]) SlottedPage_new
      = Some p /\
    do_store_calls [Move 0 1; OnPage 1 Compact] (<[0 := p]> ∅) = None.
Proof.
  destruct (AppendFacts.inserts_appended [(mkTuple (replicate 150 7), zeros)])
    as (p & Hrun & Happ); [vm_compute; discriminate | vm_compute; reflexivity |].
  exists p. split; [exact Hrun |].
  assert (Hinv : store_inv (<[0 := p]> ∅)).
  { apply StoreFacts.store_inv_insert; [apply StoreFacts.store_inv_empty |].
    apply Happ. }
  destruct (X25_move_then_compact 0 1 [(mkTuple (replicate 150 7), zeros)]
              (<[0 := p]> ∅) Hinv) as (pages' & _ & _ & Hbad).
  - discriminate.
  - rewrite MoveFacts.page_at_insert_eq. exact Happ.
  - reflexivity.
  - vm_compute. discriminate.
  - vm_compute. reflexivity.
  - apply Hbad. vm_compute. reflexivity.
Defined.

(** ** The offset and length of an empty slot *)

Module FieldFacts.
Import MemFacts SlotFacts AddFacts PrintFacts CompactFacts CallFacts.
Import MoveFacts StoreFacts.

(** No call on a page changes the offset or the length of a slot that is
    empty after it. *)
Lemma do_call_keep c p p' j :
  page_inv p -> do_call c p = Some p' -> 0 <= j < MAX_SLOTS ->
  slot_empty (page_data p') j = true ->
  slot_offset (page_data p') j = slot_offset (page_data p) j /\
  slot_length (page_data p') j = slot_length (page_data p) j.
Proof.
  intros Hinv.
  destruct c as [tuple past | index |]; cbn [do_call]; intros Hc Hj He.
  - destruct (addTuple past tuple p) as [[b q] |] eqn:Hadd; [| discriminate].
    injection Hc as ->.
    destruct (addTuple_effect _ _ _ _ _ Hinv Hadd)
      as [[_ ->] | (_ & Hi & _ & _ & Hslot & _ & Hother)];
      [split; reflexivity |].
    destruct (decide (j = first_empty p)) as [-> | Hne].
    + apply get_slot_mk in Hslot as (E & _). congruence.
    + now destruct (get_slot_eq _ _ _ _ (Hother j Hj Hne)) as (_ & ? & ?).
  - injection Hc as <-. apply deleteTuple_fields. lia.
  - destruct Hinv as (Hlen & Hmeta & Hslots).
    rewrite compactPage_unfold in Hc.
    destruct (compact_loop slot_indices (metadata_size p) (page_data p))
      as [d' |] eqn:Hloop; [| discriminate].
    injection Hc as <-. cbn [page_data] in He |- *.
    destruct (compact_loop_inv _ _ _ _ Hlen slot_indices_range Hmeta Hslots
                Hloop) as (_ & _ & Hkeep).
    destruct (Hkeep j Hj) as (K1 & K2 & K3).
    split; [apply K3; congruence | assumption].
Qed.

(** The directory entries after a round that moved a record: the
    destination's slot [j] is taken, the source's slot [i] is freed and
    keeps its offset and length, every other entry is as before. *)
Lemma move_slot_entries from_id to_id i pages go q :
  store_inv pages -> 0 <= i < MAX_SLOTS ->
  move_slot from_id to_id i pages = Some (go, q) ->
  q = pages \/
  exists j,
    (0 <= j < MAX_SLOTS ->
     slot_empty (page_data (page_at q to_id)) j = false) /\
    (from_id = to_id -> j <= i) /\
    (forall k, 0 <= k < MAX_SLOTS -> k <> j ->
       (from_id = to_id -> k <> i) ->
       get_slot (page_data (page_at q to_id)) k
       = get_slot (page_data (page_at pages to_id)) k) /\
    (forall k, 0 <= k < MAX_SLOTS -> k <> j \/ from_id <> to_id ->
       slot_offset (page_data (page_at q from_id)) k
         = slot_offset (page_data (page_at pages from_id)) k /\
       slot_length (page_data (page_at q from_id)) k
         = slot_length (page_data (page_at pages from_id)) k) /\
    (forall id, id <> from_id -> id <> to_id ->
       page_at q id = page_at pages id).
Proof.
  intros Hinv Hi.
  destruct (slot_empty (page_data (page_at pages from_id)) i) eqn:He.
  { unfold move_slot. rewrite He. intros [= <- <-]. now left. }
  destruct (Z.leb_spec PAGE_SIZE
    (metadata_size (page_at pages to_id)
     + slot_length (page_data (page_at pages from_id)) i)) as [Hfull | Hroom].
  { rewrite move_slot_no_room by assumption. intros [= <- <-]. now left. }
  destruct (move_slot_copy from_id to_id i pages (Hinv from_id) (Hinv to_id)
              Hi He Hroom) as (bytes & d1 & _ & _ & -> & Hl1 & Hag).
  intros [= <- <-]. right.
  pose proof (move_commit_pages from_id to_id i d1
    (metadata_size (page_at pages to_id))
    (slot_length (page_data (page_at pages from_id)) i) pages) as Hp.
  cbv zeta in Hp. destruct Hp as (Hto & Hfrom & Hother).
  pose proof (slot_length_range (page_data (page_at pages from_id)) i) as Hlr.
  destruct (Hinv to_id) as (Hlt & Hmt & _).
  destruct (Hinv from_id) as (Hlf & _).
  assert (Hlen1 : Z.of_nat (length d1) = PAGE_SIZE) by lia.
  assert (Hd1 : forall k, 0 <= k < MAX_SLOTS ->
            get_slot d1 k = get_slot (page_data (page_at pages to_id)) k).
  { intros k Hk. apply (get_slot_agree 0 directory_size); [exact Hag | |];
      unfold_consts; lia. }
  set (d2 := if decide (from_id = to_id) then set_slot_empty d1 i true
             else d1) in *.
  assert (Hlen2 : Z.of_nat (length d2) = PAGE_SIZE).
  { unfold d2. case_decide; [rewrite length_set_slot_empty |]; exact Hlen1. }
  pose proof (find_free_range d2) as Hjr.
  assert (Hact : forall k, 0 <= k ->
    get_slot (activate (find_free slot_indices d2)
                (metadata_size (page_at pages to_id))
                (slot_length (page_data (page_at pages from_id)) i) d2) k
    = if decide (k = find_free slot_indices d2)
      then Slot.mk false (metadata_size (page_at pages to_id))
             (slot_length (page_data (page_at pages from_id)) i)
      else get_slot d2 k).
  { intros k Hk. apply get_slot_activate; unfold_consts; lia. }
  exists (find_free slot_indices d2).
  split; [| split; [| split; [| split]]].
  - intros Hj. rewrite Hto. cbn [page_data].
    pose proof (Hact (find_free slot_indices d2) ltac:(lia)) as H.
    rewrite decide_True in H by reflexivity.
    now apply get_slot_mk in H as (-> & _).
  - intros Heq.
    destruct (first_empty_spec (mkPage d2 0)) as [Hbefore _].
    unfold first_empty in Hbefore. cbn [page_data] in Hbefore.
    destruct (Z.le_gt_cases (find_free slot_indices d2) i) as [Hle | Hgt];
      [exact Hle |].
    specialize (Hbefore i ltac:(lia) ltac:(lia)).
    unfold d2 in Hbefore. rewrite decide_True in Hbefore by assumption.
    pose proof (get_slot_set_empty d1 i true ltac:(lia)
      ltac:(unfold_consts; lia)) as H.
    apply get_slot_mk in H as (H & _). congruence.
  - intros k Hk Hkj Hki. rewrite Hto. cbn [page_data].
    rewrite Hact by lia. rewrite decide_False by assumption.
    rewrite <- Hd1 by assumption. unfold d2. case_decide as Hft; [| reflexivity].
    apply get_slot_set_empty_other; [lia | lia |].
    specialize (Hki Hft). congruence.
  - intros k Hk Hcase.
    destruct (decide (from_id = to_id)) as [Heq | Hne].
    + destruct Hcase as [Hkj | Hne]; [| contradiction].
      subst to_id. rewrite Hto. cbn [page_data].
      pose proof (Hact k ltac:(lia)) as H.
      rewrite decide_False in H by assumption.
      apply get_slot_eq in H as (_ & -> & ->).
      pose proof (Hd1 k Hk) as H1.
      apply get_slot_eq in H1 as (_ & <- & <-).
      unfold d2.
      destruct (decide (k = i)) as [-> | Hki].
      * pose proof (get_slot_set_empty d1 i true ltac:(lia)
          ltac:(unfold_consts; lia)) as H.
        now apply get_slot_mk in H as (_ & -> & ->).
      * pose proof (get_slot_set_empty_other d1 i k true ltac:(lia)
          ltac:(lia) ltac:(lia)) as H.
        now apply get_slot_eq in H as (_ & -> & ->).
    + rewrite (Hfrom Hne). cbn [page_data].
      destruct (decide (k = i)) as [-> | Hki].
      * pose proof (get_slot_set_empty (page_data (page_at pages from_id)) i
          true ltac:(lia) ltac:(unfold_consts; lia)) as H.
        now apply get_slot_mk in H as (_ & -> & ->).
      * pose proof (get_slot_set_empty_other
          (page_data (page_at pages from_id)) i k true ltac:(lia) ltac:(lia)
          ltac:(lia)) as H.
        now apply get_slot_eq in H as (_ & -> & ->).
  - exact Hother.
Qed.

(** The rounds on the slots from [i] on: a slot that is empty after them
    has the offset and length it had before them; and a slot of the
    destination that is empty after them was empty before them, unless the
    page is moved into itself and the rounds went through the slot. *)
Lemma move_loop_keep from_id to_id : forall n i pages go pages',
  store_inv pages -> 0 <= i -> i + Z.of_nat n <= MAX_SLOTS ->
  move_loop from_id to_id (seqZ i (Z.of_nat n)) pages = Some (go, pages') ->
  forall id k, 0 <= k < MAX_SLOTS ->
    slot_empty (page_data (page_at pages' id)) k = true ->
    (slot_offset (page_data (page_at pages' id)) k
       = slot_offset (page_data (page_at pages id)) k /\
     slot_length (page_data (page_at pages' id)) k
       = slot_length (page_data (page_at pages id)) k) /\
    (id = to_id -> from_id <> to_id \/ k < i ->
     slot_empty (page_data (page_at pages id)) k = true).
Proof.
  induction n as [| n IH]; intros i pages go pages' Hinv Hi Hn.
  - cbn [Z.of_nat]. change (seqZ i 0) with (@nil Z). cbn [move_loop].
    intros [= <- <-] id k Hk He. split; [split; reflexivity | auto].
  - rewrite seqZ_cons by lia. cbn [move_loop].
    replace (Z.pred (Z.of_nat (S n))) with (Z.of_nat n) by lia.
    destruct (move_slot from_id to_id i pages) as [[g q] |] eqn:Hs;
      [| discriminate].
    cbn [mbind option_bind]. intros Hloop id k Hk He.
    assert (Hir : 0 <= i < MAX_SLOTS) by lia.
    pose proof (move_slot_inv _ _ _ _ _ _ Hinv Hir Hs) as Hq.
    assert (Hrest : (slot_offset (page_data (page_at pages' id)) k
                       = slot_offset (page_data (page_at q id)) k /\
                     slot_length (page_data (page_at pages' id)) k
                       = slot_length (page_data (page_at q id)) k) /\
                    (id = to_id -> from_id <> to_id \/ k < Z.succ i ->
                     slot_empty (page_data (page_at q id)) k = true)).
    { destruct g.
      - apply (IH (Z.succ i) q go pages' Hq ltac:(lia) ltac:(lia) Hloop id k
                 Hk He).
      - injection Hloop as _ <-. split; [split; reflexivity | auto]. }
    destruct Hrest as [[-> ->] Hqe].
    destruct (move_slot_entries _ _ _ _ _ _ Hinv Hir Hs)
      as [-> | (j & Hjocc & Hji & Hto & Hfrom & Hother)].
    { split; [split; reflexivity |]. intros Hid Hc. apply Hqe; [exact Hid |].
      destruct Hc; [now left | right; lia]. }
    destruct (decide (id = to_id)) as [-> | Hnt].
    + destruct (decide (from_id = to_id)) as [Heq | Hne].
      * destruct (Z.lt_ge_cases k (Z.succ i)) as [Hlt | Hge].
        -- pose proof (Hqe eq_refl ltac:(right; exact Hlt)) as Heq'.
           assert (Hkj : k <> j).
           { intros ->. rewrite Hjocc in Heq' by lia. discriminate. }
           split.
           ++ rewrite <- Heq. apply Hfrom; [exact Hk | now left].
           ++ intros _ [Hc | Hc]; [contradiction |].
              pose proof (Hto k Hk Hkj ltac:(intros _; lia)) as Hsame.
              apply get_slot_eq in Hsame as (E1 & _). congruence.
        -- specialize (Hji Heq).
           split.
           ++ rewrite <- Heq. apply Hfrom; [exact Hk | left; lia].
           ++ intros _ [Hc | Hc]; [contradiction | lia].
      * pose proof (Hqe eq_refl ltac:(now left)) as Heq'.
        assert (Hkj : k <> j).
        { intros ->. rewrite Hjocc in Heq' by lia. discriminate. }
        pose proof (Hto k Hk Hkj ltac:(intros; contradiction)) as Hsame.
        apply get_slot_eq in Hsame as (E1 & E2 & E3).
        split; [split; assumption |]. intros _ _. congruence.
    + split; [| intros; contradiction].
      destruct (decide (id = from_id)) as [-> | Hnf].
      * apply Hfrom; [exact Hk | right; congruence].
      * now rewrite (Hother id Hnf Hnt).
Qed.

(** No move changes the offset or the length of a slot that is empty
    after it. *)
Lemma moveTuple_keep from_id to_id pages done pages' :
  store_inv pages ->
  moveTupleAcrossPages from_id to_id pages = Some (done, pages') ->
  forall id k, 0 <= k < MAX_SLOTS ->
    slot_empty (page_data (page_at pages' id)) k = true ->
    slot_offset (page_data (page_at pages' id)) k
      = slot_offset (page_data (page_at pages id)) k /\
    slot_length (page_data (page_at pages' id)) k
      = slot_length (page_data (page_at pages id)) k.
Proof.
  intros Hinv. rewrite moveTuple_unfold.
  destruct (move_loop from_id to_id slot_indices
              (load to_id (load from_id pages))) as [[go q] |] eqn:Hloop;
    [| discriminate].
  cbn [mbind option_bind].
  assert (Hinv0 : store_inv (load to_id (load from_id pages)))
    by now do 2 apply store_inv_load.
  pose proof (move_loop_inv _ _ _ _ _ _ Hinv0 slot_indices_range Hloop)
    as Hinvq.
  assert (Hkeep : forall id k, 0 <= k < MAX_SLOTS ->
            slot_empty (page_data (page_at q id)) k = true ->
            slot_offset (page_data (page_at q id)) k
              = slot_offset (page_data (page_at pages id)) k /\
            slot_length (page_data (page_at q id)) k
              = slot_length (page_data (page_at pages id)) k).
  { intros id k Hk He.
    pose proof (move_loop_keep from_id to_id (Z.to_nat MAX_SLOTS) 0
                  (load to_id (load from_id pages)) go q Hinv0 ltac:(lia)
                  ltac:(unfold MAX_SLOTS; lia)) as H.
    replace (Z.of_nat (Z.to_nat MAX_SLOTS)) with MAX_SLOTS in H
      by (unfold MAX_SLOTS; lia).
    destruct (H Hloop id k Hk He) as [Hf _].
    rewrite !page_at_load in Hf. exact Hf. }
  destruct go; [| intros [= <- <-]; exact Hkeep].
  destruct (compactPage (page_at q from_id)) as [p |] eqn:Hc;
    [| discriminate].
  cbn [mbind option_bind]. intros [= <- <-] id k Hk.
  destruct (decide (id = from_id)) as [-> | Hnf].
  - rewrite page_at_insert_eq. intros He.
    destruct (Hinvq from_id) as (Hlen & Hmeta & Hslots).
    rewrite compactPage_unfold in Hc.
    destruct (compact_loop slot_indices (metadata_size (page_at q from_id))
                (page_data (page_at q from_id))) as [d' |] eqn:Hcl;
      [| discriminate].
    injection Hc as <-. cbn [page_data] in He |- *.
    destruct (compact_loop_inv _ _ _ _ Hlen slot_indices_range Hmeta Hslots
                Hcl) as (_ & _ & Hk3).
    destruct (Hk3 k Hk) as (K1 & K2 & K3).
    rewrite K1 in He. rewrite K2, (K3 He). now apply Hkeep.
  - rewrite page_at_insert_ne by assumption. now apply Hkeep.
Qed.

(** No operation changes the offset or the length of a slot that is empty
    after it. *)
Lemma do_store_call_keep sc pages pages' :
  store_inv pages -> do_store_call sc pages = Some pages' ->
  forall id k, 0 <= k < MAX_SLOTS ->
    slot_empty (page_data (page_at pages' id)) k = true ->
    slot_offset (page_data (page_at pages' id)) k
      = slot_offset (page_data (page_at pages id)) k /\
    slot_length (page_data (page_at pages' id)) k
      = slot_length (page_data (page_at pages id)) k.
Proof.
  intros Hinv. destruct sc as [id0 c | from_id to_id]; cbn [do_store_call].
  - destruct (do_call c (page_at pages id0)) as [p |] eqn:Hc;
      [| discriminate].
    cbn [mbind option_bind]. intros [= <-] id k Hk.
    destruct (decide (id = id0)) as [-> | Hne].
    + rewrite page_at_insert_eq. intros He.
      exact (do_call_keep c _ p k (Hinv id0) Hc Hk He).
    + rewrite page_at_insert_ne by assumption. auto.
  - destruct (moveTupleAcrossPages from_id to_id pages) as [[b q] |] eqn:Hm;
      [| discriminate].
    cbn [fmap option_fmap option_map snd]. intros [= <-].
    exact (moveTuple_keep _ _ _ _ _ Hinv Hm).
Qed.

Lemma do_store_calls_app scs1 scs2 pages :
  do_store_calls (scs1 ++ scs2) pages
  = pages1 ← do_store_calls scs1 pages; do_store_calls scs2 pages1.
Proof.
  revert pages. induction scs1 as [| sc scs1 IH]; intros pages;
    [reflexivity |].
  cbn [app do_store_calls].
  destruct (do_store_call sc pages); [apply IH | reflexivity].
Qed.

(** An empty slot of a reachable store has the fields the constructor
    gave it, or those it had when it was last occupied. *)
Lemma empty_slot_history page_id j : forall scs pages,
  do_store_calls scs ∅ = Some pages -> 0 <= j < MAX_SLOTS ->
  slot_empty (page_data (page_at pages page_id)) j = true ->
  (slot_offset (page_data (page_at pages page_id)) j = INVALID_VALUE /\
   slot_length (page_data (page_at pages page_id)) j = INVALID_VALUE) \/
  (exists scs1 scs2 pages1,
     scs = scs1 ++ scs2 /\ do_store_calls scs1 ∅ = Some pages1 /\
     slot_empty (page_data (page_at pages1 page_id)) j = false /\
     slot_offset (page_data (page_at pages1 page_id)) j
       = slot_offset (page_data (page_at pages page_id)) j /\
     slot_length (page_data (page_at pages1 page_id)) j
       = slot_length (page_data (page_at pages page_id)) j).
Proof.
  induction scs as [| sc scs IH] using rev_ind; intros pages Hrun Hj He.
  - injection Hrun as <-. left.
    unfold page_at. rewrite lookup_empty. cbn [default].
    pose proof (FreshFacts.fresh_slot j Hj) as H.
    apply get_slot_mk in H as (_ & H2 & H3). split; assumption.
  - rewrite do_store_calls_app in Hrun.
    destruct (do_store_calls scs ∅) as [pages0 |] eqn:Hrun0; [| discriminate].
    assert (Hc : do_store_call sc pages0 = Some pages).
    { revert Hrun. cbn [mbind option_bind do_store_calls].
      destruct (do_store_call sc pages0); [intros H; exact H | discriminate]. }
    clear Hrun.
    pose proof (do_store_calls_inv _ _ _ store_inv_empty Hrun0) as Hinv0.
    destruct (do_store_call_keep sc pages0 pages Hinv0 Hc page_id j Hj He)
      as [Ho Hl].
    destruct (slot_empty (page_data (page_at pages0 page_id)) j) eqn:He0.
    + destruct (IH pages0 eq_refl Hj He0)
        as [[H1 H2] | (scs1 & scs2 & pages1 & -> & Hr1 & He1 & Ho1 & Hl1)].
      * left. split; congruence.
      * right. exists scs1, (scs2 ++ [sc]), pages1. rewrite app_assoc.
        split; [reflexivity |]. split; [exact Hr1 |]. split; [exact He1 |].
        split; congruence.
    + right. exists scs, [sc], pages0.
      split; [reflexivity |]. split; [exact Hrun0 |]. split; [exact He0 |].
      split; congruence.
Qed.

End FieldFacts.

(** C8 (as amended). [deleteTuple] makes the slot non-occupied and leaves
    its offset and length as they were; no operation on the store - an
    insert, a delete or a compaction on any page, or a move - changes the
    offset or the length of a slot that is empty after it; hence in every
    store reached from the empty store by any sequence of operations, an
    empty slot either has offset = length = INVALID_VALUE, as the
    constructor left it, or was occupied at an earlier point of the
    sequence and has the offset and length it had then. *)
Theorem C8_empty_slot_fields (scs : list store_call)
    (pages : gmap Z SlottedPage) (page_id j : Z) :
  (forall index p,
     Z.of_nat (length (page_data p)) = PAGE_SIZE ->
     Z.of_N index < MAX_SLOTS ->
     get_slot (page_data (deleteTuple index p)) (Z.of_N index)
     = Slot.mk true (slot_offset (page_data p) (Z.of_N index))
         (slot_length (page_data p) (Z.of_N index))) /\
  (forall sc before after id k,
     store_inv before -> do_store_call sc before = Some after ->
     0 <= k < MAX_SLOTS ->
     slot_empty (page_data (page_at after id)) k = true ->
     slot_offset (page_data (page_at after id)) k
       = slot_offset (page_data (page_at before id)) k /\
     slot_length (page_data (page_at after id)) k
       = slot_length (page_data (page_at before id)) k) /\
  (do_store_calls scs ∅ = Some pages -> 0 <= j < MAX_SLOTS ->
   slot_empty (page_data (page_at pages page_id)) j = true ->
   (slot_offset (page_data (page_at pages page_id)) j = INVALID_VALUE /\
    slot_length (page_data (page_at pages page_id)) j = INVALID_VALUE) \/
   (exists scs1 scs2 pages1,
      scs = scs1 ++ scs2 /\ do_store_calls scs1 ∅ = Some pages1 /\
      slot_empty (page_data (page_at pages1 page_id)) j = false /\
      slot_offset (page_data (page_at pages1 page_id)) j
        = slot_offset (page_data (page_at pages page_id)) j /\
      slot_length (page_data (page_at pages1 page_id)) j
        = slot_length (page_data (page_at pages page_id)) j)).
Proof.
  split; [| split].
  - intros index p Hlen Hlt.
    pose proof (N2Z.is_nonneg index) as Hnn.
    destruct (CallFacts.deleteTuple_fields index p (Z.of_N index) Hnn)
      as [Ho Hl].
    pose proof (CallFacts.deleteTuple_flag index p (Z.of_N index) Hnn Hlen)
      as Hf.
    rewrite Z.eqb_refl in Hf.
    destruct (Z.ltb_spec (Z.of_N index) MAX_SLOTS); [| lia].
    cbn [andb] in Hf. unfold get_slot. now rewrite Hf, Ho, Hl.
  - intros sc before after id k Hinv Hc Hk He.
    exact (FieldFacts.do_store_call_keep sc before after Hinv Hc id k Hk He).
  - apply FieldFacts.empty_slot_history.
Qed.

(** A record inserted into page 0 and moved to page 1: slot 0 of page 0 is
    empty and has the offset and length of the record. *)
Lemma C8_witness :
  exists pages,
    do_store_calls [OnPage 0 (Insert (mkTuple [10]) zeros); Move 0 1] ∅
      = Some pages /\
    get_slot (page_data (page_at pages 0)) 0 = Slot.mk true 3072 4 /\
    ((slot_offset (page_data (page_at pages 0)) 0 = INVALID_VALUE /\
      slot_length (page_data (page_at pages 0)) 0 = INVALID_VALUE) \/
     (exists scs1 scs2 pages1,
        [OnPage 0 (Insert (mkTuple [10]) zeros); Move 0 1] = scs1 ++ scs2 /\
        do_store_calls scs1 ∅ = Some pages1 /\
        slot_empty (page_data (page_at pages1 0)) 0 = false /\
        slot_offset (page_data (page_at pages1 0)) 0
          = slot_offset (page_data (page_at pages 0)) 0 /\
        slot_length (page_data (page_at pages1 0)) 0
          = slot_length (page_data (page_at pages 0)) 0)).
Proof.
  assert (Hrun : exists pages,
    do_store_calls [OnPage 0 (Insert (mkTuple [10]) zeros); Move 0 1] ∅
      = Some pages /\
    get_slot (page_data (page_at pages 0)) 0 = Slot.mk true 3072 4).
  { eexists. eval_conj. }
  destruct Hrun as (pages & Hrun & Hslot). exists pages.
  split; [exact Hrun |]. split; [exact Hslot |].
  assert (Hr : 0 <= 0 < MAX_SLOTS) by (split; zcmp).
  pose proof (proj2 (proj2 (C8_empty_slot_fields
    [OnPage 0 (Insert (mkTuple [10]) zeros); Move 0 1] pages 0 0))) as H.
  apply SlotFacts.get_slot_mk in Hslot as (He & _).
  exact (H Hrun Hr He).
Defined.

Module FrameFacts.
Import MemFacts SlotFacts AddFacts CompactFacts.

(** A pass writes no byte of the data region below the offset it starts
    from. *)
Lemma compact_loop_low : forall idx new_offset d d',
  Z.of_nat (length d) = PAGE_SIZE ->
  Forall (fun i => 0 <= i < MAX_SLOTS) idx ->
  directory_size <= new_offset ->
  (forall j, 0 <= j < MAX_SLOTS -> in_data_region d j) ->
  compact_loop idx new_offset d = Some d' ->
  agree directory_size new_offset d' d.
Proof.
  induction idx as [| i idx IH]; intros new_offset d d' Hlen Hidx Hdir Hreg.
  - intros [= <-]. apply agree_refl.
  - apply Forall_cons in Hidx as [Hi Hidx]. cbn [compact_loop].
    destruct (slot_empty d i) eqn:He; [now apply IH |].
    destruct (compact_slot i new_offset d) as [d1 |] eqn:Hs; [| discriminate].
    cbn [mbind option_bind]. intros Hloop.
    destruct (compact_slot_spec d i new_offset d1 Hlen Hi Hdir (Hreg i Hi)
                He Hs) as (Hl1 & Hother & Hself & Hfit & _ & Hlow & _).
    pose proof (slot_length_range d i) as Hlr.
    assert (Hreg1 : forall j, 0 <= j < MAX_SLOTS -> in_data_region d1 j).
    { intros j Hj. destruct (decide (j = i)) as [-> | Hne].
      - apply get_slot_mk in Hself as (_ & E2 & E3). intros _.
        rewrite E2, E3. lia.
      - destruct (get_slot_eq _ _ _ _ (Hother j Hj Hne)) as (E1 & E2 & E3).
        unfold in_data_region. rewrite E1, E2, E3. now apply Hreg. }
    pose proof (IH (new_offset + slot_length d i) d1 d' ltac:(lia) Hidx
                  ltac:(lia) Hreg1 Hloop) as Hag.
    eapply agree_trans; [| exact Hlow].
    eapply agree_sub; [exact Hag | lia | lia].
Qed.

End FrameFacts.

(** X26. On every well-formed page on which it is defined, [compactPage]
    changes in the directory only the offsets of occupied slots: every
    slot keeps its flag and its length, an empty slot keeps its offset,
    [metadata_size] and the size of the buffer stay, no byte of the data
    region below [metadata_size] is written, and the page it returns is
    well formed. *)
Theorem X26_compact_frame (p p' : SlottedPage) :
  page_inv p -> compactPage p = Some p' ->
  page_inv p' /\
  metadata_size p' = metadata_size p /\
  length (page_data p') = length (page_data p) /\
  (forall i, 0 <= i < MAX_SLOTS ->
     slot_empty (page_data p') i = slot_empty (page_data p) i /\
     slot_length (page_data p') i = slot_length (page_data p) i /\
     (slot_empty (page_data p) i = true ->
      slot_offset (page_data p') i = slot_offset (page_data p) i)) /\
  agree directory_size (metadata_size p) (page_data p') (page_data p).
Proof.
  intros Hinv Hc.
  split; [exact (CallFacts.compactPage_inv p p' Hinv Hc) |].
  destruct Hinv as (Hlen & Hmeta & Hreg).
  rewrite CompactFacts.compactPage_unfold in Hc.
  destruct (compact_loop slot_indices (metadata_size p) (page_data p))
    as [d' |] eqn:Hloop; [| discriminate].
  injection Hc as <-. cbn [page_data metadata_size].
  destruct (CompactFacts.compact_loop_inv _ _ _ _ Hlen
              CompactFacts.slot_indices_range Hmeta Hreg Hloop)
    as (Hl' & _ & Hkeep).
  split; [reflexivity |]. split; [exact Hl' |]. split; [exact Hkeep |].
  exact (FrameFacts.compact_loop_low _ _ _ _ Hlen
           CompactFacts.slot_indices_range Hmeta Hreg Hloop).
Qed.

Lemma X26_witness :
  exists p p',
    do_calls [Insert (mkTuple [10]) zeros; Insert (mkTuple [20]) zeros;
              Delete 0%N] SlottedPage_new = Some p /\
    compactPage p = Some p' /\
    get_slot (page_data p) 0 = Slot.mk true 3072 4 /\
    get_slot (page_data p') 0 = Slot.mk true 3072 4 /\
    slot_length (page_data p') 1 = slot_length (page_data p) 1.
Proof.
  assert (Hrun : exists p p',
    do_calls [Insert (mkTuple [10]) zeros; Insert (mkTuple [20]) zeros;
              Delete 0%N] SlottedPage_new = Some p /\
    compactPage p = Some p' /\
    get_slot (page_data p) 0 = Slot.mk true 3072 4).
  { eexists. eexists. eval_conj. }
  destruct Hrun as (p & p' & Hrun & Hc & Hs0).
  exists p, p'. split; [exact Hrun |]. split; [exact Hc |].
  split; [exact Hs0 |].
  pose proof (CallFacts.do_calls_inv _ _ _ FreshFacts.SlottedPage_new_inv Hrun)
    as Hinv.
  destruct (X26_compact_frame p p' Hinv Hc) as (_ & _ & _ & Hkeep & _).
  assert (Hr0 : 0 <= 0 < MAX_SLOTS) by (split; zcmp).
  assert (Hr1 : 0 <= 1 < MAX_SLOTS) by (split; zcmp).
  destruct (Hkeep 0 Hr0) as (Ke & Kl & Ko).
  destruct (Hkeep 1 Hr1) as (_ & Kl1 & _).
  split; [| exact Kl1].
  apply SlotFacts.get_slot_mk in Hs0 as (E0 & O0 & L0).
  unfold get_slot. rewrite Ke, Kl, (Ko E0), E0, O0, L0. reflexivity.
Defined.
